(** * Linkora DEX utilities: the adaptive action-execution controller

  A shallow embedding of the price generator
  ([oracul/price_generator_cly_debug.py]) and of the keeper's position
  scan ([keeper/diagnostics.py], [keeper/keeper_service.py],
  [keeper/config.py]), with the properties the specification states
  about them.

  Conventions of the embedding.
  - Python [int] is [Z].
  - Python [float] is the IEEE double.  A double is kept as the
    rational it stands for ([Q]).  Where a float ends up in an integer
    or in a decision (the gas limit, the gas price, the gas multiplier
    they use, the PnL ratio against the threshold), every operation is
    rounded to the nearest double as the interpreter does it
    ([Double]), literals included: [0.2] is the double nearest to
    [1/5].  Prices, volatilities, random draws and delays stay the
    real quantities they stand for: their arithmetic is not rounded.
    [int(x)] truncates towards zero.
  - [min(a, b)] and [max(a, b)] follow the interpreter: the first
    argument is kept unless the second is strictly smaller (larger).
  - The chain (RPC reads, submission outcomes) is an oracle the
    functions are parameterised by; the effects of the retry code are
    a state-and-log monad over the adaptive state.
  - [Web3.from_wei] returns the [int] 0 or a [decimal.Decimal], which
    Python does not multiply with a [float]; [Web3.to_wei] of a whole
    number of gwei is a multiplication.  The coroutines are run one at
    a time. *)

From Stdlib Require Import ZArith QArith Qround Qminmax Qpower Qabs.
From Stdlib Require Import List String Ascii Bool Lia Lqa.
Import ListNotations.

Local Open Scope Z_scope.

(** ** Python arithmetic *)

Module Py.

(** [min(a, b)]: [b] when [b < a], otherwise [a]. *)
Definition min (a b : Q) : Q := if Qle_bool a b then a else b.

(** [max(a, b)]: [b] when [b > a], otherwise [a]. *)
Definition max (a b : Q) : Q := if Qle_bool b a then a else b.

(** [int(x)] on a float: truncation towards zero. *)
Definition int (x : Q) : Z := Z.quot (Qnum x) (Zpos (Qden x)).

End Py.

(** ** IEEE doubles

    Python's [float] is the IEEE binary64 format: 53 significant bits,
    every operation rounded to the nearest double, ties to the even
    significand.  A double is kept as the rational it stands for, and
    an operation is the exact operation followed by [round].  The
    exponent is not bounded: overflow and subnormal numbers are outside
    the model (the amounts of this program are far from both). *)

Module Double.

Local Open Scope Q_scope.

(** The nearest integer, ties to the even one. *)
Definition rne (q : Q) : Z :=
  let f := Qfloor q in
  match Qcompare (q - inject_Z f) (1 # 2) with
  | Lt => f
  | Gt => (f + 1)%Z
  | Eq => if Z.even f then f else (f + 1)%Z
  end.

(** The binade of a positive number: the [e] with [2^e <= x < 2^(e+1)]. *)
Definition binade (x : Q) : Z :=
  let e := (Z.log2 (Qnum x) - Z.log2 (QDen x))%Z in
  if Qle_bool (2 ^ e) x then e else (e - 1)%Z.

(** The spacing of the doubles in the binade of [x]: 53 significant bits. *)
Definition ulp (x : Q) : Q := 2 ^ (binade x - 52).

(** The nearest double to a positive number: the significand, a whole
    number of [ulp]s between [2^52] and [2^53], is rounded. *)
Definition round_pos (x : Q) : Q :=
  Qred (inject_Z (rne (x / ulp x)) * ulp x).

(** The double nearest to [x], ties to even. *)
Definition round (x : Q) : Q :=
  match Qnum x with
  | Z0 => 0
  | Zpos _ => round_pos x
  | Zneg _ => - round_pos (- x)
  end.

(** The largest relative error of one rounding. *)
Definition eps : Q := 1 # (2 ^ 53).

(** [float(z)], the conversion a mixed [int]/[float] operation does. *)
Definition of_int (z : Z) : Q := round (inject_Z z).

(** [a * b] and [a + b] on doubles. *)
Definition mul (a b : Q) : Q := round (a * b).
Definition add (a b : Q) : Q := round (a + b).

(** [n / d] on two [int]s, which Python rounds once, from the exact
    quotient. *)
Definition int_div (n d : Z) : Q := round (inject_Z n / inject_Z d).

(** [b] to the power [k]. *)
Fixpoint pow (b : Q) (k : nat) : Q :=
  match k with
  | O => 1
  | S k' => b * pow b k'
  end.

(** [x] was computed with at most [k] roundings where exact arithmetic
    gives the non-negative [y]. *)
Definition within (k : nat) (x y : Q) : Prop :=
  0 <= y /\ y * pow (1 - eps) k <= x /\ x <= y * pow (1 + eps) k.

End Double.

(** ** The price generator *)

Module Generator.

Local Open Scope Q_scope.

(** [PriceConfig], the fields the controller reads. *)
Record PriceConfig := mkPriceConfig {
  volatility_multiplier : Q;
  enable_volatile_events : bool;
  volatile_event_probability : Q;
  max_price_change : Q;
  min_price : Q;
  base_gas_limit : Z;
  max_gas_limit : Z;
  base_gas_price_gwei : Z;
  max_gas_price_gwei : Z;
  max_batch_size : Z;
  retry_attempts : Z;
  retry_delay_base : Q
}.

(** The defaults of the dataclass. *)
Definition default_config : PriceConfig := {|
  volatility_multiplier := 1;
  enable_volatile_events := true;
  volatile_event_probability := 1 # 1000;
  max_price_change := 1 # 2;
  min_price := 1 # 100;
  base_gas_limit := 800000;
  max_gas_limit := 1500000;
  base_gas_price_gwei := 20;
  max_gas_price_gwei := 100;
  max_batch_size := 6;
  retry_attempts := 5;
  retry_delay_base := 1
|}.

(** The three adaptive attributes of [PriceGenerator]; the gas
    multiplier is a double. *)
Record AdaptiveState := mkAdaptive {
  failed_attempts : Z;
  current_batch_size : Z;
  adaptive_gas_multiplier : Q
}.

(** [__init__], lines 111-113. *)
Definition initial_state : AdaptiveState :=
  {| failed_attempts := 0; current_batch_size := 6; adaptive_gas_multiplier := 1 |}.

(** [get_smart_gas_limit], the base cost by number of tokens. *)
Definition base_gas (tokens_count : Z) : Z :=
  if (tokens_count =? 1)%Z then 800000%Z
  else if (tokens_count <=? 3)%Z then 2500000%Z
  else (1500000 + tokens_count * 700000)%Z.

(** [get_smart_gas_limit].  The two multipliers and the product are
    doubles; [0.2] and [0.1] are the doubles nearest to them. *)
Definition get_smart_gas_limit (s : AdaptiveState) (tokens_count attempt : Z) : Z :=
  let retry_multiplier :=
    Double.add 1 (Double.mul (Double.of_int attempt) (Double.round (2 # 10))) in
  let failure_multiplier :=
    Double.add 1 (Double.mul (Double.of_int (failed_attempts s)) (Double.round (1 # 10))) in
  let gas_limit :=
    Py.int (Double.mul (Double.mul (Double.of_int (base_gas tokens_count)) retry_multiplier)
                       failure_multiplier) in
  Z.min gas_limit 8000000.

(** [get_adaptive_gas_limit]; nothing in the source calls it. *)
Definition get_adaptive_gas_limit (cfg : PriceConfig) (s : AdaptiveState) (num_tokens : Z) : Z :=
  let base_gas_per_token := (base_gas_limit cfg / 6)%Z in
  let gas_limit := (base_gas_per_token * num_tokens)%Z in
  let gas_limit := Py.int (Double.mul (Double.of_int gas_limit) (adaptive_gas_multiplier s)) in
  Z.min gas_limit (max_gas_limit cfg).

(** What [Web3.from_wei] returns: the [int] 0 for an amount of 0, a
    [decimal.Decimal] for any other. *)
Inductive Amount :=
| AmountInt (n : Z)
| AmountDecimal (d : Q).

(** [Web3.from_wei(n, 'gwei')].  [None]: the ValueError for an amount
    that is negative or above [2^256 - 1]. *)
Definition from_wei_gwei (wei : Z) : option Amount :=
  if (wei =? 0)%Z then Some (AmountInt 0)
  else if (wei <? 0)%Z || (2 ^ 256 - 1 <? wei)%Z then None
  else Some (AmountDecimal (inject_Z wei / inject_Z (10 ^ 9))).

(** [x * f] for a [float] [f].  [None]: the TypeError Python raises for
    a [Decimal] times a [float]. *)
Definition times_float (x : Amount) (f : Q) : option Q :=
  match x with
  | AmountInt n => Some (Double.mul (Double.of_int n) f)
  | AmountDecimal _ => None
  end.

(** [Web3.to_wei(n, 'gwei')] on an integer amount. *)
Definition to_wei_gwei (gwei : Z) : Z := (gwei * 10 ^ 9)%Z.

(** The clamped network price of [get_dynamic_gas_price], in gwei;
    [scaled] is [network_gas_price_gwei * 1.2]. *)
Definition adjusted_gas_price (cfg : PriceConfig) (scaled : Q) : Q :=
  Py.max (inject_Z (base_gas_price_gwei cfg))
         (Py.min scaled (inject_Z (max_gas_price_gwei cfg))).

(** [get_dynamic_gas_price].  [latest_gas_price] is what
    [w3.eth.gas_price] gave, in wei; [None] when the read raised.
    Whatever raises in the [try] block ends in the handler, which
    returns the base price.  The clamped price is an [int] or a
    [float]; the product with the gas multiplier is a double. *)
Definition get_dynamic_gas_price (cfg : PriceConfig) (s : AdaptiveState)
    (latest_gas_price : option Z) : Z :=
  let fallback := to_wei_gwei (base_gas_price_gwei cfg) in
  match latest_gas_price with
  | Some wei =>
      match from_wei_gwei wei with
      | Some network_gas_price_gwei =>
          match times_float network_gas_price_gwei (Double.round (12 # 10)) with
          | Some scaled =>
              let final_gas_price :=
                Py.int (Double.mul (Double.round (adjusted_gas_price cfg scaled))
                                   (adaptive_gas_multiplier s)) in
              to_wei_gwei final_gas_price
          | None => fallback
          end
      | None => fallback
      end
  | None => fallback
  end.

(** [adjust_batch_size_on_failure]. *)
Definition adjust_batch_size_on_failure (s : AdaptiveState) : AdaptiveState :=
  let fa := (failed_attempts s + 1)%Z in
  let s1 :=
    if (2 <=? fa)%Z then
      {| failed_attempts := fa;
         current_batch_size := Z.max 2 (current_batch_size s - 1);
         adaptive_gas_multiplier :=
           Py.min 2 (Double.mul (adaptive_gas_multiplier s) (Double.round (12 # 10))) |}
    else
      {| failed_attempts := fa;
         current_batch_size := current_batch_size s;
         adaptive_gas_multiplier := adaptive_gas_multiplier s |} in
  if (4 <=? fa)%Z then
    {| failed_attempts := fa; current_batch_size := 1; adaptive_gas_multiplier := 2 |}
  else s1.

(** [reset_adaptive_params_on_success]. *)
Definition reset_adaptive_params_on_success (cfg : PriceConfig) (s : AdaptiveState)
    : AdaptiveState :=
  let fa :=
    if (0 <? failed_attempts s)%Z then Z.max 0 (failed_attempts s - 1) else failed_attempts s in
  if (fa =? 0)%Z then
    {| failed_attempts := fa;
       current_batch_size :=
         if (current_batch_size s <? max_batch_size cfg)%Z
         then Z.min (max_batch_size cfg) (current_batch_size s + 1)
         else current_batch_size s;
       adaptive_gas_multiplier :=
         Py.max 1 (Double.mul (adaptive_gas_multiplier s) (Double.round (95 # 100))) |}
  else
    {| failed_attempts := fa;
       current_batch_size := current_batch_size s;
       adaptive_gas_multiplier := adaptive_gas_multiplier s |}.

(** The out-of-gas branch of the exception handler in
    [update_prices_with_retry], lines 503-505. *)
Definition raise_gas_multiplier (s : AdaptiveState) : AdaptiveState :=
  {| failed_attempts := failed_attempts s;
     current_batch_size := current_batch_size s;
     adaptive_gas_multiplier :=
       Py.min 2 (Double.mul (adaptive_gas_multiplier s) (Double.round (13 # 10))) |}.

(** The transitions of the adaptive state. *)
Inductive Transition := OnFailure | OnSuccess | OutOfGas.

Definition step (cfg : PriceConfig) (s : AdaptiveState) (t : Transition) : AdaptiveState :=
  match t with
  | OnFailure => adjust_batch_size_on_failure s
  | OnSuccess => reset_adaptive_params_on_success cfg s
  | OutOfGas => raise_gas_multiplier s
  end.

(** The state after a sequence of transitions, oldest first. *)
Definition run (cfg : PriceConfig) (s : AdaptiveState) (ts : list Transition) : AdaptiveState :=
  fold_left (step cfg) ts s.

(** States the controller can be in. *)
Inductive reachable (cfg : PriceConfig) : AdaptiveState -> Prop :=
| reach_init : reachable cfg initial_state
| reach_step s t : reachable cfg s -> reachable cfg (step cfg s t).

(** *** Price generation *)

(** The clamped relative change of [generate_price].  The three draws
    of the random generator are inputs: [r_event] for the volatile-event
    test, [u] for [random.uniform(2, 5)], [r_change] for the change. *)
Definition clamped_change (cfg : PriceConfig) (token_volatility r_event u r_change : Q) : Q :=
  let volatility := token_volatility * volatility_multiplier cfg in
  let volatility :=
    if enable_volatile_events cfg && negb (Qle_bool (volatile_event_probability cfg) r_event)
    then volatility * u else volatility in
  let change := (r_change - (1 # 2)) * 2 * volatility in
  Py.max (- max_price_change cfg) (Py.min (max_price_change cfg) change).

(** [generate_price], for a token of the given volatility and current
    price. *)
Definition generate_price (cfg : PriceConfig) (token_volatility current r_event u r_change : Q)
    : Q :=
  let change := clamped_change cfg token_volatility r_event u r_change in
  let new_price := current * (1 + change) in
  Py.max new_price (min_price cfg).

(** *** The chain as an oracle *)

Definition Address := string.

(** What one pass through the body of the retry loop runs into. *)
Inductive AttemptResult :=
| CallFailed                      (* the dry-run [call] raised, lines 454-458 *)
| Receipt (status : Z)            (* a receipt came back *)
| Raised (error_msg : string).    (* anything else in the [try] raised *)

(** The chain: whether the pre-flight reads of the n-th invocation of
    the retry function succeed, the gas price read at the n-th attempt
    ([None]: the estimate raised), and what the n-th attempt ran into. *)
Record Chain := mkChain {
  preflight : nat -> bool;
  gas_price_read : nat -> option Z;
  attempt_result : nat -> AttemptResult
}.

(** What the process does, in order. *)
Inductive Event :=
| EvCall (tokens : list Address) (prices : list Z)
    (* [update_prices_with_retry] entered *)
| EvAttempt (tokens : list Address) (attempt gas_limit gas_price : Z)
    (* one pass of the retry loop, with the gas it computed *)
| EvSleep (delay : Q)
    (* [asyncio.sleep(retry_delay)] *)
| EvOnFailure
    (* [adjust_batch_size_on_failure] *)
| EvOnSuccess
    (* [reset_adaptive_params_on_success] *)
| EvRaiseGas.
    (* the out-of-gas branch *)

(** The process state: the adaptive attributes and how many
    invocations and attempts the chain has seen. *)
Record Proc := mkProc {
  adaptive : AdaptiveState;
  n_calls : nat;
  n_attempts : nat
}.

(** State and log. *)
Definition M (A : Type) : Type := Proc -> A * Proc * list Event.

Definition ret {A : Type} (a : A) : M A := fun p => (a, p, []).

Definition bind {A B : Type} (m : M A) (k : A -> M B) : M B :=
  fun p =>
    let '(a, p1, e1) := m p in
    let '(b, p2, e2) := k a p1 in
    (b, p2, e1 ++ e2).

Notation "x <- m ;; k" := (bind m (fun x => k))
  (at level 61, m at next level, right associativity).
Notation "m ;;; k" := (bind m (fun _ => k))
  (at level 61, right associativity).

Definition get : M Proc := fun p => (p, p, []).
Definition tell (e : Event) : M unit := fun p => (tt, p, [e]).
Definition modify_adaptive (f : AdaptiveState -> AdaptiveState) : M unit :=
  fun p => (tt, {| adaptive := f (adaptive p); n_calls := n_calls p;
                   n_attempts := n_attempts p |}, []).
Definition next_call : M nat :=
  fun p => (n_calls p, {| adaptive := adaptive p; n_calls := S (n_calls p);
                          n_attempts := n_attempts p |}, []).
Definition next_attempt : M nat :=
  fun p => (n_attempts p, {| adaptive := adaptive p; n_calls := n_calls p;
                             n_attempts := S (n_attempts p) |}, []).

Definition result {A : Type} (m : M A) (p : Proc) : A := fst (fst (m p)).
Definition final {A : Type} (m : M A) (p : Proc) : Proc := snd (fst (m p)).
Definition events {A : Type} (m : M A) (p : Proc) : list Event := snd (m p).

Definition on_failure : M unit :=
  modify_adaptive adjust_batch_size_on_failure ;;; tell EvOnFailure.
Definition on_success (cfg : PriceConfig) : M unit :=
  modify_adaptive (reset_adaptive_params_on_success cfg) ;;; tell EvOnSuccess.
Definition on_out_of_gas : M unit :=
  modify_adaptive raise_gas_multiplier ;;; tell EvRaiseGas.

(** *** Classification of error text *)

Definition lower_ascii (c : ascii) : ascii :=
  let n := nat_of_ascii c in
  if (65 <=? n)%nat && (n <=? 90)%nat then ascii_of_nat (n + 32) else c.

(** [str.lower()], on ASCII text. *)
Fixpoint lower (s : string) : string :=
  match s with
  | EmptyString => EmptyString
  | String c rest => String (lower_ascii c) (lower rest)
  end.

(** [needle in hay]. *)
Definition contains (needle hay : string) : bool :=
  match String.index 0 needle hay with Some _ => true | None => false end.

Inductive ErrorClass := GasInsufficient | CircuitBreaker | ExecutionReverted | Unrecognised.

(** The [if]/[elif] chain of lines 503-511. *)
Definition classify (error_msg : string) : ErrorClass :=
  let m := lower error_msg in
  if contains "out of gas" m then GasInsufficient
  else if contains "price change too large" m then CircuitBreaker
  else if contains "execution reverted" m then ExecutionReverted
  else Unrecognised.

(** *** The retry function *)

(** Lines 513-515. *)
Definition backoff (cfg : PriceConfig) (attempt : Z) : M unit :=
  if (attempt <? retry_attempts cfg - 1)%Z
  then tell (EvSleep (retry_delay_base cfg * inject_Z (2 ^ attempt)))
  else ret tt.

(** The [for attempt in range(retry_attempts)] loop of
    [update_prices_with_retry]; [remaining] iterations are left. *)
Fixpoint retry_loop (chain : Chain) (cfg : PriceConfig) (tokens : list Address)
    (remaining : nat) (attempt : Z) : M bool :=
  match remaining with
  | O => ret false
  | S remaining' =>
      p <- get ;;
      n <- next_attempt ;;
      let gas_price := get_dynamic_gas_price cfg (adaptive p) (gas_price_read chain n) in
      let gas_limit := get_smart_gas_limit (adaptive p) (Z.of_nat (List.length tokens)) attempt in
      tell (EvAttempt tokens attempt gas_limit gas_price) ;;;
      match attempt_result chain n with
      | CallFailed => ret false
      | Receipt status =>
          if (status =? 1)%Z then on_success cfg ;;; ret true
          else retry_loop chain cfg tokens remaining' (attempt + 1)
      | Raised error_msg =>
          match classify error_msg with
          | GasInsufficient =>
              on_out_of_gas ;;; backoff cfg attempt ;;;
              retry_loop chain cfg tokens remaining' (attempt + 1)
          | CircuitBreaker => ret false
          | ExecutionReverted => ret false
          | Unrecognised =>
              backoff cfg attempt ;;;
              retry_loop chain cfg tokens remaining' (attempt + 1)
          end
      end
  end.

(** [update_prices_with_retry]. *)
Definition update_prices_with_retry (chain : Chain) (cfg : PriceConfig)
    (tokens : list Address) (prices : list Z) : M bool :=
  n <- next_call ;;
  tell (EvCall tokens prices) ;;;
  if preflight chain n
  then retry_loop chain cfg tokens (Z.to_nat (retry_attempts cfg)) 0
  else ret false.

(** *** Batches *)

(** [range(start, stop, step)] for a positive step. *)
Fixpoint range_step (fuel start stop step : nat) : list nat :=
  match fuel with
  | O => []
  | S fuel' =>
      if (start <? stop)%nat then start :: range_step fuel' (start + step) stop step else []
  end.

(** [l[i:j]]. *)
Definition slice {A : Type} (i j : nat) (l : list A) : list A := firstn (j - i) (skipn i l).

(** The batches of lines 541-549.  A zero step makes [range] raise
    ([None]); a negative one gives no batch. *)
Definition plan_batches {A : Type} (batch_size : Z) (items : list A) : option (list (list A)) :=
  if (batch_size =? 0)%Z then None
  else if (batch_size <? 0)%Z then Some []
  else
    let bs := Z.to_nat batch_size in
    let n := List.length items in
    Some (map (fun i => slice i (Nat.min (i + bs) n) items) (range_step n 0 n bs)).

(** The fallback of lines 561-564: one invocation per member. *)
Fixpoint individual_updates (chain : Chain) (cfg : PriceConfig) (batch : list (Address * Z))
    : M unit :=
  match batch with
  | [] => ret tt
  | (token_addr, price) :: rest =>
      _ <- update_prices_with_retry chain cfg [token_addr] [price] ;;
      individual_updates chain cfg rest
  end.

(** The body of the loop over batches, lines 554-564; the result is
    [success]. *)
Definition process_batch (chain : Chain) (cfg : PriceConfig) (batch : list (Address * Z))
    : M bool :=
  success <- update_prices_with_retry chain cfg (map fst batch) (map snd batch) ;;
  if success then ret true
  else
    on_failure ;;;
    (if (1 <? List.length batch)%nat then individual_updates chain cfg batch else ret tt) ;;;
    ret false.

(** The loop over batches; the result is [all_success]. *)
Fixpoint process_batches (chain : Chain) (cfg : PriceConfig)
    (batches : list (list (Address * Z))) (all_success : bool) : M bool :=
  match batches with
  | [] => ret all_success
  | batch :: rest =>
      success <- process_batch chain cfg batch ;;
      process_batches chain cfg rest (if success then all_success else false)
  end.

(** [update_prices] from line 537 on: the system is operational and
    [items] are the token addresses with the prices generated for them.
    [None] when [range] raised. *)
Definition update_prices (chain : Chain) (cfg : PriceConfig) (items : list (Address * Z))
    : M (option unit) :=
  p <- get ;;
  match plan_batches (current_batch_size (adaptive p)) items with
  | None => ret None
  | Some batches =>
      all_success <- process_batches chain cfg batches true ;;
      (if all_success then on_success cfg else ret tt) ;;;
      ret (Some tt)
  end.

(** *** Reading the log *)

Definition calls_of (evs : list Event) : list (list Address * list Z) :=
  flat_map (fun e => match e with EvCall t p => [(t, p)] | _ => [] end) evs.

Definition attempts_of (evs : list Event) : list (list Address * Z) :=
  flat_map (fun e => match e with EvAttempt t a _ _ => [(t, a)] | _ => [] end) evs.

Definition count_on_failure (evs : list Event) : nat :=
  List.length (filter (fun e => match e with EvOnFailure => true | _ => false end) evs).

Definition count_on_success (evs : list Event) : nat :=
  List.length (filter (fun e => match e with EvOnSuccess => true | _ => false end) evs).

(** The attempts of one invocation that uses up its retries: attempt
    numbers 0 to [retry_attempts - 1] on the same tokens. *)
Definition attempts_from (tokens : list Address) (attempt : Z) (count : nat)
    : list (list Address * Z) :=
  map (fun i => (tokens, (attempt + Z.of_nat i)%Z)) (seq 0 count).

Definition full_budget (cfg : PriceConfig) (tokens : list Address) : list (list Address * Z) :=
  attempts_from tokens 0 (Z.to_nat (retry_attempts cfg)).

(** An attempt after which the loop goes on: a receipt with a status
    other than 1, or an error that is not one of the two terminal
    texts. *)
Definition retried (r : AttemptResult) : bool :=
  match r with
  | CallFailed => false
  | Receipt status => negb (status =? 1)%Z
  | Raised error_msg =>
      match classify error_msg with
      | GasInsufficient | Unrecognised => true
      | CircuitBreaker | ExecutionReverted => false
      end
  end.

(** What a run of the loop looks like when every attempt is one after
    which the loop goes on. *)
Definition exhausted (tokens : list Address) (attempt : Z) (remaining : nat) (p : Proc)
    (m : M bool) : Prop :=
  result m p = false /\
  attempts_of (events m p) = attempts_from tokens attempt remaining /\
  count_on_success (events m p) = 0%nat /\
  n_attempts (final m p) = (n_attempts p + remaining)%nat /\
  failed_attempts (adaptive (final m p)) = failed_attempts (adaptive p) /\
  current_batch_size (adaptive (final m p)) = current_batch_size (adaptive p).

(** The members of a batch as the fallback submits them. *)
Definition singletons (batch : list (Address * Z)) : list (list Address * list Z) :=
  map (fun item => ([fst item], [snd item])) batch.

End Generator.

(** ** The keeper *)

Module Keeper.

Local Open Scope Q_scope.

(** [KeeperConfig], the fields [validate_config] and the position scan
    read. *)
Record KeeperConfig := mkKeeperConfig {
  private_key : string;
  contracts : list (string * string);
  order_check_interval : Z;
  liquidation_threshold : Z
}.

(** [d.get(key, default)] on a dict kept as an association list. *)
Fixpoint dict_get (d : list (string * string)) (key default : string) : string :=
  match d with
  | [] => default
  | (k, v) :: rest => if String.eqb k key then v else dict_get rest key default
  end.

(** Truth value of a string. *)
Definition truthy (s : string) : bool :=
  match s with EmptyString => false | _ => true end.

(** [ConfigManager.get_contract_address]. *)
Definition get_contract_address (cfg : KeeperConfig) (contract_name : string) : string :=
  let address := dict_get (contracts cfg) contract_name "" in
  if negb (truthy address) && String.eqb contract_name "Router"
  then dict_get (contracts cfg) "RouterProxy" ""
  else address.

(** [ConfigManager.validate_config]: the list of errors. *)
Definition validate_config (cfg : KeeperConfig) : list string :=
  let errors := [] in
  let errors :=
    if negb (truthy (private_key cfg)) then errors ++ ["Private key not set"%string]
    else errors in
  let router_address := get_contract_address cfg "Router" in
  let errors :=
    if negb (truthy router_address)
    then errors ++ ["Contract Router address not found"%string] else errors in
  let errors :=
    if (order_check_interval cfg <? 1)%Z
    then errors ++ ["Order check interval must be >= 1"%string] else errors in
  let errors :=
    if (0 <=? liquidation_threshold cfg)%Z
    then errors ++ ["Liquidation threshold must be negative"%string] else errors in
  errors.

(** [PositionInfo]. *)
Record PositionInfo := mkPosition {
  id : Z;
  user : string;
  token : string;
  collateral_amount : Z;
  leverage : Z;
  position_type : Z;
  entry_price : Z;
  size : Z;
  created_at : Z;
  is_open : bool
}.

(** What [contract_manager.get_price] does: a price, [None], or an
    exception. *)
Inductive PriceRead := PriceValue (price : Z) | PriceNone | PriceRaises.

(** The contract manager the scan reads from.  [get_position] is [None]
    both when the manager returns [None] and when the read raises: the
    scan skips the id either way. *)
Record ContractManager := mkContracts {
  get_price : string -> PriceRead;
  get_position : Z -> option PositionInfo;
  get_next_position_id : Z
}.

(** [DiagnosticService.calculate_pnl_ratio].  The numerator is an
    [int]; the quotient of the two [int]s is a double.  The division
    raises on a zero entry price, and the handler returns [0.0]. *)
Definition calculate_pnl_ratio (cm : ContractManager) (position : PositionInfo) : Q :=
  match get_price cm (token position) with
  | PriceRaises => 0
  | PriceNone => 0
  | PriceValue current_price =>
      if (entry_price position =? 0)%Z then 0
      else if (position_type position =? 0)%Z
      then Double.int_div ((current_price - entry_price position) * 100) (entry_price position)
      else Double.int_div ((entry_price position - current_price) * 100) (entry_price position)
  end.

(** The test of line 222: a [float] against an [int], which Python
    compares exactly. *)
Definition liquidation_candidate (cfg : KeeperConfig) (cm : ContractManager)
    (position : PositionInfo) : bool :=
  Qle_bool (calculate_pnl_ratio cm position) (inject_Z (liquidation_threshold cfg)).

(** [range(start, stop)]. *)
Definition range (start stop : Z) : list Z :=
  map (fun i => (start + Z.of_nat i)%Z) (seq 0 (Z.to_nat (stop - start))).

(** One pass of the loop of [_check_positions]: whether liquidation of
    this id is attempted. *)
Definition check_position (cfg : KeeperConfig) (cm : ContractManager) (position_id : Z) : bool :=
  match get_position cm position_id with
  | None => false
  | Some position =>
      if negb (is_open position) then false
      else liquidation_candidate cfg cm position
  end.

(** [KeeperService._check_positions]: the ids whose liquidation is
    attempted, in order. *)
Definition _check_positions (cfg : KeeperConfig) (cm : ContractManager) : list Z :=
  let next_position_id := get_next_position_id cm in
  let total_positions := (next_position_id - 1)%Z in
  if (total_positions <=? 0)%Z then []
  else filter (check_position cfg cm) (range 1 next_position_id).

End Keeper.

(** ** The specification's formulas *)

Module Spec.

Local Open Scope Q_scope.

(** [clamp(x, lo, hi)]. *)
Definition clamp (x lo hi : Q) : Q := Qmax lo (Qmin x hi).

(** The gas limit the way section 4.2 words it: a base cost of the
    action count, times [1 + attempt * 0.2], times the gas multiplier,
    capped at the configured maximum. *)
Definition gas_limit_as_specified (cfg : Generator.PriceConfig) (base : Z -> Q)
    (s : Generator.AdaptiveState) (action_count attempt : Z) : Z :=
  Z.min
    (Py.int (base action_count * (1 + inject_Z attempt * (2 # 10))
             * Generator.adaptive_gas_multiplier s))
    (Generator.max_gas_limit cfg).

(** The gas price the way section 4.2 words it, in whole gwei:
    [clamp(networkGasPrice * 1.2, minConfigured, maxConfigured)] times
    the gas multiplier. *)
Definition gas_price_as_specified (cfg : Generator.PriceConfig) (s : Generator.AdaptiveState)
    (network_gas_price_gwei : Q) : Z :=
  Py.int (clamp (network_gas_price_gwei * (12 # 10))
            (inject_Z (Generator.base_gas_price_gwei cfg))
            (inject_Z (Generator.max_gas_price_gwei cfg))
          * Generator.adaptive_gas_multiplier s).

End Spec.

(** ** Concrete configurations and runs *)

Module Scenario.

Import Generator.
Local Open Scope Q_scope.

(** The state after four failures in a row. *)
Definition four_failures : AdaptiveState :=
  run default_config initial_state [OnFailure; OnFailure; OnFailure; OnFailure].

(** Four failures, then three successes. *)
Definition degrade_and_recover : list Transition :=
  [OnFailure; OnFailure; OnFailure; OnFailure; OnSuccess; OnSuccess; OnSuccess].

(** The state after one failure. *)
Definition one_failure : AdaptiveState := adjust_batch_size_on_failure initial_state.

(** Gas prices between 10 and 100 gwei, three attempts. *)
Definition config_10_100 : PriceConfig := {|
  volatility_multiplier := 1;
  enable_volatile_events := true;
  volatile_event_probability := 1 # 1000;
  max_price_change := 1 # 2;
  min_price := 1 # 100;
  base_gas_limit := 800000;
  max_gas_limit := 1500000;
  base_gas_price_gwei := 10;
  max_gas_price_gwei := 100;
  max_batch_size := 6;
  retry_attempts := 3;
  retry_delay_base := 1
|}.

(** A chain on which the reads succeed and every attempt ends in a
    network error. *)
Definition failing_chain : Chain := {|
  preflight := fun _ => true;
  gas_price_read := fun _ => Some (to_wei_gwei 20);
  attempt_result := fun _ => Raised "Connection timed out"
|}.

(** The process as it starts. *)
Definition start : Proc := {| adaptive := initial_state; n_calls := 0; n_attempts := 0 |}.

(** One price update, and a batch of three. *)
Definition eth_update : Address * Z :=
  ("0x0000000000000000000000000000000000000000"%string, 2500 * 10 ^ 18)%Z.

Definition three_updates : list (Address * Z) :=
  [eth_update; ("0xCAPY"%string, 10 ^ 18); ("0xAXOL"%string, 10 ^ 18)]%Z.

(** A keeper configuration that passes validation, with the default
    threshold of -90 percent. *)
Definition keeper_config : Keeper.KeeperConfig := {|
  Keeper.private_key := "0xkey";
  Keeper.contracts := [("RouterProxy"%string, "0xrouter"%string)];
  Keeper.order_check_interval := 5;
  Keeper.liquidation_threshold := -90
|}.

(** An open long position entered at 2000. *)
Definition long_position : Keeper.PositionInfo := {|
  Keeper.id := 1;
  Keeper.user := "0xuser";
  Keeper.token := "0xtoken";
  Keeper.collateral_amount := 10 ^ 18;
  Keeper.leverage := 10;
  Keeper.position_type := 0;
  Keeper.entry_price := 2000;
  Keeper.size := 10 ^ 19;
  Keeper.created_at := 1700000000;
  Keeper.is_open := true
|}.

(** A contract manager holding that position, with the token priced at
    200: a loss of exactly 90 percent. *)
Definition at_threshold : Keeper.ContractManager := {|
  Keeper.get_price := fun _ => Keeper.PriceValue 200;
  Keeper.get_position := fun i => if (i =? 1)%Z then Some long_position else None;
  Keeper.get_next_position_id := 2
|}.

(** The same, with the price read returning nothing. *)
Definition price_missing : Keeper.ContractManager := {|
  Keeper.get_price := fun _ => Keeper.PriceNone;
  Keeper.get_position := fun i => if (i =? 1)%Z then Some long_position else None;
  Keeper.get_next_position_id := 2
|}.

End Scenario.

(** ** The rest of the price generator *)

Module Feed.

Import Generator.
Local Open Scope Q_scope.

(** *** Reading more of the log *)

(** An attempt that ends the invocation with a failure: the dry-run
    call raised, or the error text is one of the two terminal ones. *)
Definition terminal (r : AttemptResult) : bool :=
  match r with
  | CallFailed => true
  | Receipt _ => false
  | Raised error_msg =>
      match classify error_msg with
      | CircuitBreaker | ExecutionReverted => true
      | GasInsufficient | Unrecognised => false
      end
  end.

(** An attempt that raised and is retried. *)
Definition raised_and_retried (r : AttemptResult) : bool :=
  match r with
  | Raised _ => retried r
  | _ => false
  end.

(** The gas multiplier after [m] relaxations of its largest value. *)
Fixpoint relaxed (m : nat) : Q :=
  match m with
  | O => 2
  | S k => Py.max 1 (Double.mul (relaxed k) (Double.round (95 # 100)))
  end.

Definition sleeps_of (evs : list Event) : list Q :=
  flat_map (fun e => match e with EvSleep d => [d] | _ => [] end) evs.

(** The batch as the retry function receives it. *)
Definition as_call (batch : list (Address * Z)) : list Address * list Z :=
  (map fst batch, map snd batch).

(** *** Volatility of a token *)

(** [_calculate_volatility]. *)
Definition _calculate_volatility (base_price : Q) : Q :=
  if Qle_bool 10000 base_price then 4 # 100
  else if Qle_bool 10 base_price then 5 # 100
  else if Qle_bool base_price 2 then 1 # 1000
  else 3 # 100.

(** *** The price history *)

(** [PriceHistory]: (price, timestamp) pairs, oldest first. *)
Record PriceHistory := mkHistory {
  prices : list (Q * Q);
  max_size : Z
}.

(** [PriceHistory.add], with the timestamp given. *)
Definition add (h : PriceHistory) (price timestamp : Q) : PriceHistory :=
  let appended := prices h ++ [(price, timestamp)] in
  if (max_size h <? Z.of_nat (List.length appended))%Z
  then {| prices := tl appended; max_size := max_size h |}
  else {| prices := appended; max_size := max_size h |}.

(** [l[-n:]] for a positive [n]. *)
Definition last_n {A : Type} (n : nat) (l : list A) : list A := skipn (List.length l - n) l.

(** [min] and [max] of a non-empty list, the way the interpreter folds
    them. *)
Definition min_of (first : Q) (rest : list Q) : Q := fold_left Py.min rest first.
Definition max_of (first : Q) (rest : list Q) : Q := fold_left Py.max rest first.

Record Stats := mkStats {
  current : Q;
  change : Q;
  min_24h : Q;
  max_24h : Q;
  count : nat
}.

(** What [get_stats] does: [None], the dict, or a division by zero. *)
Inductive StatsResult := NoStats | ZeroDivision | SomeStats (stats : Stats).

(** [PriceHistory.get_stats]. *)
Definition get_stats (h : PriceHistory) : StatsResult :=
  match rev (map fst (prices h)) with
  | current :: previous :: _ =>
      if Qeq_bool previous 0 then ZeroDivision
      else
        match map fst (last_n 24 (prices h)) with
        | [] => NoStats
        | first :: rest =>
            SomeStats {| current := current;
                         change := ((current - previous) / previous) * 100;
                         min_24h := min_of first rest;
                         max_24h := max_of first rest;
                         count := List.length (prices h) |}
        end
  | _ => NoStats
  end.

(** *** Command-line set-up *)

(** The fields of [PriceConfig] that [configure] is called on. *)
Record Settings := mkSettings {
  update_interval : Z;
  s_volatility_multiplier : Q;
  s_enable_volatile_events : bool;
  s_volatile_event_probability : Q;
  s_max_price_change : Q;
  history_size : Z
}.

(** One keyword argument of [configure]. *)
Inductive Setting :=
| UpdateInterval (v : Z)
| VolatilityMultiplier (v : Q)
| EnableVolatileEvents (v : bool)
| VolatileEventProbability (v : Q)
| MaxPriceChange (v : Q)
| HistorySize (v : Z)
| NoSuchField (key : string).

Definition set_field (c : Settings) (kw : Setting) : Settings :=
  match kw with
  | UpdateInterval v =>
      mkSettings v (s_volatility_multiplier c) (s_enable_volatile_events c)
        (s_volatile_event_probability c) (s_max_price_change c) (history_size c)
  | VolatilityMultiplier v =>
      mkSettings (update_interval c) v (s_enable_volatile_events c)
        (s_volatile_event_probability c) (s_max_price_change c) (history_size c)
  | EnableVolatileEvents v =>
      mkSettings (update_interval c) (s_volatility_multiplier c) v
        (s_volatile_event_probability c) (s_max_price_change c) (history_size c)
  | VolatileEventProbability v =>
      mkSettings (update_interval c) (s_volatility_multiplier c) (s_enable_volatile_events c)
        v (s_max_price_change c) (history_size c)
  | MaxPriceChange v =>
      mkSettings (update_interval c) (s_volatility_multiplier c) (s_enable_volatile_events c)
        (s_volatile_event_probability c) v (history_size c)
  | HistorySize v =>
      mkSettings (update_interval c) (s_volatility_multiplier c) (s_enable_volatile_events c)
        (s_volatile_event_probability c) (s_max_price_change c) v
  | NoSuchField _ => c
  end.

(** [PriceGenerator.configure]: each keyword the config has is set, in
    order; the others are skipped. *)
Definition configure (c : Settings) (kwargs : list Setting) : Settings :=
  fold_left set_field kwargs c.

Inductive Mode := Conservative | Aggressive | TestMode.

(** [setup_mode_config]. *)
Definition setup_mode_config (c : Settings) (mode : Mode) : Settings :=
  match mode with
  | Conservative =>
      configure c [UpdateInterval 10; VolatilityMultiplier (5 # 10);
                   EnableVolatileEvents false; MaxPriceChange (1 # 10)]
  | Aggressive =>
      configure c [UpdateInterval 2; VolatilityMultiplier 3; EnableVolatileEvents true;
                   VolatileEventProbability (1 # 100); MaxPriceChange 1]
  | TestMode =>
      configure c [UpdateInterval 1; VolatilityMultiplier 5; EnableVolatileEvents true;
                   VolatileEventProbability (5 # 100); MaxPriceChange 2]
  end.

(** The parsed arguments that reach the configuration. *)
Record Args := mkArgs {
  arg_update_interval : Z;
  arg_volatility : Q;
  arg_no_events : bool;
  arg_event_probability : Q;
  arg_max_change : Q;
  arg_history_size : Z;
  arg_mode : option Mode
}.

(** The configuration steps of [main]: the mode, when one is given, and
    then the arguments. *)
Definition main_configure (c : Settings) (args : Args) : Settings :=
  let c := match arg_mode args with Some mode => setup_mode_config c mode | None => c end in
  configure c [UpdateInterval (arg_update_interval args);
               VolatilityMultiplier (arg_volatility args);
               EnableVolatileEvents (negb (arg_no_events args));
               VolatileEventProbability (arg_event_probability args);
               MaxPriceChange (arg_max_change args);
               HistorySize (arg_history_size args)].

End Feed.

(** ** The rest of the keeper *)

Module Exec.

Import Keeper.

(** [OrderInfo]. *)
Record OrderInfo := mkOrder {
  order_id : Z;
  order_user : string;
  token_in : string;
  token_out : string;
  amount_in : Z;
  target_price : Z;
  min_amount_out : Z;
  order_type : Z;
  is_long : bool;
  executed : bool;
  order_created_at : Z;
  self_executable : bool
}.

(** The order side of the contract manager.  [get_order] is [None] also
    when the read raises: the scan skips the id either way. *)
Record OrderBook := mkOrderBook {
  get_order : Z -> option OrderInfo;
  should_execute_order : Z -> bool;
  get_next_order_id : Z
}.

(** One pass of the loop of [_check_orders]: whether execution of this
    id is attempted. *)
Definition check_order (book : OrderBook) (id : Z) : bool :=
  match get_order book id with
  | None => false
  | Some order => if executed order then false else should_execute_order book id
  end.

(** [KeeperService._check_orders]: the ids whose execution is attempted,
    in order. *)
Definition _check_orders (max_orders_per_batch : Z) (book : OrderBook) : list Z :=
  let next_order_id := get_next_order_id book in
  let total_orders := (next_order_id - 1)%Z in
  if (total_orders <=? 0)%Z then []
  else filter (check_order book) (range 1 (Z.min next_order_id (max_orders_per_batch + 1))).

(** What one attempt to send a transaction comes to: no hash, a
    receipt, or an exception. *)
Inductive TxOutcome := TxNone | TxReceipt (status : Z) | TxRaised.

Inductive KeeperEvent := KAttempt (attempt : nat) | KSleep (delay : Z).

(** The loop shared by [_execute_order_with_retry] and
    [_liquidate_position_with_retry]. *)
Fixpoint with_retry (outcome : nat -> TxOutcome) (retry_attempts retry_delay : Z)
    (remaining attempt : nat) : bool * list KeeperEvent :=
  match remaining with
  | O => (false, [])
  | S remaining' =>
      let rest := with_retry outcome retry_attempts retry_delay remaining' (S attempt) in
      match outcome attempt with
      | TxNone => (fst rest, KAttempt attempt :: snd rest)
      | TxReceipt status =>
          if (status =? 1)%Z then (true, [KAttempt attempt])
          else (fst rest, KAttempt attempt :: snd rest)
      | TxRaised =>
          if (Z.of_nat attempt <? retry_attempts - 1)%Z
          then (fst rest, KAttempt attempt :: KSleep retry_delay :: snd rest)
          else (fst rest, KAttempt attempt :: snd rest)
      end
  end.

(** [KeeperService._execute_order_with_retry]; [outcome] is what the
    attempts on this order come to. *)
Definition _execute_order_with_retry (outcome : nat -> TxOutcome)
    (retry_attempts retry_delay : Z) : bool * list KeeperEvent :=
  with_retry outcome retry_attempts retry_delay (Z.to_nat retry_attempts) 0.

(** [KeeperService._liquidate_position_with_retry]. *)
Definition _liquidate_position_with_retry (outcome : nat -> TxOutcome)
    (retry_attempts retry_delay : Z) : bool * list KeeperEvent :=
  with_retry outcome retry_attempts retry_delay (Z.to_nat retry_attempts) 0.

Definition attempts_made (evs : list KeeperEvent) : nat :=
  List.length (filter (fun e => match e with KAttempt _ => true | _ => false end) evs).

Definition time_slept (evs : list KeeperEvent) : Z :=
  fold_right (fun e acc => match e with KSleep d => (d + acc)%Z | _ => acc end) 0%Z evs.

(** One keyword argument of [update_config]. *)
Inductive Override :=
| SetPrivateKey (v : string)
| SetOrderCheckInterval (v : Z)
| SetLiquidationThreshold (v : Z)
| SetOther (key : string).

Definition set_override (cfg : KeeperConfig) (kw : Override) : KeeperConfig :=
  match kw with
  | SetPrivateKey v =>
      mkKeeperConfig v (contracts cfg) (order_check_interval cfg) (liquidation_threshold cfg)
  | SetOrderCheckInterval v =>
      mkKeeperConfig (private_key cfg) (contracts cfg) v (liquidation_threshold cfg)
  | SetLiquidationThreshold v =>
      mkKeeperConfig (private_key cfg) (contracts cfg) (order_check_interval cfg) v
  | SetOther _ => cfg
  end.

(** [ConfigManager.update_config], on the fields modelled here. *)
Definition update_config (cfg : KeeperConfig) (kwargs : list Override) : KeeperConfig :=
  fold_left set_override kwargs cfg.

(** The arguments of the keeper's [main] that override these fields;
    [None] when the option is not given. *)
Record KeeperArgs := mkKeeperArgs {
  arg_private_key : option string;
  arg_order_interval : option Z;
  arg_liquidation_threshold : option Z
}.

(** Truth value of an optional integer argument. *)
Definition given (v : option Z) : bool :=
  match v with Some z => negb (z =? 0)%Z | None => false end.

(** [config_overrides] as [main] builds it. *)
Definition config_overrides (args : KeeperArgs) : list Override :=
  (match arg_private_key args with
   | Some k => if truthy k then [SetPrivateKey k] else []
   | None => []
   end)
  ++ (match arg_order_interval args with
      | Some v => if given (Some v) then [SetOrderCheckInterval v] else []
      | None => []
      end)
  ++ (match arg_liquidation_threshold args with
      | Some v => if given (Some v) then [SetLiquidationThreshold v] else []
      | None => []
      end).

(** The configuration in force after [main] applied the overrides to a
    keeper whose configuration passed validation at construction. *)
Definition configuration_in_force (cfg : KeeperConfig) (args : KeeperArgs) : KeeperConfig :=
  update_config cfg (config_overrides args).

End Exec.

(** ** More concrete chains, histories and arguments *)

Module Cases.

Import Generator.
Local Open Scope Q_scope.

(** A chain whose pre-flight reads fail. *)
Definition blocked_chain : Chain := {|
  preflight := fun _ => false;
  gas_price_read := fun _ => None;
  attempt_result := fun _ => Raised "unreachable"
|}.

(** A chain that times out once and then trips the circuit breaker. *)
Definition tripping_chain : Chain := {|
  preflight := fun _ => true;
  gas_price_read := fun _ => Some (to_wei_gwei 20);
  attempt_result := fun n =>
    match n with
    | O => Raised "Connection timed out"
    | _ => Raised "execution reverted: Price change too large"
    end
|}.

(** A chain that times out once and then accepts. *)
Definition recovering_chain : Chain := {|
  preflight := fun _ => true;
  gas_price_read := fun _ => Some (to_wei_gwei 20);
  attempt_result := fun n =>
    match n with
    | O => Raised "Connection timed out"
    | _ => Receipt 1
    end
|}.

(** A chain that accepts everything. *)
Definition smooth_chain : Chain := {|
  preflight := fun _ => true;
  gas_price_read := fun _ => Some (to_wei_gwei 20);
  attempt_result := fun _ => Receipt 1
|}.

(** The process after one recorded failure. *)
Definition degraded : Proc :=
  {| adaptive := Scenario.one_failure; n_calls := 0; n_attempts := 0 |}.


(** A history of capacity two that is full. *)
Definition full_history : Feed.PriceHistory :=
  {| Feed.prices := [(100, 1); (101, 2)]; Feed.max_size := 2 |}.

(** An open long position entered at [10^18]. *)
Definition wei_position : Keeper.PositionInfo := {|
  Keeper.id := 1;
  Keeper.user := "0xuser";
  Keeper.token := "0xtoken";
  Keeper.collateral_amount := 10 ^ 18;
  Keeper.leverage := 10;
  Keeper.position_type := 0;
  Keeper.entry_price := 10 ^ 18;
  Keeper.size := 10 ^ 19;
  Keeper.created_at := 1700000000;
  Keeper.is_open := true
|}.

(** A contract manager holding that position, with the token priced at
    [10^17 + 1]: a loss just short of 90 percent. *)
Definition just_short : Keeper.ContractManager := {|
  Keeper.get_price := fun _ => Keeper.PriceValue (10 ^ 17 + 1);
  Keeper.get_position := fun i => if (i =? 1)%Z then Some wei_position else None;
  Keeper.get_next_position_id := 2
|}.

(** A keeper started with [--liquidation-threshold 10]. *)
Definition rash_args : Exec.KeeperArgs :=
  {| Exec.arg_private_key := None;
     Exec.arg_order_interval := None;
     Exec.arg_liquidation_threshold := Some 10%Z |}.

(** A transaction that raises on the first try and is mined on the
    second. *)
Definition second_try (attempt : nat) : Exec.TxOutcome :=
  match attempt with
  | 1%nat => Exec.TxReceipt 1
  | _ => Exec.TxRaised
  end.

End Cases.

(** * Properties *)

(** ** Python arithmetic *)

Section PyFacts.

Local Open Scope Q_scope.

Lemma py_min_spec (a b : Q) :
  (a <= b /\ Py.min a b = a) \/ (b < a /\ Py.min a b = b).
Proof.
  unfold Py.min. destruct (Qle_bool a b) eqn:E.
  - left. split; [now apply Qle_bool_iff | reflexivity].
  - right. split; [| reflexivity].
    apply Qnot_le_lt. intro H. apply Qle_bool_iff in H. congruence.
Qed.

Lemma py_max_spec (a b : Q) :
  (b <= a /\ Py.max a b = a) \/ (a < b /\ Py.max a b = b).
Proof.
  unfold Py.max. destruct (Qle_bool b a) eqn:E.
  - left. split; [now apply Qle_bool_iff | reflexivity].
  - right. split; [| reflexivity].
    apply Qnot_le_lt. intro H. apply Qle_bool_iff in H. congruence.
Qed.

Lemma py_min_Qmin (a b : Q) : Py.min a b == Qmin a b.
Proof.
  destruct (py_min_spec a b) as [[H ->] | [H ->]].
  - symmetry. now apply Q.min_l.
  - symmetry. apply Q.min_r. now apply Qlt_le_weak.
Qed.

Lemma py_max_Qmax (a b : Q) : Py.max a b == Qmax a b.
Proof.
  destruct (py_max_spec a b) as [[H ->] | [H ->]].
  - symmetry. now apply Q.max_l.
  - symmetry. apply Q.max_r. now apply Qlt_le_weak.
Qed.

(** On a non-negative float [int] is the floor. *)
Lemma py_int_floor (x : Q) : 0 <= x -> Py.int x = Qfloor x.
Proof.
  destruct x as [n d]. unfold Qle, Py.int, Qfloor. simpl. intro H.
  apply Z.quot_div_nonneg; lia.
Qed.

(** On a non-positive float it is the ceiling. *)
Lemma py_int_opp (x : Q) : Py.int (- x) = (- Py.int x)%Z.
Proof. destruct x as [n d]. unfold Py.int. simpl. apply Z.quot_opp_l. lia. Qed.

Lemma py_int_comp (x y : Q) : x == y -> Py.int x = Py.int y.
Proof.
  intro E. destruct (Qlt_le_dec x 0) as [N | P].
  - assert (Hx : 0 <= - x) by lra. assert (Hy : 0 <= - y) by lra.
    assert (F : Py.int (- x) = Py.int (- y)).
    { rewrite !py_int_floor by assumption. apply Qfloor_comp. now rewrite E. }
    rewrite !py_int_opp in F. lia.
  - rewrite !py_int_floor by lra. now apply Qfloor_comp.
Qed.

Lemma py_int_inject (z : Z) : Py.int (inject_Z z) = z.
Proof. unfold Py.int. simpl. apply Z.quot_1_r. Qed.

(** [int] is monotone. *)
Lemma py_int_le (x y : Q) : x <= y -> (Py.int x <= Py.int y)%Z.
Proof.
  intro L. destruct (Qlt_le_dec x 0) as [Nx | Px]; destruct (Qlt_le_dec y 0) as [Ny | Py'].
  - assert (F : (Py.int (- y) <= Py.int (- x))%Z).
    { rewrite !py_int_floor by lra. apply Qfloor_resp_le. lra. }
    rewrite !py_int_opp in F. lia.
  - assert (F : (0 <= Py.int (- x))%Z).
    { rewrite py_int_floor by lra. change 0%Z with (Qfloor 0). apply Qfloor_resp_le. lra. }
    assert (G : (0 <= Py.int y)%Z).
    { rewrite py_int_floor by lra. change 0%Z with (Qfloor 0). apply Qfloor_resp_le. lra. }
    rewrite py_int_opp in F. lia.
  - lra.
  - rewrite !py_int_floor by lra. now apply Qfloor_resp_le.
Qed.

End PyFacts.

(** ** Rounding to a double *)

Section DoubleFacts.

Local Open Scope Q_scope.

Import Double.

Lemma rne_comp (q q' : Q) : q == q' -> rne q = rne q'.
Proof.
  intro E. unfold rne. rewrite (Qfloor_comp _ _ E).
  assert (C : Qcompare (q - inject_Z (Qfloor q')) (1 # 2)
            = Qcompare (q' - inject_Z (Qfloor q')) (1 # 2)).
  { apply Qcompare_comp; [rewrite E|]; reflexivity. }
  rewrite C. reflexivity.
Qed.

Lemma rne_bounds (q : Q) :
  inject_Z (rne q) - (1 # 2) <= q <= inject_Z (rne q) + (1 # 2).
Proof.
  unfold rne. pose proof (Qfloor_le q) as L. pose proof (Qlt_floor q) as U.
  rewrite inject_Z_plus in U. change (inject_Z 1) with 1 in U.
  destruct (Qcompare_spec (q - inject_Z (Qfloor q)) (1 # 2)) as [E | E | E].
  - destruct (Z.even (Qfloor q));
      rewrite ?inject_Z_plus; change (inject_Z 1) with 1; lra.
  - lra.
  - rewrite inject_Z_plus. change (inject_Z 1) with 1. lra.
Qed.

Lemma rne_Z (z : Z) : rne (inject_Z z) = z.
Proof.
  unfold rne. rewrite Qfloor_Z.
  assert (E : Qcompare (inject_Z z - inject_Z z) (1 # 2) = Lt).
  { apply Qlt_alt. setoid_replace (inject_Z z - inject_Z z) with 0 by ring. reflexivity. }
  rewrite E. reflexivity.
Qed.

Lemma rne_mono (q q' : Q) : q <= q' -> (rne q <= rne q')%Z.
Proof.
  intro H. destruct (Z_le_gt_dec (rne q) (rne q')) as [L | G]; [assumption | exfalso].
  destruct (rne_bounds q) as [A _]. destruct (rne_bounds q') as [_ B].
  assert (S : inject_Z (rne q' + 1) <= inject_Z (rne q)) by (rewrite <- Zle_Qle; lia).
  rewrite inject_Z_plus in S. change (inject_Z 1) with 1 in S.
  assert (E : q == q') by lra.
  apply rne_comp in E. lia.
Qed.

Lemma pow2_pos (e : Z) : 0 < 2 ^ e.
Proof. apply Qpower_0_lt. reflexivity. Qed.

Lemma pow2_succ (e : Z) : 2 ^ (e + 1) == 2 * 2 ^ e.
Proof. rewrite Qpower_plus by discriminate. change (2 ^ 1) with 2. ring. Qed.

Lemma pow2_Z (n : Z) : (0 <= n)%Z -> inject_Z (2 ^ n) == 2 ^ n.
Proof. intro H. apply (Zpower_Qpower 2 n H). Qed.

Lemma binade_spec (x : Q) : 0 < x -> 2 ^ binade x <= x < 2 ^ (binade x + 1).
Proof.
  intro P. destruct x as [n d]. unfold binade. cbn [Qnum Qden].
  assert (Pn : (0 < n)%Z) by (unfold Qlt in P; cbn in P; lia).
  destruct (Z.log2_spec n Pn) as [A1 A2].
  destruct (Z.log2_spec (Z.pos d) (Pos2Z.is_pos d)) as [B1 B2].
  pose proof (Z.log2_nonneg n) as Na. pose proof (Z.log2_nonneg (Z.pos d)) as Nb.
  set (a := Z.log2 n) in *. set (b := Z.log2 (Z.pos d)) in *.
  rewrite Zle_Qle, pow2_Z in A1, B1 by assumption.
  rewrite Zlt_Qlt, pow2_Z in A2, B2 by lia.
  unfold Z.succ in A2, B2. rewrite pow2_succ in A2, B2.
  pose proof (pow2_pos a) as Pa. pose proof (pow2_pos b) as Pb.
  assert (X : n # d == inject_Z n / inject_Z (Z.pos d)) by apply Qmake_Qdiv.
  assert (E0 : 2 ^ (a - b) == 2 ^ a / 2 ^ b) by (apply Qpower_minus; discriminate).
  assert (Pd : 0 < inject_Z (Z.pos d)) by lra.
  destruct (Qle_bool (2 ^ (a - b)) (n # d)) eqn:T.
  - apply Qle_bool_iff in T. split; [assumption|].
    rewrite pow2_succ, E0, X.
    apply Qlt_shift_div_r; [assumption|].
    assert (G : 2 * (2 ^ a / 2 ^ b) * inject_Z (Z.pos d)
                == (2 * 2 ^ a) * (inject_Z (Z.pos d) / 2 ^ b)) by (field; lra).
    rewrite G.
    assert (1 <= inject_Z (Z.pos d) / 2 ^ b) by (apply Qle_shift_div_l; lra).
    nra.
  - assert (T' : n # d < 2 ^ (a - b)).
    { apply Qnot_le_lt. intro C. apply Qle_bool_iff in C. congruence. }
    replace (a - b - 1 + 1)%Z with (a - b)%Z by lia. split; [|assumption].
    assert (E1 : 2 ^ (a - b - 1) == 2 ^ a / (2 * 2 ^ b)).
    { replace (a - b - 1)%Z with (a - (b + 1))%Z by lia.
      rewrite Qpower_minus by discriminate. rewrite pow2_succ. reflexivity. }
    rewrite E1, X.
    apply Qle_shift_div_l; [assumption|].
    assert (G : 2 ^ a / (2 * 2 ^ b) * inject_Z (Z.pos d)
                == 2 ^ a * (inject_Z (Z.pos d) / (2 * 2 ^ b))) by (field; lra).
    rewrite G.
    assert (inject_Z (Z.pos d) / (2 * 2 ^ b) <= 1) by (apply Qle_shift_div_r; lra).
    nra.
Qed.

Lemma pow2_lt_inv (e e' : Z) : 2 ^ e < 2 ^ e' -> (e < e')%Z.
Proof. intro H. apply (Qpower_lt_compat_l_inv 2); [assumption | reflexivity]. Qed.

Lemma pow2_le (e e' : Z) : (e <= e')%Z -> 2 ^ e <= 2 ^ e'.
Proof. intro H. apply Qpower_le_compat_l; [assumption | discriminate]. Qed.

Lemma binade_unique (x : Q) (e : Z) :
  2 ^ e <= x < 2 ^ (e + 1) -> binade x = e.
Proof.
  intros [L U].
  assert (P : 0 < x) by (pose proof (pow2_pos e); lra).
  destruct (binade_spec x P) as [L' U'].
  assert (e < binade x + 1)%Z by (apply pow2_lt_inv; lra).
  assert (binade x < e + 1)%Z by (apply pow2_lt_inv; lra).
  lia.
Qed.

Lemma binade_comp (x y : Q) : 0 < x -> x == y -> binade x = binade y.
Proof.
  intros P E. symmetry. apply binade_unique. rewrite <- E. now apply binade_spec.
Qed.

Lemma ulp_pos (x : Q) : 0 < ulp x.
Proof. apply pow2_pos. Qed.

Lemma ulp_binade (x : Q) : 2 ^ binade x == 2 ^ 52 * ulp x.
Proof.
  unfold ulp. rewrite <- Qpower_plus by discriminate.
  replace (52 + (binade x - 52))%Z with (binade x) by lia. reflexivity.
Qed.

(** The significand of a positive number lies between [2^52] and [2^53]. *)
Lemma significand_range (x : Q) :
  0 < x -> (2 ^ 52 <= rne (x / ulp x) <= 2 ^ 53)%Z.
Proof.
  intro P. destruct (binade_spec x P) as [L U].
  rewrite pow2_succ, ulp_binade in U. rewrite ulp_binade in L.
  pose proof (ulp_pos x) as Pu.
  split.
  - rewrite <- (rne_Z (2 ^ 52)). apply rne_mono.
    apply Qle_shift_div_l; [assumption|]. rewrite pow2_Z by lia. exact L.
  - rewrite <- (rne_Z (2 ^ 53)). apply rne_mono.
    apply Qle_shift_div_r; [assumption|]. rewrite pow2_Z by lia.
    change (2 ^ 53) with (2 * 2 ^ 52). lra.
Qed.

Lemma round_pos_eq (x : Q) : round_pos x == inject_Z (rne (x / ulp x)) * ulp x.
Proof. apply Qred_correct. Qed.

Lemma round_pos_positive (x : Q) : 0 < x -> 0 < round_pos x.
Proof.
  intro P. rewrite round_pos_eq. pose proof (ulp_pos x).
  destruct (significand_range x P) as [L _].
  rewrite Zle_Qle in L. change (inject_Z (2 ^ 52)) with 4503599627370496 in L.
  nra.
Qed.

Lemma round_pos_comp (x y : Q) : 0 < x -> x == y -> round_pos x = round_pos y.
Proof.
  intros P E. unfold round_pos, ulp. rewrite (binade_comp x y P E).
  apply Qred_complete.
  rewrite (rne_comp (x / 2 ^ (binade y - 52)) (y / 2 ^ (binade y - 52))); [reflexivity|].
  rewrite E. reflexivity.
Qed.

Lemma round_pos_mono (x y : Q) : 0 < x -> x <= y -> round_pos x <= round_pos y.
Proof.
  intros P H. assert (Py : 0 < y) by lra.
  destruct (binade_spec x P) as [Lx Ux]. destruct (binade_spec y Py) as [Ly Uy].
  assert (B : (binade x <= binade y)%Z).
  { assert (binade x < binade y + 1)%Z by (apply pow2_lt_inv; lra). lia. }
  rewrite !round_pos_eq.
  destruct (Z.eq_dec (binade x) (binade y)) as [E | N].
  - unfold ulp. rewrite E. pose proof (pow2_pos (binade y - 52)) as Pu.
    assert (M : (rne (x / 2 ^ (binade y - 52)) <= rne (y / 2 ^ (binade y - 52)))%Z).
    { apply rne_mono. apply Qmult_le_compat_r; [assumption|].
      apply Qlt_le_weak, Qinv_lt_0_compat, Pu. }
    rewrite Zle_Qle in M. nra.
  - destruct (significand_range x P) as [_ Sx]. destruct (significand_range y Py) as [Sy _].
    rewrite Zle_Qle in Sx, Sy.
    change (inject_Z (2 ^ 53)) with (2 * 2 ^ 52) in Sx.
    change (inject_Z (2 ^ 52)) with (2 ^ 52) in Sy.
    pose proof (ulp_pos x) as Pux. pose proof (ulp_pos y) as Puy.
    assert (S : 2 ^ (binade x + 1) <= 2 ^ binade y) by (apply pow2_le; lia).
    rewrite pow2_succ, !ulp_binade in S.
    apply Qle_trans with (2 * 2 ^ 52 * ulp x); [|apply Qle_trans with (2 ^ 52 * ulp y)].
    + apply Qmult_le_compat_r; [assumption | lra].
    + lra.
    + apply Qmult_le_compat_r; [assumption | lra].
Qed.

(** The three cases of [round]. *)
Lemma round_cases (x : Q) :
  (x == 0 /\ round x = 0) \/
  (0 < x /\ round x = round_pos x) \/
  (x < 0 /\ round x = - round_pos (- x)).
Proof.
  destruct x as [[|p|p] d]; unfold round; cbn [Qnum].
  - left. split; reflexivity.
  - right. left. split; reflexivity.
  - right. right. split; reflexivity.
Qed.

Lemma round_comp (x y : Q) : x == y -> round x = round y.
Proof.
  intro E.
  destruct (round_cases x) as [[X ->] | [[X ->] | [X ->]]];
    destruct (round_cases y) as [[Y ->] | [[Y ->] | [Y ->]]]; try lra.
  - reflexivity.
  - now apply round_pos_comp.
  - f_equal. apply round_pos_comp; [lra | rewrite E; reflexivity].
Qed.

(** Rounding is monotone. *)
Lemma round_mono (x y : Q) : x <= y -> round x <= round y.
Proof.
  intro H.
  destruct (round_cases x) as [[X ->] | [[X ->] | [X ->]]];
    destruct (round_cases y) as [[Y ->] | [[Y ->] | [Y ->]]]; try lra.
  - apply Qlt_le_weak, round_pos_positive, Y.
  - now apply round_pos_mono.
  - assert (0 < round_pos (- x)) by (apply round_pos_positive; lra). lra.
  - assert (0 < round_pos (- x)) by (apply round_pos_positive; lra).
    assert (0 < round_pos y) by (apply round_pos_positive; lra). lra.
  - assert (round_pos (- y) <= round_pos (- x)) by (apply round_pos_mono; lra). lra.
Qed.

Lemma round_opp (x : Q) : round (- x) == - round x.
Proof.
  destruct (round_cases x) as [[X ->] | [[X ->] | [X ->]]];
    destruct (round_cases (- x)) as [[Y ->] | [[Y ->] | [Y ->]]]; try lra.
  rewrite (round_pos_comp (- - x) x); [reflexivity | lra | ring].
Qed.

Lemma round_pos_error (x : Q) :
  0 < x -> x * (1 - eps) <= round_pos x <= x * (1 + eps).
Proof.
  intro P. rewrite round_pos_eq.
  pose proof (ulp_pos x) as Pu.
  destruct (rne_bounds (x / ulp x)) as [A B].
  destruct (binade_spec x P) as [L _]. rewrite ulp_binade in L.
  assert (T : x / ulp x * ulp x == x) by (field; lra).
  set (n := inject_Z (rne (x / ulp x))) in *. set (t := x / ulp x) in *.
  assert (H1 : (n - (1 # 2)) * ulp x <= t * ulp x) by (apply Qmult_le_compat_r; lra).
  assert (H2 : t * ulp x <= (n + (1 # 2)) * ulp x) by (apply Qmult_le_compat_r; lra).
  rewrite T in H1, H2.
  change (2 ^ 52) with 4503599627370496 in L.
  unfold eps. change (1 # 2 ^ 53) with (1 # 9007199254740992).
  split; lra.
Qed.

(** The relative error of one rounding is at most [2^-53]. *)
Lemma round_error (x : Q) : Qabs (round x - x) <= Qabs x * eps.
Proof.
  destruct (round_cases x) as [[X ->] | [[X ->] | [X ->]]].
  - rewrite X. cbn. discriminate.
  - destruct (round_pos_error x X) as [A B].
    rewrite (Qabs_pos x) by lra. apply Qabs_Qle_condition. split; lra.
  - assert (X' : 0 < - x) by lra.
    destruct (round_pos_error (- x) X') as [A B].
    rewrite (Qabs_neg x) by lra. apply Qabs_Qle_condition. split; lra.
Qed.

(** A positive number that is a whole number of its own [ulp] is a
    double. *)
Lemma round_pos_exact (x : Q) (m : Z) :
  0 < x -> x == inject_Z m * ulp x -> round_pos x == x.
Proof.
  intros P E. rewrite round_pos_eq. pose proof (ulp_pos x) as Pu.
  assert (T : x / ulp x == inject_Z m).
  { rewrite E at 1. field. lra. }
  rewrite (rne_comp _ _ T), rne_Z. symmetry. exact E.
Qed.

Lemma round_pos_idem (y : Q) : 0 < y -> round_pos (round_pos y) == round_pos y.
Proof.
  intros P. pose proof (round_pos_positive y P) as P'.
  pose proof (ulp_pos y) as Pu.
  destruct (significand_range y P) as [S1 S2].
  destruct (Z.eq_dec (rne (y / ulp y)) (2 ^ 53)) as [E | N].
  - assert (Y : round_pos y == 2 ^ (binade y + 1)).
    { rewrite round_pos_eq, E, pow2_succ, ulp_binade.
      change (inject_Z (2 ^ 53)) with (2 * 2 ^ 52). ring. }
    assert (B : binade (round_pos y) = (binade y + 1)%Z).
    { apply binade_unique. rewrite Y. split; [lra|].
      rewrite (pow2_succ (binade y + 1)). pose proof (pow2_pos (binade y + 1)). lra. }
    apply (round_pos_exact _ (2 ^ 52) P').
    unfold ulp at 1. rewrite B, Y.
    replace (binade y + 1 - 52)%Z with ((binade y - 52) + 1)%Z by lia.
    rewrite !pow2_succ, ulp_binade. unfold ulp.
    change (inject_Z (2 ^ 52)) with (2 ^ 52). ring.
  - assert (S3 : (rne (y / ulp y) + 1 <= 2 ^ 53)%Z) by lia.
    rewrite Zle_Qle in S1, S3. rewrite inject_Z_plus in S3.
    change (inject_Z 1) with 1 in S3.
    change (inject_Z (2 ^ 53)) with (2 * 2 ^ 52) in S3.
    change (inject_Z (2 ^ 52)) with (2 ^ 52) in S1.
    assert (B : binade (round_pos y) = binade y).
    { apply binade_unique. rewrite pow2_succ, ulp_binade, round_pos_eq.
      split; [apply Qmult_le_compat_r; lra|].
      assert (inject_Z (rne (y / ulp y)) * ulp y < 2 * 2 ^ 52 * ulp y)
        by (apply Qmult_lt_compat_r; lra).
      lra. }
    apply (round_pos_exact _ (rne (y / ulp y)) P').
    unfold ulp at 2. rewrite B. apply round_pos_eq.
Qed.

(** Doubles round to themselves. *)
Lemma round_idem (x : Q) : round (round x) == round x.
Proof.
  destruct (round_cases x) as [[X E] | [[X E] | [X E]]]; rewrite E.
  - reflexivity.
  - pose proof (round_pos_positive x X) as P'.
    destruct (round_cases (round_pos x)) as [[Y ->] | [[Y ->] | [Y ->]]]; try lra.
    now apply round_pos_idem.
  - assert (X' : 0 < - x) by lra.
    pose proof (round_pos_positive (- x) X') as P'.
    rewrite round_opp.
    destruct (round_cases (round_pos (- x))) as [[Y ->] | [[Y ->] | [Y ->]]]; try lra.
    rewrite round_pos_idem by assumption. reflexivity.
Qed.

(** Integers of at most 53 bits are doubles. *)
Lemma round_int_exact (z : Z) :
  (Z.abs z <= 2 ^ 53)%Z -> round (inject_Z z) == inject_Z z.
Proof.
  assert (K : forall n, (0 < n <= 2 ^ 53)%Z -> round_pos (inject_Z n) == inject_Z n).
  { intros n [L U]. assert (P : 0 < inject_Z n) by (rewrite (Zlt_Qlt 0 n) in L; exact L).
    destruct (binade_spec _ P) as [B1 B2].
    rewrite Zle_Qle in U. change (inject_Z (2 ^ 53)) with (2 ^ 53) in U.
    assert (B : (binade (inject_Z n) <= 53)%Z).
    { assert (binade (inject_Z n) < 54)%Z; [|lia].
      apply pow2_lt_inv. change (2 ^ 54) with (2 * 2 ^ 53).
      pose proof (pow2_pos 53). lra. }
    destruct (Z.eq_dec (binade (inject_Z n)) 53) as [E | N].
    - apply (round_pos_exact _ (2 ^ 52) P). unfold ulp. rewrite E in *.
      change (2 ^ (53 - 52)) with 2. change (inject_Z (2 ^ 52) * 2) with (2 ^ 53). lra.
    - apply (round_pos_exact _ (n * 2 ^ (52 - binade (inject_Z n))) P).
      unfold ulp. rewrite inject_Z_mult, pow2_Z by lia.
      rewrite <- Qmult_assoc, <- Qpower_plus by discriminate.
      replace (52 - binade (inject_Z n) + (binade (inject_Z n) - 52))%Z with 0%Z by lia.
      change (2 ^ 0) with 1. ring. }
  intro H. destruct (Z.compare_spec z 0) as [E | L | G].
  - subst z. reflexivity.
  - assert (E : inject_Z z == - inject_Z (- z)).
    { rewrite inject_Z_opp. ring. }
    rewrite (round_comp _ _ E), round_opp.
    assert (N : 0 < inject_Z (- z)) by (change (inject_Z 0 < inject_Z (- z)); rewrite <- Zlt_Qlt; lia).
    destruct (round_cases (inject_Z (- z))) as [[Y ->] | [[Y ->] | [Y ->]]]; try lra.
    rewrite K by lia. symmetry. exact E.
  - assert (N : 0 < inject_Z z) by (change (inject_Z 0 < inject_Z z); rewrite <- Zlt_Qlt; lia).
    destruct (round_cases (inject_Z z)) as [[Y ->] | [[Y ->] | [Y ->]]]; try lra.
    apply K. lia.
Qed.


(** A double below [x] is below the rounded [x], and one above is
    above. *)
Lemma round_ge_double (lo x : Q) : round lo == lo -> lo <= x -> lo <= round x.
Proof. intros E L. rewrite <- E. now apply round_mono. Qed.

Lemma round_le_double (hi x : Q) : round hi == hi -> x <= hi -> round x <= hi.
Proof. intros E L. rewrite <- E. now apply round_mono. Qed.

Lemma round_nonneg (x : Q) : 0 <= x -> 0 <= round x.
Proof. intro L. apply round_ge_double; [reflexivity | exact L]. Qed.

End DoubleFacts.

(** ** The adaptive state *)

Section Adaptive.

Import Generator.
Local Open Scope Q_scope.

Variable cfg : PriceConfig.

(** The failure counter never goes below zero. *)
Lemma failed_attempts_nonneg (s : AdaptiveState) :
  reachable cfg s -> (0 <= failed_attempts s)%Z.
Proof.
  induction 1 as [| s t R IH]; [simpl; lia |].
  destruct t; simpl.
  - unfold adjust_batch_size_on_failure.
    destruct (4 <=? failed_attempts s + 1)%Z; [simpl; lia |].
    destruct (2 <=? failed_attempts s + 1)%Z; simpl; lia.
  - unfold reset_adaptive_params_on_success.
    destruct (0 <? failed_attempts s)%Z eqn:P;
      match goal with |- context [if ?c then _ else _] => destruct c end; simpl; lia.
  - exact IH.
Qed.

(** The literals of the transitions, as doubles. *)
Lemma literal_bounds :
  1 <= Double.round (12 # 10) /\ 1 <= Double.round (13 # 10) /\
  0 <= Double.round (95 # 100) <= 1.
Proof. repeat split; vm_compute; discriminate. Qed.

(** A multiplier raised by a factor of at least 1 and capped at 2.0
    stays within [1, 2]. *)
Lemma raised_multiplier_bounds (g c : Q) :
  1 <= g <= 2 -> 1 <= c -> 1 <= Py.min 2 (Double.mul g c) <= 2.
Proof.
  intros G C. unfold Double.mul.
  destruct (py_min_spec 2 (Double.round (g * c))) as [[L ->] | [L ->]]; [lra |].
  split; [| lra]. apply round_ge_double; [reflexivity |]. nra.
Qed.

(** The gas multiplier stays within [1, 2]. *)
Lemma gas_multiplier_bounds (s : AdaptiveState) :
  reachable cfg s -> 1 <= adaptive_gas_multiplier s <= 2.
Proof.
  induction 1 as [| s t R IH]; [simpl; lra |].
  destruct t; simpl.
  - unfold adjust_batch_size_on_failure.
    destruct (4 <=? failed_attempts s + 1)%Z; [simpl; lra |].
    destruct (2 <=? failed_attempts s + 1)%Z; cbn [adaptive_gas_multiplier]; [| exact IH].
    apply raised_multiplier_bounds; [exact IH | apply literal_bounds].
  - unfold reset_adaptive_params_on_success.
    match goal with |- context [(?c =? 0)%Z] => destruct (c =? 0)%Z end;
      cbn [adaptive_gas_multiplier]; [| exact IH].
    unfold Double.mul.
    match goal with |- context [Py.max 1 ?x] =>
      destruct (py_max_spec 1 x) as [[L ->] | [L ->]] end; [lra |].
    split; [lra |]. apply round_le_double; [reflexivity |].
    pose proof literal_bounds as [_ [_ C]]. nra.
  - cbn [adaptive_gas_multiplier].
    apply raised_multiplier_bounds; [exact IH | apply literal_bounds].
Qed.

(** The gas multiplier is a double. *)
Lemma gas_multiplier_is_double (s : AdaptiveState) :
  reachable cfg s -> Double.round (adaptive_gas_multiplier s) == adaptive_gas_multiplier s.
Proof.
  induction 1 as [| s t R IH]; [reflexivity |].
  destruct t; simpl.
  - unfold adjust_batch_size_on_failure.
    destruct (4 <=? failed_attempts s + 1)%Z; [reflexivity |].
    destruct (2 <=? failed_attempts s + 1)%Z; cbn [adaptive_gas_multiplier]; [| exact IH].
    unfold Double.mul.
    match goal with |- context [Py.min 2 ?x] =>
      destruct (py_min_spec 2 x) as [[L ->] | [L ->]] end;
      [reflexivity | apply round_idem].
  - unfold reset_adaptive_params_on_success.
    match goal with |- context [(?c =? 0)%Z] => destruct (c =? 0)%Z end;
      cbn [adaptive_gas_multiplier]; [| exact IH].
    unfold Double.mul.
    match goal with |- context [Py.max 1 ?x] =>
      destruct (py_max_spec 1 x) as [[L ->] | [L ->]] end;
      [reflexivity | apply round_idem].
  - cbn [adaptive_gas_multiplier]. unfold Double.mul.
    match goal with |- context [Py.min 2 ?x] =>
      destruct (py_min_spec 2 x) as [[L ->] | [L ->]] end;
      [reflexivity | apply round_idem].
Qed.

(** A success never lowers the batch size. *)
Lemma success_batch_size_monotone (s : AdaptiveState) :
  (current_batch_size s <= current_batch_size (reset_adaptive_params_on_success cfg s))%Z.
Proof.
  unfold reset_adaptive_params_on_success.
  match goal with |- context [(?c =? 0)%Z] => destruct (c =? 0)%Z end; simpl; [| lia].
  destruct (current_batch_size s <? max_batch_size cfg)%Z eqn:L; [| lia].
  apply Z.ltb_lt in L. lia.
Qed.

(** The batch size stays within [1, max_batch_size] when the configured
    maximum is at least the initial size. *)
Lemma batch_size_bounds (s : AdaptiveState) :
  (6 <= max_batch_size cfg)%Z -> reachable cfg s ->
  (1 <= current_batch_size s <= max_batch_size cfg)%Z.
Proof.
  intros M R. induction R as [| s t R IH]; [simpl; lia |].
  destruct t; simpl.
  - unfold adjust_batch_size_on_failure.
    destruct (4 <=? failed_attempts s + 1)%Z; [simpl; lia |].
    destruct (2 <=? failed_attempts s + 1)%Z; simpl; lia.
  - unfold reset_adaptive_params_on_success.
    match goal with |- context [(?c =? 0)%Z] => destruct (c =? 0)%Z end; simpl; [| lia].
    destruct (current_batch_size s <? max_batch_size cfg)%Z eqn:L; lia.
  - exact IH.
Qed.

(** C1.  Full degradation: in every state reachable from the initial
    one by failures, successes and out-of-gas adjustments, a failure
    counter of 4 or more comes with batch size 1 and gas multiplier 2.0. *)
Theorem full_degradation_invariant (s : AdaptiveState) :
  reachable cfg s ->
  (4 <= failed_attempts s)%Z ->
  current_batch_size s = 1%Z /\ adaptive_gas_multiplier s = 2.
Proof.
  induction 1 as [| s t R IH]; [simpl; lia |].
  destruct t; simpl.
  - unfold adjust_batch_size_on_failure.
    destruct (4 <=? failed_attempts s + 1)%Z eqn:F; [simpl; auto |].
    apply Z.leb_gt in F.
    destruct (2 <=? failed_attempts s + 1)%Z; simpl; lia.
  - unfold reset_adaptive_params_on_success.
    destruct (0 <? failed_attempts s)%Z eqn:P.
    + destruct (Z.max 0 (failed_attempts s - 1) =? 0)%Z eqn:E; simpl.
      * apply Z.eqb_eq in E. lia.
      * intro H. apply IH. lia.
    + apply Z.ltb_ge in P.
      destruct (failed_attempts s =? 0)%Z; simpl; lia.
  - intro H. destruct (IH H) as [B G]. split; [exact B |]. rewrite G. reflexivity.
Qed.

End Adaptive.

(** C1, at the state after four failures. *)
Lemma full_degradation_invariant_witness :
  Generator.reachable Generator.default_config Scenario.four_failures /\
  (4 <= Generator.failed_attempts Scenario.four_failures)%Z /\
  Generator.current_batch_size Scenario.four_failures = 1%Z /\
  Generator.adaptive_gas_multiplier Scenario.four_failures = 2%Q.
Proof.
  assert (R : Generator.reachable Generator.default_config Scenario.four_failures).
  { unfold Scenario.four_failures, Generator.run. simpl fold_left.
    repeat apply (Generator.reach_step _ _ Generator.OnFailure). apply Generator.reach_init. }
  assert (F : (4 <= Generator.failed_attempts Scenario.four_failures)%Z).
  { vm_compute. discriminate. }
  split; [exact R |]. split; [exact F |].
  exact (full_degradation_invariant Generator.default_config _ R F).
Defined.

(** C4, where it fails.  After four failures and three successes the
    state has one recorded failure and batch size 1; the next failure
    brings the counter to 2 and sets the batch size to [max(2, 1 - 1)],
    which is 2: a failure step that raises the batch size. *)
Theorem failure_raises_batch_size :
  let s := Generator.run Generator.default_config Generator.initial_state
             Scenario.degrade_and_recover in
  Generator.failed_attempts s = 1%Z /\
  Generator.current_batch_size s = 1%Z /\
  Generator.current_batch_size (Generator.adjust_batch_size_on_failure s) = 2%Z.
Proof. vm_compute. auto. Qed.

(** ** Accumulated rounding *)

Section Accumulated.

Local Open Scope Q_scope.

Import Double.

Lemma eps_range : 0 < eps < 1.
Proof. split; reflexivity. Qed.

Lemma pow_pos (b : Q) (k : nat) : 0 < b -> 0 < pow b k.
Proof. intro P. induction k as [| k IH]; cbn [pow]; [reflexivity | nra]. Qed.

Lemma pow_le_1 (b : Q) (k : nat) : 0 < b <= 1 -> pow b k <= 1.
Proof.
  intro P. induction k as [| k IH]; cbn [pow]; [discriminate |].
  pose proof (pow_pos b k (proj1 P)). nra.
Qed.

Lemma pow_ge_1 (b : Q) (k : nat) : 1 <= b -> 1 <= pow b k.
Proof. intro P. induction k as [| k IH]; cbn [pow]; [discriminate | nra]. Qed.

Lemma pow_add (b : Q) (j k : nat) : pow b (j + k) == pow b j * pow b k.
Proof.
  induction j as [| j IH]; cbn [pow Nat.add]; [ring | rewrite IH; ring].
Qed.

Lemma within_exact (y : Q) : 0 <= y -> within 0 y y.
Proof. intro P. unfold within. cbn [pow]. lra. Qed.

Lemma within_nonneg (k : nat) (x y : Q) : within k x y -> 0 <= x.
Proof.
  intros [P [L _]]. pose proof eps_range.
  assert (0 < pow (1 - eps) k) by (apply pow_pos; lra). nra.
Qed.

Lemma within_comp (k : nat) (x y y' : Q) : y == y' -> within k x y -> within k x y'.
Proof. intros E [P [L U]]. unfold within. rewrite <- E. auto. Qed.

(** One more rounding. *)
Lemma within_round (k : nat) (x y : Q) : within k x y -> within (S k) (round x) y.
Proof.
  intro W. pose proof (within_nonneg k x y W) as X. destruct W as [P [L U]].
  pose proof eps_range as E.
  pose proof (round_error x) as R. rewrite (Qabs_pos x X) in R.
  apply Qabs_Qle_condition in R. destruct R as [R1 R2].
  assert (0 < pow (1 - eps) k) by (apply pow_pos; lra).
  assert (0 < pow (1 + eps) k) by (apply pow_pos; lra).
  unfold within. cbn [pow]. split; [exact P |]. split.
  - apply Qle_trans with (x * (1 - eps)); [nra | lra].
  - apply Qle_trans with (x * (1 + eps)); [lra | nra].
Qed.

Lemma within_mul (j k : nat) (x y x' y' : Q) :
  within j x y -> within k x' y' -> within (j + k) (x * x') (y * y').
Proof.
  intros W W'. pose proof (within_nonneg _ _ _ W) as X.
  pose proof (within_nonneg _ _ _ W') as X'.
  destruct W as [P [L U]]. destruct W' as [P' [L' U']].
  pose proof eps_range as E.
  assert (0 < pow (1 - eps) j) by (apply pow_pos; lra).
  assert (0 < pow (1 - eps) k) by (apply pow_pos; lra).
  unfold within. rewrite !pow_add. split; [nra |]. split.
  - apply Qle_trans with (y * pow (1 - eps) j * x').
    + setoid_replace (y * y' * (pow (1 - eps) j * pow (1 - eps) k))
        with (y * pow (1 - eps) j * (y' * pow (1 - eps) k)) by ring.
      rewrite !(Qmult_comm (y * pow (1 - eps) j)).
      apply Qmult_le_compat_r; [exact L' | nra].
    + apply Qmult_le_compat_r; assumption.
  - apply Qle_trans with (y * pow (1 + eps) j * x').
    + apply Qmult_le_compat_r; assumption.
    + setoid_replace (y * y' * (pow (1 + eps) j * pow (1 + eps) k))
        with (y * pow (1 + eps) j * (y' * pow (1 + eps) k)) by ring.
      assert (0 < pow (1 + eps) j) by (apply pow_pos; lra).
      rewrite !(Qmult_comm (y * pow (1 + eps) j)).
      apply Qmult_le_compat_r; [exact U' | nra].
Qed.

Lemma within_add (c : Q) (k : nat) (x y : Q) :
  0 <= c -> within k x y -> within k (c + x) (c + y).
Proof.
  intros C [P [L U]]. pose proof eps_range as E.
  assert (pow (1 - eps) k <= 1) by (apply pow_le_1; lra).
  assert (1 <= pow (1 + eps) k) by (apply pow_ge_1; lra).
  unfold within. split; [lra |]. split; nra.
Qed.

(** The conversion of a non-negative [int]. *)
Lemma within_of_int (n : Z) : (0 <= n)%Z -> within 1 (of_int n) (inject_Z n).
Proof.
  intro P. apply within_round, within_exact.
  change 0 with (inject_Z 0). rewrite <- Zle_Qle. exact P.
Qed.

(** A float literal. *)
Lemma within_literal (c : Q) : 0 <= c -> within 1 (round c) c.
Proof. intro P. now apply within_round, within_exact. Qed.

(** Below the floor of a number less than one away. *)
Lemma floor_close (x y : Q) : x <= y + 1 -> (Qfloor x <= Qfloor y + 1)%Z.
Proof.
  intro H. pose proof (Qfloor_le x) as A. pose proof (Qlt_floor y) as B.
  rewrite inject_Z_plus in B. change (inject_Z 1) with 1 in B.
  assert (C : inject_Z (Qfloor x) < inject_Z (Qfloor y + 2)).
  { rewrite inject_Z_plus. change (inject_Z 2) with 2. lra. }
  rewrite <- Zlt_Qlt in C. lia.
Qed.

End Accumulated.

(** ** Gas estimation *)

Section Gas.

Import Generator.
Local Open Scope Q_scope.

Lemma product_as_fraction (b a f : Z) :
  inject_Z b * (1 + inject_Z a * (2 # 10)) * (1 + inject_Z f * (1 # 10))
  == (b * (5 + a) * (10 + f))%Z # 50.
Proof.
  rewrite (Qmake_Qdiv (b * (5 + a) * (10 + f)) 50), !inject_Z_mult, !inject_Z_plus. field.
Qed.

(** A multiplier [1.0 + n * c] is four roundings away from its exact
    value: the conversion of [n], the literal, the product, the sum. *)
Lemma multiplier_within (n : Z) (c : Q) :
  (0 <= n)%Z -> 0 <= c ->
  Double.within 4 (Double.add 1 (Double.mul (Double.of_int n) (Double.round c)))
    (1 + inject_Z n * c).
Proof.
  intros N C. unfold Double.add, Double.mul.
  apply within_round, within_add; [discriminate |].
  apply within_round.
  apply (within_mul 1 1); [now apply within_of_int | now apply within_literal].
Qed.

(** The product of [get_smart_gas_limit] is eleven roundings away from
    the exact one. *)
Lemma smart_product_within (b a f : Z) :
  (0 <= b)%Z -> (0 <= a)%Z -> (0 <= f)%Z ->
  Double.within 11
    (Double.mul
       (Double.mul (Double.of_int b)
          (Double.add 1 (Double.mul (Double.of_int a) (Double.round (2 # 10)))))
       (Double.add 1 (Double.mul (Double.of_int f) (Double.round (1 # 10)))))
    (inject_Z b * (1 + inject_Z a * (2 # 10)) * (1 + inject_Z f * (1 # 10))).
Proof.
  intros B A F. unfold Double.mul at 1.
  apply within_round. apply (within_mul 6 4).
  - unfold Double.mul at 1. apply within_round. apply (within_mul 1 4).
    + now apply within_of_int.
    + apply multiplier_within; [exact A | discriminate].
  - apply multiplier_within; [exact F | discriminate].
Qed.

(** Eleven roundings move a number by less than [2^-49] of itself. *)
Lemma eleven_roundings :
  1 - (1 # 2 ^ 49) <= Double.pow (1 - Double.eps) 11 /\
  Double.pow (1 + Double.eps) 11 <= 1 + (1 # 2 ^ 49).
Proof. split; vm_compute; discriminate. Qed.

(** Truncated and capped at 8,000,000, such a product of a whole
    unrounded value is that value or the integer below it. *)
Lemma capped_one_below (x : Q) (n : Z) :
  Double.within 11 x (inject_Z n) ->
  (Z.min n 8000000 - 1 <= Z.min (Py.int x) 8000000 <= Z.min n 8000000)%Z.
Proof.
  intro W. pose proof (within_nonneg _ _ _ W) as X. destruct W as [P [L U]].
  destruct eleven_roundings as [E1 E2].
  rewrite (py_int_floor x X).
  change (1 # 2 ^ 49) with (1 # 562949953421312) in E1, E2.
  destruct (Z_lt_le_dec n 8000001) as [S | B].
  - assert (S' : inject_Z n <= 8000000).
    { change 8000000 with (inject_Z 8000000). rewrite <- Zle_Qle. lia. }
    assert (Lx : x <= inject_Z n + 1) by nra.
    assert (Ly : inject_Z n <= x + 1) by nra.
    pose proof (floor_close x (inject_Z n) Lx) as F1.
    pose proof (floor_close (inject_Z n) x Ly) as F2.
    rewrite Qfloor_Z in F1, F2.
    assert (F3 : (Qfloor x <= n)%Z).
    { assert (C : inject_Z (Qfloor x) < inject_Z (n + 1)).
      { pose proof (Qfloor_le x). rewrite inject_Z_plus. change (inject_Z 1) with 1. nra. }
      rewrite <- Zlt_Qlt in C. lia. }
    lia.
  - assert (B' : 8000001 <= inject_Z n).
    { change 8000001 with (inject_Z 8000001). rewrite <- Zle_Qle. exact B. }
    assert (Bx : 8000000 <= x) by nra.
    apply Qfloor_resp_le in Bx. change (Qfloor 8000000) with 8000000%Z in Bx.
    lia.
Qed.

Lemma base_gas_table (tokens_count : Z) :
  (base_gas tokens_count
   = if (tokens_count =? 1)%Z then 800000
     else if (tokens_count <=? 3)%Z then 2500000
     else 1500000 + 700000 * tokens_count)%Z.
Proof.
  unfold base_gas. destruct (tokens_count =? 1)%Z; [reflexivity |].
  destruct (tokens_count <=? 3)%Z; lia.
Qed.

Lemma base_gas_at_least (tokens_count : Z) :
  (1 <= tokens_count)%Z -> (800000 <= base_gas tokens_count)%Z.
Proof.
  intro C. unfold base_gas. destruct (tokens_count =? 1)%Z; [lia |].
  destruct (tokens_count <=? 3)%Z; lia.
Qed.

(** Every base cost is a multiple of 50, so the unrounded product is a
    whole number. *)
Lemma base_gas_fifties (tokens_count : Z) :
  exists k : Z, base_gas tokens_count = (50 * k)%Z.
Proof.
  unfold base_gas. destruct (tokens_count =? 1)%Z; [exists 16000%Z; reflexivity |].
  destruct (tokens_count <=? 3)%Z; [exists 50000%Z; reflexivity |].
  exists (30000 + tokens_count * 14000)%Z. lia.
Qed.

Lemma unrounded_product (b a f : Z) :
  (exists k : Z, b = (50 * k)%Z) ->
  inject_Z b * (1 + inject_Z a * (2 # 10)) * (1 + inject_Z f * (1 # 10))
  == inject_Z (b * (5 + a) * (10 + f) / 50).
Proof.
  intros [k ->]. rewrite product_as_fraction.
  replace (50 * k * (5 + a) * (10 + f))%Z with (k * (5 + a) * (10 + f) * 50)%Z by ring.
  rewrite Z.div_mul by lia.
  unfold Qeq, inject_Z. cbn [Qnum Qden]. lia.
Qed.

(** C2, as the code has it.  For at least one action, a non-negative
    attempt number and a reachable state, the gas limit is the base cost
    (800,000 for one action, 2,500,000 for two or three, 1,500,000 plus
    700,000 per action beyond that) times [1 + attempt * 0.2] times
    [1 + failed_attempts * 0.1], truncated, and capped at the constant
    8,000,000.  The multipliers and the product are doubles, so the
    result is that of the unrounded product or the integer below it.
    It is the same in every state with the same failure counter:
    neither the gas multiplier nor the configured maximum enters. *)
Theorem smart_gas_limit_formula (cfg : PriceConfig) (s : AdaptiveState)
    (tokens_count attempt : Z) :
  reachable cfg s ->
  (1 <= tokens_count)%Z ->
  (0 <= attempt)%Z ->
  let unrounded :=
    Z.min ((base_gas tokens_count * (5 + attempt) * (10 + failed_attempts s)) / 50) 8000000 in
  (unrounded - 1 <= get_smart_gas_limit s tokens_count attempt <= unrounded)%Z
  /\ (base_gas tokens_count
      = if (tokens_count =? 1)%Z then 800000
        else if (tokens_count <=? 3)%Z then 2500000
        else 1500000 + 700000 * tokens_count)%Z
  /\ (forall s' : AdaptiveState,
        failed_attempts s' = failed_attempts s ->
        get_smart_gas_limit s' tokens_count attempt
        = get_smart_gas_limit s tokens_count attempt).
Proof.
  intros R C A unrounded. split; [| split; [apply base_gas_table |]].
  - pose proof (failed_attempts_nonneg cfg s R) as F.
    pose proof (base_gas_at_least tokens_count C) as B.
    assert (W := smart_product_within (base_gas tokens_count) attempt (failed_attempts s)
                   ltac:(lia) A F).
    apply (within_comp _ _ _ _ (unrounded_product _ _ _ (base_gas_fifties tokens_count))) in W.
    apply capped_one_below in W. exact W.
  - intros s' E. unfold get_smart_gas_limit. rewrite E. reflexivity.
Qed.

(** The estimator that nothing calls is the one that stays under the
    configured maximum. *)
Lemma adaptive_gas_limit_capped (cfg : PriceConfig) (s : AdaptiveState) (num_tokens : Z) :
  (get_adaptive_gas_limit cfg s num_tokens <= max_gas_limit cfg)%Z.
Proof. unfold get_adaptive_gas_limit. apply Z.le_min_r. Qed.

(** The one in use goes past it: six tokens on a first attempt from the
    initial state get 5,700,000, with 1,500,000 configured. *)
Lemma smart_gas_limit_exceeds_configured :
  get_smart_gas_limit initial_state 6 0 = 5700000%Z /\
  max_gas_limit default_config = 1500000%Z.
Proof. split; reflexivity. Qed.

(** The rounding shows: six tokens on the third attempt from the
    initial state get 7,979,999, where the exact product is 7,980,000. *)
Lemma smart_gas_limit_rounds_down :
  get_smart_gas_limit initial_state 6 2 = 7979999%Z /\
  (base_gas 6 * (5 + 2) * (10 + 0) / 50 = 7980000)%Z.
Proof. split; reflexivity. Qed.

End Gas.

(** C2, at one action, first attempt, after one failure. *)
Lemma smart_gas_limit_formula_witness :
  Generator.reachable Generator.default_config Scenario.one_failure /\
  (1 <= 1)%Z /\ (0 <= 0)%Z /\
  (880000 - 1 <= Generator.get_smart_gas_limit Scenario.one_failure 1 0 <= 880000)%Z.
Proof.
  assert (R : Generator.reachable Generator.default_config Scenario.one_failure).
  { apply (Generator.reach_step _ _ Generator.OnFailure), Generator.reach_init. }
  split; [exact R |]. split; [lia |]. split; [lia |].
  exact (proj1 (smart_gas_limit_formula Generator.default_config Scenario.one_failure 1 0
                  R ltac:(lia) ltac:(lia))).
Defined.

(** C2 as worded does not hold.  Whatever the base cost, the worded
    formula gives the same limit before and after a first failure (the
    gas multiplier is 1.0 in both states), while the code gives 800,000
    and 880,000 for one action on its first attempt. *)
Lemma gas_limit_not_as_specified :
  ~ exists base : Z -> Q,
      forall (s : Generator.AdaptiveState) (action_count attempt : Z),
        Generator.reachable Generator.default_config s ->
        (1 <= action_count)%Z -> (0 <= attempt)%Z ->
        Generator.get_smart_gas_limit s action_count attempt
        = Spec.gas_limit_as_specified Generator.default_config base s action_count attempt.
Proof.
  intros [base H].
  assert (R0 : Generator.reachable Generator.default_config Generator.initial_state)
    by apply Generator.reach_init.
  assert (R1 : Generator.reachable Generator.default_config Scenario.one_failure)
    by apply (Generator.reach_step _ _ Generator.OnFailure), R0.
  pose proof (H _ 1%Z 0%Z R0 ltac:(lia) ltac:(lia)) as E0.
  pose proof (H _ 1%Z 0%Z R1 ltac:(lia) ltac:(lia)) as E1.
  unfold Spec.gas_limit_as_specified in E0, E1.
  change (Generator.adaptive_gas_multiplier Scenario.one_failure)
    with (Generator.adaptive_gas_multiplier Generator.initial_state) in E1.
  rewrite <- E0 in E1. vm_compute in E1. discriminate.
Qed.

Section GasPrice.

Import Generator.
Local Open Scope Q_scope.

Variable cfg : PriceConfig.

(** The code's nested [max]/[min] is the clamp. *)
Lemma adjusted_gas_price_clamp (scaled : Q) :
  adjusted_gas_price cfg scaled
  == Spec.clamp scaled (inject_Z (base_gas_price_gwei cfg)) (inject_Z (max_gas_price_gwei cfg)).
Proof.
  unfold adjusted_gas_price, Spec.clamp.
  rewrite py_max_Qmax, py_min_Qmin. reflexivity.
Qed.

(** With the minimum below the maximum the clamped price lies between
    them. *)
Lemma adjusted_gas_price_bounds (scaled : Q) :
  (base_gas_price_gwei cfg <= max_gas_price_gwei cfg)%Z ->
  inject_Z (base_gas_price_gwei cfg) <= adjusted_gas_price cfg scaled
  /\ adjusted_gas_price cfg scaled <= inject_Z (max_gas_price_gwei cfg).
Proof.
  intro L. rewrite Zle_Qle in L. unfold adjusted_gas_price.
  destruct (py_min_spec scaled (inject_Z (max_gas_price_gwei cfg)))
    as [[H ->] | [H ->]];
  match goal with |- context [Py.max ?a ?b] =>
    destruct (py_max_spec a b) as [[K ->] | [K ->]] end; lra.
Qed.





End GasPrice.

(** C5, where the code falls short of it.  With 20 gwei on the network,
    bounds of 10 and 100 gwei and a gas multiplier of 1.0, the formula
    gives 24 gwei.  In the code [Web3.from_wei] hands back a [Decimal],
    the product with the float [1.2] raises, and the estimate is the
    handler's: the base price of 10 gwei. *)
Theorem dynamic_gas_price_ignores_network :
  Generator.from_wei_gwei (Generator.to_wei_gwei 20)
  = Some (Generator.AmountDecimal (inject_Z (Generator.to_wei_gwei 20) / inject_Z (10 ^ 9))) /\
  Generator.times_float
    (Generator.AmountDecimal (inject_Z (Generator.to_wei_gwei 20) / inject_Z (10 ^ 9)))
    (Double.round (12 # 10)) = None /\
  Generator.get_dynamic_gas_price Scenario.config_10_100 Generator.initial_state
    (Some (Generator.to_wei_gwei 20)) = Generator.to_wei_gwei 10 /\
  Spec.gas_price_as_specified Scenario.config_10_100 Generator.initial_state 20 = 24%Z.
Proof. repeat split. Qed.



(** ** The retry function and the batches *)

Section Monad.

Import Generator.

Context {A B : Type}.

Lemma result_bind (m : M A) (k : A -> M B) (p : Proc) :
  result (bind m k) p = result (k (result m p)) (final m p).
Proof.
  unfold result, final, bind. destruct (m p) as [[a p1] e1]. simpl.
  destruct (k a p1) as [[b p2] e2]. reflexivity.
Qed.

Lemma final_bind (m : M A) (k : A -> M B) (p : Proc) :
  final (bind m k) p = final (k (result m p)) (final m p).
Proof.
  unfold result, final, bind. destruct (m p) as [[a p1] e1]. simpl.
  destruct (k a p1) as [[b p2] e2]. reflexivity.
Qed.

Lemma events_bind (m : M A) (k : A -> M B) (p : Proc) :
  events (bind m k) p = events m p ++ events (k (result m p)) (final m p).
Proof.
  unfold result, final, events, bind. destruct (m p) as [[a p1] e1]. simpl.
  destruct (k a p1) as [[b p2] e2]. reflexivity.
Qed.

End Monad.

Create Rewrite HintDb run_m.
#[local] Hint Rewrite @result_bind @final_bind @events_bind : run_m.

Section Log.

Import Generator.

Lemma calls_of_app (e1 e2 : list Event) : calls_of (e1 ++ e2) = calls_of e1 ++ calls_of e2.
Proof. apply flat_map_app. Qed.

Lemma attempts_of_app (e1 e2 : list Event) :
  attempts_of (e1 ++ e2) = attempts_of e1 ++ attempts_of e2.
Proof. apply flat_map_app. Qed.

Lemma count_on_failure_app (e1 e2 : list Event) :
  count_on_failure (e1 ++ e2) = (count_on_failure e1 + count_on_failure e2)%nat.
Proof. unfold count_on_failure. rewrite filter_app. apply length_app. Qed.

Lemma count_on_success_app (e1 e2 : list Event) :
  count_on_success (e1 ++ e2) = (count_on_success e1 + count_on_success e2)%nat.
Proof. unfold count_on_success. rewrite filter_app. apply length_app. Qed.

End Log.

#[local] Hint Rewrite calls_of_app attempts_of_app count_on_failure_app count_on_success_app
  : run_m.

Section Retry.

Import Generator.

Variable chain : Chain.
Variable cfg : PriceConfig.

Lemma backoff_silent (attempt : Z) (p : Proc) :
  final (backoff cfg attempt) p = p /\
  calls_of (events (backoff cfg attempt) p) = [] /\
  attempts_of (events (backoff cfg attempt) p) = [] /\
  count_on_failure (events (backoff cfg attempt) p) = 0%nat /\
  count_on_success (events (backoff cfg attempt) p) = 0%nat.
Proof.
  unfold backoff. destruct (attempt <? retry_attempts cfg - 1)%Z; repeat split.
Qed.

(** The retry loop never invokes itself anew and never reports a
    failure to the controller. *)
Lemma retry_loop_log (tokens : list Address) (remaining : nat) :
  forall (attempt : Z) (p : Proc),
    calls_of (events (retry_loop chain cfg tokens remaining attempt) p) = [] /\
    count_on_failure (events (retry_loop chain cfg tokens remaining attempt) p) = 0%nat /\
    n_calls (final (retry_loop chain cfg tokens remaining attempt) p) = n_calls p.
Proof.
  induction remaining as [| k IH]; intros attempt p; [repeat split |].
  cbn [retry_loop]. autorewrite with run_m.
  cbn [result final events get next_attempt tell fst snd calls_of attempts_of flat_map
       count_on_failure filter List.length app].
  pose proof (fun q => IH (attempt + 1)%Z q) as IH'.
  destruct (attempt_result chain (n_attempts p)) as [| status | msg].
  - repeat split.
  - destruct (status =? 1)%Z; [repeat split |]. apply (IH' (mkProc _ _ _)).
  - destruct (classify msg); try (repeat split; fail).
    + unfold on_out_of_gas. autorewrite with run_m.
      cbn [result final events modify_adaptive tell fst snd calls_of flat_map
           count_on_failure filter List.length app adaptive n_calls n_attempts].
      match goal with |- context [final (backoff cfg attempt) ?q] =>
        destruct (backoff_silent attempt q) as (F & C & _ & N & _);
        destruct (IH' q) as (I1 & I2 & I3) end.
      rewrite F, C, N, I1, I2, I3. repeat split.
    + autorewrite with run_m.
      match goal with |- context [final (backoff cfg attempt) ?q] =>
        destruct (backoff_silent attempt q) as (F & C & _ & N & _);
        destruct (IH' q) as (I1 & I2 & I3) end.
      rewrite F, C, N, I1, I2, I3. repeat split.
Qed.

Lemma attempts_from_S (tokens : list Address) (attempt : Z) (count : nat) :
  attempts_from tokens attempt (S count)
  = (tokens, attempt) :: attempts_from tokens (attempt + 1) count.
Proof.
  unfold attempts_from. cbn [seq map]. rewrite Z.add_0_r. f_equal.
  rewrite <- seq_shift, map_map. apply map_ext. intro i. f_equal. lia.
Qed.

Lemma retry_loop_exhausts (tokens : list Address) (remaining : nat) :
  forall (attempt : Z) (p : Proc),
    (forall n, (n_attempts p <= n)%nat -> retried (attempt_result chain n) = true) ->
    exhausted tokens attempt remaining p (retry_loop chain cfg tokens remaining attempt).
Proof.
  induction remaining as [| k IH]; intros attempt p H.
  { unfold exhausted. cbn. repeat split. lia. }
  pose proof (H (n_attempts p) (Nat.le_refl _)) as H0.
  assert (IH' : forall q, n_attempts q = S (n_attempts p) ->
            exhausted tokens (attempt + 1) k q (retry_loop chain cfg tokens k (attempt + 1))).
  { intros q E. apply IH. intros n L. apply H. lia. }
  unfold exhausted in *. rewrite attempts_from_S.
  cbn [retry_loop]. autorewrite with run_m.
  cbn [result final events get next_attempt tell fst snd calls_of attempts_of flat_map
       count_on_success filter List.length app].
  destruct (attempt_result chain (n_attempts p)) as [| status | msg]; cbn [retried] in H0.
  - discriminate.
  - destruct (status =? 1)%Z; [discriminate |].
    destruct (IH' (mkProc (adaptive p) (n_calls p) (S (n_attempts p))) eq_refl)
      as (I1 & I2 & I3 & I4 & I5 & I6).
    cbn [adaptive n_attempts] in *. rewrite I1, I2, I3, I4, I5, I6.
    repeat split. lia.
  - destruct (classify msg); try discriminate.
    + unfold on_out_of_gas. autorewrite with run_m.
      cbn [result final events modify_adaptive tell fst snd attempts_of flat_map
           count_on_success filter List.length app adaptive n_calls n_attempts].
      match goal with |- context [final (backoff cfg attempt) ?q] =>
        destruct (backoff_silent attempt q) as (F & _ & C & _ & N);
        destruct (IH' q eq_refl) as (I1 & I2 & I3 & I4 & I5 & I6) end.
      cbn [adaptive n_attempts raise_gas_multiplier failed_attempts current_batch_size] in *.
      rewrite F, C, N, I1, I2, I3, I4, I5, I6. repeat split. lia.
    + autorewrite with run_m.
      match goal with |- context [final (backoff cfg attempt) ?q] =>
        destruct (backoff_silent attempt q) as (F & _ & C & _ & N);
        destruct (IH' q eq_refl) as (I1 & I2 & I3 & I4 & I5 & I6) end.
      cbn [adaptive n_attempts] in *.
      rewrite F, C, N, I1, I2, I3, I4, I5, I6. repeat split. lia.
Qed.

(** One invocation of the retry function logs itself once. *)
Lemma retry_call_log (tokens : list Address) (prices : list Z) (p : Proc) :
  calls_of (events (update_prices_with_retry chain cfg tokens prices) p) = [(tokens, prices)] /\
  count_on_failure (events (update_prices_with_retry chain cfg tokens prices) p) = 0%nat /\
  n_calls (final (update_prices_with_retry chain cfg tokens prices) p) = S (n_calls p).
Proof.
  unfold update_prices_with_retry. autorewrite with run_m.
  cbn [result final events next_call tell fst snd calls_of flat_map count_on_failure filter
       List.length app].
  destruct (preflight chain (n_calls p)); [| repeat split].
  destruct (retry_loop_log tokens (Z.to_nat (retry_attempts cfg)) 0
              (mkProc (adaptive p) (S (n_calls p)) (n_attempts p))) as (I1 & I2 & I3).
  rewrite I1, I2, I3. repeat split.
Qed.

(** An invocation whose attempts all fail uses every attempt it has. *)
Lemma retry_call_exhausts (tokens : list Address) (prices : list Z) (p : Proc) :
  preflight chain (n_calls p) = true ->
  (forall n, (n_attempts p <= n)%nat -> retried (attempt_result chain n) = true) ->
  exhausted tokens 0 (Z.to_nat (retry_attempts cfg)) p
    (update_prices_with_retry chain cfg tokens prices).
Proof.
  intros P H. unfold exhausted, update_prices_with_retry. autorewrite with run_m.
  cbn [result final events next_call tell fst snd attempts_of flat_map count_on_success filter
       List.length app].
  rewrite P.
  apply (retry_loop_exhausts tokens (Z.to_nat (retry_attempts cfg)) 0
           (mkProc (adaptive p) (S (n_calls p)) (n_attempts p))).
  exact H.
Qed.

(** The fallback invokes the retry function once per member, in
    order, and reports nothing to the controller. *)
Lemma individual_updates_log (batch : list (Address * Z)) :
  forall p : Proc,
    calls_of (events (individual_updates chain cfg batch) p) = singletons batch /\
    count_on_failure (events (individual_updates chain cfg batch) p) = 0%nat /\
    n_calls (final (individual_updates chain cfg batch) p) = (n_calls p + List.length batch)%nat.
Proof.
  induction batch as [| [token_addr price] rest IH]; intro p.
  { cbn. repeat split. lia. }
  cbn [individual_updates singletons map fst snd List.length]. autorewrite with run_m.
  destruct (retry_call_log [token_addr] [price] p) as (C & F & N).
  destruct (IH (final (update_prices_with_retry chain cfg [token_addr] [price]) p))
    as (I1 & I2 & I3).
  rewrite C, F, I1, I2, I3, N. repeat split. lia.
Qed.

(** When every attempt fails, each member gets all the attempts. *)
Lemma individual_updates_exhaust (batch : list (Address * Z)) :
  forall p : Proc,
    (forall n, (n_calls p <= n)%nat -> preflight chain n = true) ->
    (forall n, (n_attempts p <= n)%nat -> retried (attempt_result chain n) = true) ->
    attempts_of (events (individual_updates chain cfg batch) p)
    = flat_map (fun item => full_budget cfg [fst item]) batch /\
    count_on_success (events (individual_updates chain cfg batch) p) = 0%nat /\
    failed_attempts (adaptive (final (individual_updates chain cfg batch) p))
    = failed_attempts (adaptive p).
Proof.
  induction batch as [| [token_addr price] rest IH]; intros p P H.
  { cbn. repeat split. }
  cbn [individual_updates flat_map fst]. autorewrite with run_m.
  destruct (retry_call_exhausts [token_addr] [price] p (P _ (Nat.le_refl _)) H)
    as (_ & A & S & N & F & _).
  destruct (retry_call_log [token_addr] [price] p) as (_ & _ & NC).
  destruct (IH (final (update_prices_with_retry chain cfg [token_addr] [price]) p))
    as (I1 & I2 & I3).
  { intros n L. apply P. lia. }
  { intros n L. apply H. lia. }
  rewrite A, S, I1, I2, I3, F. repeat split.
Qed.

Lemma failure_counts_one (s : AdaptiveState) :
  failed_attempts (adjust_batch_size_on_failure s) = (failed_attempts s + 1)%Z.
Proof.
  unfold adjust_batch_size_on_failure.
  destruct (4 <=? failed_attempts s + 1)%Z; [reflexivity |].
  destruct (2 <=? failed_attempts s + 1)%Z; reflexivity.
Qed.



(** C8.  A batch of more than one update whose batched submission fails
    is submitted again as one invocation of the retry function per
    member, in the order of the batch, so as many invocations as the
    batch has members; and when every attempt fails, the batch and then
    each member in turn get attempts 0 to [retry_attempts - 1]: the
    members' budgets are not reduced by what came before. *)
Theorem failed_batch_is_split (batch : list (Address * Z)) (p : Proc) :
  (1 < List.length batch)%nat ->
  result (update_prices_with_retry chain cfg (map fst batch) (map snd batch)) p = false ->
  result (process_batch chain cfg batch) p = false /\
  calls_of (events (process_batch chain cfg batch) p)
  = (map fst batch, map snd batch) :: singletons batch /\
  List.length (singletons batch) = List.length batch /\
  ((forall n, preflight chain n = true) ->
   (forall n, retried (attempt_result chain n) = true) ->
   attempts_of (events (process_batch chain cfg batch) p)
   = full_budget cfg (map fst batch)
     ++ flat_map (fun item => full_budget cfg [fst item]) batch).
Proof.
  intros N F.
  destruct (retry_call_log (map fst batch) (map snd batch) p) as (L1 & _ & _).
  apply Nat.ltb_lt in N.
  unfold process_batch. autorewrite with run_m. rewrite F.
  autorewrite with run_m. rewrite N. rewrite L1.
  unfold on_failure. autorewrite with run_m.
  cbn [result final events modify_adaptive tell ret fst snd calls_of attempts_of flat_map app].
  rewrite ?app_nil_r.
  match goal with |- context [events (individual_updates chain cfg batch) ?q] =>
    set (q0 := q) end.
  destruct (individual_updates_log batch q0) as (I1 & _ & _).
  split; [reflexivity |]. split; [rewrite I1; reflexivity |].
  split; [apply length_map |].
  intros P H.
  destruct (retry_call_exhausts (map fst batch) (map snd batch) p (P _) (fun n _ => H n))
    as (_ & X2 & _).
  destruct (individual_updates_exhaust batch q0 (fun n _ => P n) (fun n _ => H n))
    as (J1 & _ & _).
  fold (attempts_of (events (update_prices_with_retry chain cfg (map fst batch)
                               (map snd batch)) p)).
  rewrite X2. fold (attempts_of (events (individual_updates chain cfg batch) q0)).
  rewrite J1. reflexivity.
Qed.

End Retry.



(** C8, on a batch of three with every attempt timing out. *)
Lemma failed_batch_is_split_witness :
  (1 < List.length Scenario.three_updates)%nat /\
  Generator.result
    (Generator.update_prices_with_retry Scenario.failing_chain Scenario.config_10_100
       (map fst Scenario.three_updates) (map snd Scenario.three_updates)) Scenario.start
  = false /\
  Generator.calls_of
    (Generator.events
       (Generator.process_batch Scenario.failing_chain Scenario.config_10_100
          Scenario.three_updates) Scenario.start)
  = (map fst Scenario.three_updates, map snd Scenario.three_updates)
    :: Generator.singletons Scenario.three_updates.
Proof.
  assert (N : (1 < List.length Scenario.three_updates)%nat) by (vm_compute; lia).
  assert (F : Generator.result
    (Generator.update_prices_with_retry Scenario.failing_chain Scenario.config_10_100
       (map fst Scenario.three_updates) (map snd Scenario.three_updates)) Scenario.start
    = false) by (vm_compute; reflexivity).
  split; [exact N |]. split; [exact F |].
  exact (proj1 (proj2 (failed_batch_is_split Scenario.failing_chain Scenario.config_10_100
                         Scenario.three_updates Scenario.start N F))).
Defined.

(** ** The position scan *)

Section Positions.

Import Keeper.
Local Open Scope Q_scope.

Variable cfg : KeeperConfig.
Variable cm : ContractManager.

Lemma in_range (x start stop : Z) : In x (range start stop) <-> (start <= x < stop)%Z.
Proof.
  unfold range. rewrite in_map_iff. split.
  - intros [i [E I]]. apply in_seq in I. lia.
  - intro H. exists (Z.to_nat (x - start)). split; [lia |]. apply in_seq. lia.
Qed.

(** Which ids the scan acts on. *)
Lemma check_positions_spec (position_id : Z) :
  In position_id (_check_positions cfg cm)
  <-> (1 <= position_id < get_next_position_id cm)%Z /\ check_position cfg cm position_id = true.
Proof.
  unfold _check_positions.
  destruct (Z.leb_spec (get_next_position_id cm - 1) 0) as [L | L].
  - split; [intros [] | intros [H _]; lia].
  - rewrite filter_In, in_range. reflexivity.
Qed.

(** A configuration that passes validation has a negative threshold. *)
Lemma validated_threshold_negative :
  validate_config cfg = [] -> (liquidation_threshold cfg < 0)%Z.
Proof.
  unfold validate_config. intro H.
  destruct (Z.leb_spec 0 (liquidation_threshold cfg)) as [L | L]; [| exact L].
  exfalso. apply app_eq_nil in H. destruct H as [_ H]. discriminate.
Qed.

(** A rounded number is at most its own size times [2^-53] above the
    number. *)
Lemma round_not_far_above (x : Q) : x - Qabs x * Double.eps <= Double.round x.
Proof.
  pose proof (round_error x) as R. apply Qabs_Qle_condition in R. lra.
Qed.

(** C7, as the code has it.  For an open long position with a non-zero
    entry price whose current price can be read, the ratio is the
    double nearest to [(current - entry) * 100 / entry], and the scan
    acts on the position exactly when that double is at most the
    configured threshold.  With a threshold that a double holds, it
    does so whenever the exact quotient is at most the threshold, in
    particular when the two are equal; and when it does, the exact
    quotient is above the threshold by no more than [2^-53] of its own
    size. *)
Theorem long_position_liquidation (position_id : Z) (position : PositionInfo)
    (current_price : Z) :
  (1 <= position_id < get_next_position_id cm)%Z ->
  get_position cm position_id = Some position ->
  is_open position = true ->
  position_type position = 0%Z ->
  entry_price position <> 0%Z ->
  get_price cm (token position) = PriceValue current_price ->
  Double.of_int (liquidation_threshold cfg) == inject_Z (liquidation_threshold cfg) ->
  let ratio :=
    inject_Z ((current_price - entry_price position) * 100) / inject_Z (entry_price position) in
  calculate_pnl_ratio cm position = Double.round ratio /\
  (In position_id (_check_positions cfg cm)
   <-> Double.round ratio <= inject_Z (liquidation_threshold cfg)) /\
  (ratio <= inject_Z (liquidation_threshold cfg) -> In position_id (_check_positions cfg cm)) /\
  (In position_id (_check_positions cfg cm)
   -> ratio - Qabs ratio * Double.eps <= inject_Z (liquidation_threshold cfg)).
Proof.
  intros R G O T E P D ratio.
  assert (C : calculate_pnl_ratio cm position = Double.round ratio).
  { unfold calculate_pnl_ratio. rewrite P, T.
    destruct (Z.eqb_spec (entry_price position) 0); [contradiction | reflexivity]. }
  assert (I : In position_id (_check_positions cfg cm)
              <-> Double.round ratio <= inject_Z (liquidation_threshold cfg)).
  { rewrite check_positions_spec. unfold check_position, liquidation_candidate.
    rewrite G, O, C. cbn [negb]. rewrite Qle_bool_iff. tauto. }
  split; [exact C |]. split; [exact I |]. split.
  - intro Q. apply I. apply round_le_double; [exact D | exact Q].
  - intro H. apply I in H. pose proof (round_not_far_above ratio). lra.
Qed.

(** When the price of a position's token cannot be read, whether the
    read returns nothing or raises, the ratio is [0.0]; under a
    threshold that validation accepts, which is negative, the position
    is not a candidate and the scan does not act on it. *)
Lemma unreadable_price_spared_when_validated (position_id : Z) (position : PositionInfo) :
  validate_config cfg = [] ->
  get_position cm position_id = Some position ->
  get_price cm (token position) = PriceNone \/ get_price cm (token position) = PriceRaises ->
  calculate_pnl_ratio cm position = 0 /\
  liquidation_candidate cfg cm position = false /\
  ~ In position_id (_check_positions cfg cm).
Proof.
  intros V G P.
  pose proof (validated_threshold_negative V) as N.
  assert (C : calculate_pnl_ratio cm position = 0).
  { unfold calculate_pnl_ratio. destruct P as [-> | ->]; reflexivity. }
  assert (F : liquidation_candidate cfg cm position = false).
  { unfold liquidation_candidate. rewrite C.
    apply not_true_is_false. rewrite Qle_bool_iff. intro H.
    change 0 with (inject_Z 0) in H. rewrite <- Zle_Qle in H. lia. }
  split; [exact C |]. split; [exact F |].
  rewrite check_positions_spec. intros [_ H].
  unfold check_position in H. rewrite G, F in H.
  destruct (negb (is_open position)); discriminate.
Qed.

End Positions.

(** C7 as worded does not hold.  A long position entered at [10^18]
    with the price at [10^17 + 1] has lost a little less than 90
    percent, so its ratio is above a threshold of -90; the double
    nearest to the ratio is -90.0, and the scan acts on the position. *)
Lemma rounded_ratio_is_liquidated :
  Keeper.get_position Cases.just_short 1 = Some Cases.wei_position /\
  Keeper.get_price Cases.just_short (Keeper.token Cases.wei_position)
  = Keeper.PriceValue (10 ^ 17 + 1) /\
  ~ (inject_Z ((10 ^ 17 + 1 - Keeper.entry_price Cases.wei_position) * 100)
     / inject_Z (Keeper.entry_price Cases.wei_position)
     <= inject_Z (Keeper.liquidation_threshold Scenario.keeper_config))%Q /\
  Keeper.calculate_pnl_ratio Cases.just_short Cases.wei_position = (-90)%Q /\
  In 1%Z (Keeper._check_positions Scenario.keeper_config Cases.just_short).
Proof.
  split; [reflexivity |]. split; [reflexivity |]. split; [| split].
  - vm_compute. intro H. apply H. reflexivity.
  - vm_compute. reflexivity.
  - vm_compute. left. reflexivity.
Qed.

(** C7, on a long position entered at 2000 with the price at 200 and a
    threshold of -90: exactly at the boundary, and acted on. *)
Lemma long_position_liquidation_witness :
  (1 <= 1 < Keeper.get_next_position_id Scenario.at_threshold)%Z /\
  Keeper.get_position Scenario.at_threshold 1 = Some Scenario.long_position /\
  Keeper.is_open Scenario.long_position = true /\
  Keeper.position_type Scenario.long_position = 0%Z /\
  Keeper.entry_price Scenario.long_position <> 0%Z /\
  Keeper.get_price Scenario.at_threshold (Keeper.token Scenario.long_position)
  = Keeper.PriceValue 200 /\
  (Double.of_int (Keeper.liquidation_threshold Scenario.keeper_config)
   == inject_Z (Keeper.liquidation_threshold Scenario.keeper_config))%Q /\
  In 1%Z (Keeper._check_positions Scenario.keeper_config Scenario.at_threshold).
Proof.
  assert (R : (1 <= 1 < Keeper.get_next_position_id Scenario.at_threshold)%Z)
    by (simpl; lia).
  assert (E : Keeper.entry_price Scenario.long_position <> 0%Z) by (simpl; lia).
  assert (D : (Double.of_int (Keeper.liquidation_threshold Scenario.keeper_config)
               == inject_Z (Keeper.liquidation_threshold Scenario.keeper_config))%Q)
    by reflexivity.
  split; [exact R |]. split; [reflexivity |]. split; [reflexivity |].
  split; [reflexivity |]. split; [exact E |]. split; [reflexivity |]. split; [exact D |].
  apply (proj1 (proj2 (proj2 (long_position_liquidation Scenario.keeper_config
                                Scenario.at_threshold 1 Scenario.long_position 200
                                R eq_refl eq_refl eq_refl E eq_refl D)))).
  vm_compute. discriminate.
Defined.

(** C9, where the code falls short of it.  The configuration passes
    validation when the keeper is built; [main] then applies
    [--liquidation-threshold 10] without validating again.  With that
    threshold in force the ratio [0.0] of a position whose price cannot
    be read is at most the threshold, and the scan acts on the
    position. *)
Theorem unreadable_price_liquidated_after_override :
  Keeper.validate_config Scenario.keeper_config = [] /\
  Keeper.liquidation_threshold
    (Exec.configuration_in_force Scenario.keeper_config Cases.rash_args) = 10%Z /\
  Keeper.get_position Scenario.price_missing 1 = Some Scenario.long_position /\
  Keeper.get_price Scenario.price_missing (Keeper.token Scenario.long_position)
  = Keeper.PriceNone /\
  Keeper.calculate_pnl_ratio Scenario.price_missing Scenario.long_position = 0%Q /\
  In 1%Z (Keeper._check_positions
            (Exec.configuration_in_force Scenario.keeper_config Cases.rash_args)
            Scenario.price_missing).
Proof.
  repeat split. vm_compute. left. reflexivity.
Qed.

(** ** Price generation *)

Section Prices.

Import Generator.
Local Open Scope Q_scope.

Variable cfg : PriceConfig.

(** C10.  For a positive current price and a non-negative
    [max_price_change], the generated price is the larger of
    [min_price] and [current * (1 + change)], where [change], the
    relative change applied before the floor, lies within
    [-max_price_change, +max_price_change].  So the generated price is
    at least [min_price], at least [current * (1 - max_price_change)],
    and at most the larger of [min_price] and
    [current * (1 + max_price_change)]. *)
Theorem generated_price_bounds (token_volatility current r_event u r_change : Q) :
  0 < current ->
  0 <= max_price_change cfg ->
  let change := clamped_change cfg token_volatility r_event u r_change in
  let price := generate_price cfg token_volatility current r_event u r_change in
  price == Qmax (current * (1 + change)) (min_price cfg) /\
  (- max_price_change cfg <= change /\ change <= max_price_change cfg) /\
  min_price cfg <= price /\
  current * (1 - max_price_change cfg) <= price /\
  price <= Qmax (min_price cfg) (current * (1 + max_price_change cfg)).
Proof.
  intros C M change price.
  assert (B : - max_price_change cfg <= change /\ change <= max_price_change cfg).
  { unfold change, clamped_change.
    match goal with |- context [Py.min ?a ?b] =>
      destruct (py_min_spec a b) as [[H ->] | [H ->]] end;
    match goal with |- context [Py.max ?a ?b] =>
      destruct (py_max_spec a b) as [[K ->] | [K ->]] end; lra. }
  assert (E : price == Qmax (current * (1 + change)) (min_price cfg)).
  { unfold price, generate_price. fold change. apply py_max_Qmax. }
  destruct B as [B1 B2].
  assert (L : current * (1 - max_price_change cfg) <= current * (1 + change)) by nra.
  assert (U : current * (1 + change) <= current * (1 + max_price_change cfg)) by nra.
  split; [exact E |]. split; [split; assumption |].
  rewrite E. split; [apply Q.le_max_r |]. split.
  - apply Q.max_le_iff. left. exact L.
  - apply Q.max_lub; [| apply Q.le_max_l].
    apply Q.max_le_iff. right. exact U.
Qed.

End Prices.

(** C10, at the default configuration, a price of 2500 and the largest
    upward draw in a volatile event: the change is capped at one half
    and the price is 3750. *)
Lemma generated_price_bounds_witness :
  (0 < 2500)%Q /\
  (0 <= Generator.max_price_change Generator.default_config)%Q /\
  (Generator.generate_price Generator.default_config 1 2500 0 3 1
   == Qmax (2500 * (1 + Generator.clamped_change Generator.default_config 1 0 3 1))
        (Generator.min_price Generator.default_config))%Q /\
  (Generator.generate_price Generator.default_config 1 2500 0 3 1 == 3750)%Q.
Proof.
  assert (C : (0 < 2500)%Q) by reflexivity.
  assert (M : (0 <= Generator.max_price_change Generator.default_config)%Q)
    by (vm_compute; discriminate).
  split; [exact C |]. split; [exact M |].
  split; [| reflexivity].
  exact (proj1 (generated_price_bounds Generator.default_config 1 2500 0 3 1 C M)).
Defined.

(** * Further properties of the price generator *)

(** ** The adaptive state, continued *)

Section AdaptiveMore.

Import Generator.
Local Open Scope Q_scope.

Variable cfg : PriceConfig.

Lemma batch_size_range (s : AdaptiveState) :
  reachable cfg s -> (1 <= current_batch_size s <= Z.max 6 (max_batch_size cfg))%Z.
Proof.
  induction 1 as [| s t R IH]; [simpl; lia |].
  destruct t; simpl.
  - unfold adjust_batch_size_on_failure.
    destruct (4 <=? failed_attempts s + 1)%Z; [simpl; lia |].
    destruct (2 <=? failed_attempts s + 1)%Z; simpl; lia.
  - unfold reset_adaptive_params_on_success.
    match goal with |- context [(?c =? 0)%Z] => destruct (c =? 0)%Z end; simpl; [| lia].
    destruct (current_batch_size s <? max_batch_size cfg)%Z eqn:L; lia.
  - exact IH.
Qed.

(** X1.  Whatever the configured maximum, every reachable state has a
    failure counter of at least 0, a batch size between 1 and the
    larger of 6 and the configured maximum, and a gas multiplier
    between 1 and 2. *)
Theorem adaptive_state_range (s : AdaptiveState) :
  reachable cfg s ->
  (0 <= failed_attempts s)%Z /\
  (1 <= current_batch_size s <= Z.max 6 (max_batch_size cfg))%Z /\
  1 <= adaptive_gas_multiplier s <= 2.
Proof.
  intro R. split; [now apply (failed_attempts_nonneg cfg) |].
  split; [now apply batch_size_range | now apply (gas_multiplier_bounds cfg)].
Qed.

(** A double multiplier raised by a factor of at least 1 and capped at
    2.0 does not go down. *)
Lemma raised_multiplier_grows (g c : Q) :
  1 <= g <= 2 -> Double.round g == g -> 1 <= c -> g <= Py.min 2 (Double.mul g c).
Proof.
  intros G D C. unfold Double.mul.
  destruct (py_min_spec 2 (Double.round (g * c))) as [[L ->] | [L ->]]; [lra |].
  apply round_ge_double; [exact D | nra].
Qed.

(** X2.  In a reachable state a failure and an out-of-gas error never
    lower the gas multiplier, and a success never raises it nor lowers
    the batch size. *)
Theorem multiplier_moves_one_way (s : AdaptiveState) :
  reachable cfg s ->
  adaptive_gas_multiplier s <= adaptive_gas_multiplier (adjust_batch_size_on_failure s) /\
  adaptive_gas_multiplier s <= adaptive_gas_multiplier (raise_gas_multiplier s) /\
  adaptive_gas_multiplier (reset_adaptive_params_on_success cfg s) <= adaptive_gas_multiplier s /\
  (current_batch_size s <= current_batch_size (reset_adaptive_params_on_success cfg s))%Z.
Proof.
  intro R. destruct (gas_multiplier_bounds cfg s R) as [G1 G2].
  pose proof (gas_multiplier_is_double cfg s R) as D.
  destruct literal_bounds as [C12 [C13 C95]].
  split; [| split; [| split]].
  - unfold adjust_batch_size_on_failure.
    destruct (4 <=? failed_attempts s + 1)%Z; [simpl; lra |].
    destruct (2 <=? failed_attempts s + 1)%Z; cbn [adaptive_gas_multiplier]; [| lra].
    now apply raised_multiplier_grows.
  - cbn [raise_gas_multiplier adaptive_gas_multiplier].
    now apply raised_multiplier_grows.
  - unfold reset_adaptive_params_on_success.
    match goal with |- context [(?c =? 0)%Z] => destruct (c =? 0)%Z end;
      cbn [adaptive_gas_multiplier]; [| lra].
    unfold Double.mul.
    match goal with |- context [Py.max 1 ?x] =>
      destruct (py_max_spec 1 x) as [[L ->] | [L ->]] end; [lra |].
    apply round_le_double; [exact D | nra].
  - apply success_batch_size_monotone.
Qed.

(** The state after [n] successes in a row. *)
Lemma run_app (s : AdaptiveState) (l1 l2 : list Transition) :
  run cfg s (l1 ++ l2) = run cfg (run cfg s l1) l2.
Proof. apply fold_left_app. Qed.

Lemma run_reachable (s : AdaptiveState) (l : list Transition) :
  reachable cfg s -> reachable cfg (run cfg s l).
Proof.
  revert s. induction l as [| t l IH]; intros s R; [exact R |].
  apply IH. now apply reach_step.
Qed.

Lemma successes_counter (n : nat) :
  forall s, (0 <= failed_attempts s)%Z ->
    failed_attempts (run cfg s (repeat OnSuccess n))
    = Z.max 0 (failed_attempts s - Z.of_nat n).
Proof.
  induction n as [| n IH]; intros s P; [simpl; lia |].
  change (repeat OnSuccess (S n)) with ([OnSuccess] ++ repeat OnSuccess n).
  rewrite run_app.
  assert (E : failed_attempts (run cfg s [OnSuccess]) = Z.max 0 (failed_attempts s - 1)).
  { cbn. unfold reset_adaptive_params_on_success.
    destruct (Z.ltb_spec 0 (failed_attempts s));
      match goal with |- context [(?c =? 0)%Z] => destruct (c =? 0)%Z end; simpl; lia. }
  rewrite IH by lia. lia.
Qed.

Lemma relaxed_fourteen (m : nat) : (14 <= m)%nat -> Feed.relaxed m = 1.
Proof.
  induction 1 as [| m L IH]; [vm_compute; reflexivity |].
  cbn [Feed.relaxed]. rewrite IH. reflexivity.
Qed.

Lemma py_max_mono_r (a b c : Q) : b <= c -> Py.max a b <= Py.max a c.
Proof.
  intro L.
  destruct (py_max_spec a b) as [[H ->] | [H ->]];
    destruct (py_max_spec a c) as [[K ->] | [K ->]]; lra.
Qed.

Lemma successes_relax (m : nat) :
  forall s, failed_attempts s = 0%Z -> 1 <= adaptive_gas_multiplier s <= 2 ->
    failed_attempts (run cfg s (repeat OnSuccess m)) = 0%Z /\
    1 <= adaptive_gas_multiplier (run cfg s (repeat OnSuccess m)) <= Feed.relaxed m.
Proof.
  induction m as [| m IH]; intros s F G; [simpl; split; [exact F | exact G] |].
  cbn [repeat]. rewrite repeat_cons, run_app.
  destruct (IH s F G) as [F' [G1 G2]].
  set (s' := run cfg s (repeat OnSuccess m)) in *.
  cbn [run fold_left step]. unfold reset_adaptive_params_on_success. rewrite F'.
  cbn [Z.ltb Z.compare Z.eqb failed_attempts adaptive_gas_multiplier].
  split; [reflexivity |]. split.
  - match goal with |- context [Py.max 1 ?x] =>
      destruct (py_max_spec 1 x) as [[L ->] | [L ->]] end; lra.
  - cbn [Feed.relaxed]. apply py_max_mono_r. apply round_mono.
    pose proof literal_bounds as [_ [_ C95]]. nra.
Qed.

Lemma successes_grow (m : nat) :
  forall s, failed_attempts s = 0%Z ->
    (current_batch_size s <= max_batch_size cfg)%Z ->
    current_batch_size (run cfg s (repeat OnSuccess m))
    = Z.min (max_batch_size cfg) (current_batch_size s + Z.of_nat m).
Proof.
  induction m as [| m IH]; intros s F L; [simpl; lia |].
  change (repeat OnSuccess (S m)) with ([OnSuccess] ++ repeat OnSuccess m).
  rewrite run_app.
  assert (E : failed_attempts (run cfg s [OnSuccess]) = 0%Z /\
              current_batch_size (run cfg s [OnSuccess])
              = Z.min (max_batch_size cfg) (current_batch_size s + 1)).
  { cbn. unfold reset_adaptive_params_on_success. rewrite F.
    cbn [Z.ltb Z.compare Z.eqb failed_attempts current_batch_size].
    split; [reflexivity |].
    destruct (Z.ltb_spec (current_batch_size s) (max_batch_size cfg)); lia. }
  destruct E as [E1 E2]. rewrite IH by (try assumption; lia). lia.
Qed.

(** X3.  Sustained success undoes any degradation: from a reachable
    state, with a configured maximum of at least 6, once the number of
    successes in a row exceeds the failure counter by 14 and by the
    configured maximum less one, the counter is 0, the gas multiplier
    is back at 1.0 and the batch size is the configured maximum. *)
Theorem sustained_success_recovers (s : AdaptiveState) (n : nat) :
  reachable cfg s ->
  (6 <= max_batch_size cfg)%Z ->
  (failed_attempts s + 14 <= Z.of_nat n)%Z ->
  (failed_attempts s + max_batch_size cfg - 1 <= Z.of_nat n)%Z ->
  failed_attempts (run cfg s (repeat OnSuccess n)) = 0%Z /\
  adaptive_gas_multiplier (run cfg s (repeat OnSuccess n)) == 1 /\
  current_batch_size (run cfg s (repeat OnSuccess n)) = max_batch_size cfg.
Proof.
  intros R M N14 NB.
  pose proof (failed_attempts_nonneg cfg s R) as P.
  set (f := Z.to_nat (failed_attempts s)).
  assert (E : n = (f + (n - f))%nat) by lia.
  rewrite E, repeat_app, run_app.
  set (s1 := run cfg s (repeat OnSuccess f)).
  assert (R1 : reachable cfg s1) by now apply run_reachable.
  assert (F1 : failed_attempts s1 = 0%Z).
  { unfold s1. rewrite successes_counter by exact P. lia. }
  destruct (successes_relax (n - f) s1 F1 (gas_multiplier_bounds cfg s1 R1)) as [F2 [G1 G2]].
  destruct (batch_size_bounds cfg s1 M R1) as [B1 B2].
  rewrite relaxed_fourteen in G2 by lia.
  split; [exact F2 |]. split; [lra |].
  rewrite successes_grow by assumption.
  lia.
Qed.

End AdaptiveMore.

(** ** The gas limit, continued *)

Section GasLimitMore.

Import Generator.
Local Open Scope Q_scope.

(** A multiplier [1.0 + n * c] is at least 1.0 and grows with [n]. *)
Lemma multiplier_at_least_one (n : Z) (c : Q) :
  (0 <= n)%Z -> 0 <= c ->
  1 <= Double.add 1 (Double.mul (Double.of_int n) (Double.round c)).
Proof.
  intros N C. unfold Double.add, Double.mul, Double.of_int.
  apply round_ge_double; [reflexivity |].
  assert (0 <= Double.round (Double.round (inject_Z n) * Double.round c)); [| lra].
  apply round_nonneg.
  assert (0 <= Double.round (inject_Z n)).
  { apply round_nonneg. change 0 with (inject_Z 0). rewrite <- Zle_Qle. exact N. }
  pose proof (round_nonneg c C). nra.
Qed.

Lemma multiplier_mono (n n' : Z) (c : Q) :
  0 <= c -> (n <= n')%Z ->
  Double.add 1 (Double.mul (Double.of_int n) (Double.round c))
  <= Double.add 1 (Double.mul (Double.of_int n') (Double.round c)).
Proof.
  intros C L. unfold Double.add, Double.mul, Double.of_int.
  apply round_mono.
  assert (Double.round (Double.round (inject_Z n) * Double.round c)
          <= Double.round (Double.round (inject_Z n') * Double.round c)); [| lra].
  apply round_mono.
  assert (Double.round (inject_Z n) <= Double.round (inject_Z n')).
  { apply round_mono. rewrite <- Zle_Qle. exact L. }
  pose proof (round_nonneg c C). nra.
Qed.

(** X4.  For at least one token, a non-negative attempt number and a
    reachable state, the gas limit of a submission is between 800,000
    and 8,000,000, and it does not go down from one attempt to the next
    nor after a recorded failure. *)
Theorem smart_gas_limit_range (cfg : PriceConfig) (s : AdaptiveState)
    (tokens_count attempt : Z) :
  reachable cfg s ->
  (1 <= tokens_count)%Z ->
  (0 <= attempt)%Z ->
  (800000 <= get_smart_gas_limit s tokens_count attempt <= 8000000)%Z /\
  (get_smart_gas_limit s tokens_count attempt
   <= get_smart_gas_limit s tokens_count (attempt + 1))%Z /\
  (get_smart_gas_limit s tokens_count attempt
   <= get_smart_gas_limit (adjust_batch_size_on_failure s) tokens_count attempt)%Z.
Proof.
  intros R C A.
  pose proof (failed_attempts_nonneg cfg s R) as F.
  pose proof (base_gas_at_least tokens_count C) as B.
  unfold get_smart_gas_limit. rewrite failure_counts_one.
  set (r := Double.add 1 (Double.mul (Double.of_int attempt) (Double.round (2 # 10)))).
  set (r' := Double.add 1 (Double.mul (Double.of_int (attempt + 1)) (Double.round (2 # 10)))).
  set (g := Double.add 1 (Double.mul (Double.of_int (failed_attempts s)) (Double.round (1 # 10)))).
  set (g' := Double.add 1 (Double.mul (Double.of_int (failed_attempts s + 1))
                             (Double.round (1 # 10)))).
  set (b := Double.of_int (base_gas tokens_count)).
  assert (Hb : 800000 <= b).
  { apply round_ge_double; [reflexivity |].
    rewrite Zle_Qle in B. exact B. }
  assert (Hr : 1 <= r) by (apply multiplier_at_least_one; [exact A | discriminate]).
  assert (Hg : 1 <= g) by (apply multiplier_at_least_one; [exact F | discriminate]).
  assert (Hr' : r <= r') by (apply multiplier_mono; [discriminate | lia]).
  assert (Hg' : g <= g') by (apply multiplier_mono; [discriminate | lia]).
  assert (P1 : 800000 <= Double.mul b r).
  { apply round_ge_double; [reflexivity | nra]. }
  assert (P3 : Double.mul b r <= Double.mul b r') by (apply round_mono; nra).
  assert (L : (800000 <= Py.int (Double.mul (Double.mul b r) g))%Z).
  { rewrite <- (py_int_inject 800000). apply py_int_le.
    apply round_ge_double; [reflexivity |]. change (inject_Z 800000) with 800000. nra. }
  split; [split; [apply Z.min_glb; [exact L | lia] | apply Z.le_min_r] |].
  split; apply Z.min_le_compat_r; apply py_int_le; apply round_mono; nra.
Qed.

End GasLimitMore.

(** ** The retry function, continued *)

Section RetryMore.

Import Generator.

Variable chain : Chain.
Variable cfg : PriceConfig.

(** After [k] attempts that are retried, the loop goes on as a loop
    with [k] iterations fewer, from a state that differs at most in the
    gas multiplier. *)
Lemma retry_loop_after_retried (tokens : list Address) (k : nat) :
  forall (remaining : nat) (attempt : Z) (p : Proc),
    (forall i, (i < k)%nat -> retried (attempt_result chain (n_attempts p + i)) = true) ->
    exists (q : Proc) (evs : list Event),
      n_attempts q = (n_attempts p + k)%nat /\
      n_calls q = n_calls p /\
      failed_attempts (adaptive q) = failed_attempts (adaptive p) /\
      current_batch_size (adaptive q) = current_batch_size (adaptive p) /\
      attempts_of evs = attempts_from tokens attempt k /\
      count_on_success evs = 0%nat /\
      count_on_failure evs = 0%nat /\
      result (retry_loop chain cfg tokens (k + remaining) attempt) p
      = result (retry_loop chain cfg tokens remaining (attempt + Z.of_nat k)) q /\
      final (retry_loop chain cfg tokens (k + remaining) attempt) p
      = final (retry_loop chain cfg tokens remaining (attempt + Z.of_nat k)) q /\
      events (retry_loop chain cfg tokens (k + remaining) attempt) p
      = evs ++ events (retry_loop chain cfg tokens remaining (attempt + Z.of_nat k)) q.
Proof.
  induction k as [| k IH]; intros remaining attempt p H.
  { exists p, []. rewrite Nat.add_0_r, Z.add_0_r. repeat split. }
  pose proof (H 0%nat ltac:(lia)) as H0. rewrite Nat.add_0_r in H0.
  assert (IH' : forall q0, n_attempts q0 = S (n_attempts p) ->
    exists (q : Proc) (evs : list Event),
      n_attempts q = (n_attempts q0 + k)%nat /\
      n_calls q = n_calls q0 /\
      failed_attempts (adaptive q) = failed_attempts (adaptive q0) /\
      current_batch_size (adaptive q) = current_batch_size (adaptive q0) /\
      attempts_of evs = attempts_from tokens (attempt + 1) k /\
      count_on_success evs = 0%nat /\
      count_on_failure evs = 0%nat /\
      result (retry_loop chain cfg tokens (k + remaining) (attempt + 1)) q0
      = result (retry_loop chain cfg tokens remaining (attempt + Z.of_nat (S k))) q /\
      final (retry_loop chain cfg tokens (k + remaining) (attempt + 1)) q0
      = final (retry_loop chain cfg tokens remaining (attempt + Z.of_nat (S k))) q /\
      events (retry_loop chain cfg tokens (k + remaining) (attempt + 1)) q0
      = evs ++ events (retry_loop chain cfg tokens remaining (attempt + Z.of_nat (S k))) q).
  { intros q0 E.
    replace (attempt + Z.of_nat (S k))%Z with (attempt + 1 + Z.of_nat k)%Z by lia.
    apply IH. intros i L. rewrite E.
    replace (S (n_attempts p) + i)%nat with (n_attempts p + S i)%nat by lia.
    apply H. lia. }
  rewrite attempts_from_S.
  cbn [Nat.add retry_loop]. autorewrite with run_m.
  cbn [result final events get next_attempt tell fst snd app].
  destruct (attempt_result chain (n_attempts p)) as [| status | msg]; cbn [retried] in H0.
  - discriminate.
  - destruct (status =? 1)%Z; [discriminate |].
    destruct (IH' (mkProc (adaptive p) (n_calls p) (S (n_attempts p))) eq_refl)
      as (q & evs & I1 & I2 & I3 & I4 & I5 & I6 & I7 & I8 & I9 & I10).
    cbn [adaptive n_attempts n_calls] in *.
    exists q, (EvAttempt tokens attempt
                 (get_smart_gas_limit (adaptive p) (Z.of_nat (List.length tokens)) attempt)
                 (get_dynamic_gas_price cfg (adaptive p)
                    (gas_price_read chain (n_attempts p))) :: evs).
    rewrite I8, I9, I10.
    repeat split; try assumption; try lia.
    cbn [attempts_of flat_map app]. fold (attempts_of evs). rewrite I5. reflexivity.
  - destruct (classify msg); try discriminate.
    + unfold on_out_of_gas. autorewrite with run_m.
      cbn [result final events modify_adaptive tell fst snd app adaptive n_calls n_attempts].
      match goal with |- context [final (backoff cfg attempt) ?q0] =>
        destruct (backoff_silent cfg attempt q0) as (F & _ & C & NF & NS);
        destruct (IH' q0 eq_refl)
          as (q & evs & I1 & I2 & I3 & I4 & I5 & I6 & I7 & I8 & I9 & I10);
        set (q1 := q0) in * end.
      cbn [adaptive n_attempts n_calls raise_gas_multiplier failed_attempts
           current_batch_size] in *.
      rewrite F, I8, I9, I10.
      exists q, ([EvAttempt tokens attempt
                    (get_smart_gas_limit (adaptive p) (Z.of_nat (List.length tokens)) attempt)
                    (get_dynamic_gas_price cfg (adaptive p)
                       (gas_price_read chain (n_attempts p)))]
                 ++ [EvRaiseGas] ++ events (backoff cfg attempt) q1 ++ evs).
      repeat split; try assumption; try lia;
        try (autorewrite with run_m; rewrite ?C, ?NS, ?NF, ?I5, ?I6, ?I7; reflexivity).
      * unfold q1 in I1. cbn [n_attempts] in I1. lia.
      * cbn [app]. rewrite <- app_assoc. reflexivity.
    + autorewrite with run_m.
      match goal with |- context [final (backoff cfg attempt) ?q0] =>
        destruct (backoff_silent cfg attempt q0) as (F & _ & C & NF & NS);
        destruct (IH' q0 eq_refl)
          as (q & evs & I1 & I2 & I3 & I4 & I5 & I6 & I7 & I8 & I9 & I10);
        set (q1 := q0) in * end.
      cbn [adaptive n_attempts n_calls] in *.
      rewrite F, I8, I9, I10.
      exists q, ([EvAttempt tokens attempt
                    (get_smart_gas_limit (adaptive p) (Z.of_nat (List.length tokens)) attempt)
                    (get_dynamic_gas_price cfg (adaptive p)
                       (gas_price_read chain (n_attempts p)))]
                 ++ events (backoff cfg attempt) q1 ++ evs).
      repeat split; try assumption; try lia;
        try (autorewrite with run_m; rewrite ?C, ?NS, ?NF, ?I5, ?I6, ?I7; reflexivity).
      * unfold q1 in I1. cbn [n_attempts] in I1. lia.
      * cbn [app]. rewrite <- app_assoc. reflexivity.
Qed.

Lemma attempts_from_snoc (tokens : list Address) (attempt : Z) (k : nat) :
  attempts_from tokens attempt (S k)
  = attempts_from tokens attempt k ++ [(tokens, (attempt + Z.of_nat k)%Z)].
Proof.
  unfold attempts_from. rewrite seq_S, map_app. reflexivity.
Qed.

(** The loop stops at the first attempt that is terminal. *)
Lemma retry_loop_stops (tokens : list Address) (k r : nat) (attempt : Z) (p : Proc) :
  (forall i, (i < k)%nat -> retried (attempt_result chain (n_attempts p + i)) = true) ->
  Feed.terminal (attempt_result chain (n_attempts p + k)) = true ->
  result (retry_loop chain cfg tokens (k + S r) attempt) p = false /\
  attempts_of (events (retry_loop chain cfg tokens (k + S r) attempt) p)
  = attempts_from tokens attempt (S k) /\
  count_on_success (events (retry_loop chain cfg tokens (k + S r) attempt) p) = 0%nat /\
  n_attempts (final (retry_loop chain cfg tokens (k + S r) attempt) p)
  = (n_attempts p + S k)%nat /\
  failed_attempts (adaptive (final (retry_loop chain cfg tokens (k + S r) attempt) p))
  = failed_attempts (adaptive p).
Proof.
  intros H T.
  destruct (retry_loop_after_retried tokens k (S r) attempt p H)
    as (q & evs & I1 & I2 & I3 & I4 & I5 & I6 & I7 & I8 & I9 & I10).
  rewrite I8, I9, I10, attempts_from_snoc. clear I8 I9 I10.
  cbn [retry_loop]. autorewrite with run_m.
  cbn [result final events get next_attempt tell fst snd app].
  rewrite I1, I5, I6.
  destruct (attempt_result chain (n_attempts p + k)) as [| status | msg]; cbn [Feed.terminal] in T.
  - cbn. repeat split; try assumption; lia.
  - discriminate.
  - destruct (classify msg); try discriminate; cbn; repeat split; try assumption; lia.
Qed.

(** The loop stops at the first receipt with status 1, and applies the
    success transition once. *)
Lemma retry_loop_succeeds (tokens : list Address) (k r : nat) (attempt : Z) (p : Proc) :
  (forall i, (i < k)%nat -> retried (attempt_result chain (n_attempts p + i)) = true) ->
  attempt_result chain (n_attempts p + k) = Receipt 1 ->
  result (retry_loop chain cfg tokens (k + S r) attempt) p = true /\
  attempts_of (events (retry_loop chain cfg tokens (k + S r) attempt) p)
  = attempts_from tokens attempt (S k) /\
  count_on_success (events (retry_loop chain cfg tokens (k + S r) attempt) p) = 1%nat /\
  n_attempts (final (retry_loop chain cfg tokens (k + S r) attempt) p)
  = (n_attempts p + S k)%nat /\
  failed_attempts (adaptive (final (retry_loop chain cfg tokens (k + S r) attempt) p))
  = (if (0 <? failed_attempts (adaptive p))%Z
     then Z.max 0 (failed_attempts (adaptive p) - 1)
     else failed_attempts (adaptive p)).
Proof.
  intros H T.
  destruct (retry_loop_after_retried tokens k (S r) attempt p H)
    as (q & evs & I1 & I2 & I3 & I4 & I5 & I6 & I7 & I8 & I9 & I10).
  rewrite I8, I9, I10, attempts_from_snoc. clear I8 I9 I10.
  cbn [retry_loop]. autorewrite with run_m.
  cbn [result final events get next_attempt tell fst snd app].
  rewrite I1, I5, I6, T. cbn [Z.eqb Pos.eqb].
  unfold on_success. autorewrite with run_m.
  cbn [result final events modify_adaptive tell ret fst snd app adaptive n_attempts
       attempts_of flat_map count_on_success filter List.length].
  rewrite ?app_nil_r.
  repeat split; try lia.
  unfold reset_adaptive_params_on_success. rewrite I3.
  destruct (0 <? failed_attempts (adaptive p))%Z;
    match goal with |- context [(?c =? 0)%Z] => destruct (c =? 0)%Z end; reflexivity.
Qed.

(** X6.  An invocation ends at the first attempt whose dry-run call
    fails or whose error text is a circuit breaker trip or a revert:
    after [k] retried attempts and one such attempt, with more
    attempts still allowed, it has made exactly [k + 1] attempts,
    returns failure, and has applied neither transition of the failure
    counter. *)
Theorem terminal_error_ends_invocation (tokens : list Address) (prices : list Z)
    (k : nat) (p : Proc) :
  preflight chain (n_calls p) = true ->
  (Z.of_nat k < retry_attempts cfg)%Z ->
  (forall i, (i < k)%nat -> retried (attempt_result chain (n_attempts p + i)) = true) ->
  Feed.terminal (attempt_result chain (n_attempts p + k)) = true ->
  result (update_prices_with_retry chain cfg tokens prices) p = false /\
  attempts_of (events (update_prices_with_retry chain cfg tokens prices) p)
  = attempts_from tokens 0 (S k) /\
  n_attempts (final (update_prices_with_retry chain cfg tokens prices) p)
  = (n_attempts p + S k)%nat /\
  count_on_success (events (update_prices_with_retry chain cfg tokens prices) p) = 0%nat /\
  count_on_failure (events (update_prices_with_retry chain cfg tokens prices) p) = 0%nat /\
  failed_attempts (adaptive (final (update_prices_with_retry chain cfg tokens prices) p))
  = failed_attempts (adaptive p).
Proof.
  intros P K H T.
  destruct (retry_call_log chain cfg tokens prices p) as (_ & NF & _).
  split; [| split; [| split; [| split; [| split; [exact NF |]]]]];
    unfold update_prices_with_retry; autorewrite with run_m;
    cbn [result final events next_call tell fst snd app attempts_of flat_map
         count_on_success filter List.length];
    rewrite P;
    replace (Z.to_nat (retry_attempts cfg))
      with (k + S (Z.to_nat (retry_attempts cfg) - S k))%nat by lia;
    apply (retry_loop_stops tokens k _ 0
             (mkProc (adaptive p) (S (n_calls p)) (n_attempts p)) H T).
Qed.

(** X7.  A receipt with status 1 ends the invocation at once: after
    [k] retried attempts and one successful one, with more attempts
    still allowed, it has made exactly [k + 1] attempts, returns
    success, and has applied the success transition once, which takes
    one off a positive failure counter. *)
Theorem success_ends_invocation (tokens : list Address) (prices : list Z)
    (k : nat) (p : Proc) :
  preflight chain (n_calls p) = true ->
  (Z.of_nat k < retry_attempts cfg)%Z ->
  (0 < failed_attempts (adaptive p))%Z ->
  (forall i, (i < k)%nat -> retried (attempt_result chain (n_attempts p + i)) = true) ->
  attempt_result chain (n_attempts p + k) = Receipt 1 ->
  result (update_prices_with_retry chain cfg tokens prices) p = true /\
  attempts_of (events (update_prices_with_retry chain cfg tokens prices) p)
  = attempts_from tokens 0 (S k) /\
  n_attempts (final (update_prices_with_retry chain cfg tokens prices) p)
  = (n_attempts p + S k)%nat /\
  count_on_success (events (update_prices_with_retry chain cfg tokens prices) p) = 1%nat /\
  failed_attempts (adaptive (final (update_prices_with_retry chain cfg tokens prices) p))
  = (failed_attempts (adaptive p) - 1)%Z.
Proof.
  intros P K F H T.
  assert (L : result (update_prices_with_retry chain cfg tokens prices) p = true /\
    attempts_of (events (update_prices_with_retry chain cfg tokens prices) p)
    = attempts_from tokens 0 (S k) /\
    count_on_success (events (update_prices_with_retry chain cfg tokens prices) p) = 1%nat /\
    n_attempts (final (update_prices_with_retry chain cfg tokens prices) p)
    = (n_attempts p + S k)%nat /\
    failed_attempts (adaptive (final (update_prices_with_retry chain cfg tokens prices) p))
    = (if (0 <? failed_attempts (adaptive p))%Z
       then Z.max 0 (failed_attempts (adaptive p) - 1)
       else failed_attempts (adaptive p))).
  { unfold update_prices_with_retry; autorewrite with run_m;
    cbn [result final events next_call tell fst snd app attempts_of flat_map
         count_on_success filter List.length];
    rewrite P;
    replace (Z.to_nat (retry_attempts cfg))
      with (k + S (Z.to_nat (retry_attempts cfg) - S k))%nat by lia.
    apply (retry_loop_succeeds tokens k _ 0
             (mkProc (adaptive p) (S (n_calls p)) (n_attempts p)) H T). }
  destruct L as (L1 & L2 & L3 & L4 & L5).
  repeat split; try assumption.
  rewrite L5. destruct (Z.ltb_spec 0 (failed_attempts (adaptive p))); lia.
Qed.

Lemma sleeps_of_app (e1 e2 : list Event) :
  Feed.sleeps_of (e1 ++ e2) = Feed.sleeps_of e1 ++ Feed.sleeps_of e2.
Proof. apply flat_map_app. Qed.

Lemma retry_loop_sleeps (tokens : list Address) (remaining : nat) :
  forall (attempt : Z) (p : Proc),
    (attempt + Z.of_nat remaining = retry_attempts cfg)%Z ->
    (forall n, (n_attempts p <= n)%nat ->
               Feed.raised_and_retried (attempt_result chain n) = true) ->
    Feed.sleeps_of (events (retry_loop chain cfg tokens remaining attempt) p)
    = map (fun i => (retry_delay_base cfg * inject_Z (2 ^ (attempt + Z.of_nat i)))%Q)
        (seq 0 (remaining - 1)).
Proof.
  induction remaining as [| r IH]; intros attempt p E H; [reflexivity |].
  pose proof (H (n_attempts p) (Nat.le_refl _)) as H0.
  assert (IH' : forall q, n_attempts q = S (n_attempts p) ->
    Feed.sleeps_of (events (retry_loop chain cfg tokens r (attempt + 1)) q)
    = map (fun i => (retry_delay_base cfg * inject_Z (2 ^ (attempt + 1 + Z.of_nat i)))%Q)
        (seq 0 (r - 1))).
  { intros q Eq. apply IH; [lia |]. intros n L. apply H. lia. }
  assert (B : forall q,
    Feed.sleeps_of (events (backoff cfg attempt) q)
    = if (0 <? r)%nat then [(retry_delay_base cfg * inject_Z (2 ^ attempt))%Q] else []).
  { intro q. unfold backoff.
    destruct (Z.ltb_spec attempt (retry_attempts cfg - 1));
      destruct (Nat.ltb_spec 0 r); try lia; reflexivity. }
  assert (G : (if (0 <? r)%nat then [(retry_delay_base cfg * inject_Z (2 ^ attempt))%Q] else [])
              ++ map (fun i => (retry_delay_base cfg
                                * inject_Z (2 ^ (attempt + 1 + Z.of_nat i)))%Q) (seq 0 (r - 1))
              = map (fun i => (retry_delay_base cfg * inject_Z (2 ^ (attempt + Z.of_nat i)))%Q)
                  (seq 0 (S r - 1))).
  { destruct r as [| r']; [reflexivity |].
    cbn [Nat.ltb Nat.leb Nat.sub app]. rewrite !Nat.sub_0_r.
    cbn [seq map]. rewrite Z.add_0_r. f_equal.
    rewrite <- seq_shift, map_map. apply map_ext. intro i. do 3 f_equal. lia. }
  unfold Feed.sleeps_of in *.
  cbn [retry_loop]. autorewrite with run_m.
  cbn [result final events get next_attempt tell fst snd app flat_map].
  destruct (attempt_result chain (n_attempts p)) as [| status | msg];
    cbn [Feed.raised_and_retried retried] in H0; try discriminate.
  destruct (classify msg); try discriminate.
  - unfold on_out_of_gas. autorewrite with run_m.
    cbn [result final events modify_adaptive tell fst snd app flat_map adaptive n_calls
         n_attempts].
    rewrite flat_map_app.
    match goal with |- context [final (backoff cfg attempt) ?q] =>
      destruct (backoff_silent cfg attempt q) as (F & _); rewrite F, (B q), (IH' q eq_refl) end.
    exact G.
  - autorewrite with run_m. rewrite flat_map_app.
    match goal with |- context [final (backoff cfg attempt) ?q] =>
      destruct (backoff_silent cfg attempt q) as (F & _); rewrite F, (B q), (IH' q eq_refl) end.
    exact G.
Qed.

(** X8.  When every attempt of an invocation raises an error that is
    retried, the invocation sleeps after each attempt but the last, for
    [retry_delay_base] times 1, 2, 4, ...: one sleep fewer than
    attempts, each twice as long as the one before. *)
Theorem backoff_doubles (tokens : list Address) (prices : list Z) (p : Proc) :
  preflight chain (n_calls p) = true ->
  (forall n, (n_attempts p <= n)%nat ->
             Feed.raised_and_retried (attempt_result chain n) = true) ->
  Feed.sleeps_of (events (update_prices_with_retry chain cfg tokens prices) p)
  = map (fun i => (retry_delay_base cfg * inject_Z (2 ^ Z.of_nat i))%Q)
      (seq 0 (Z.to_nat (retry_attempts cfg) - 1)).
Proof.
  intros P H. unfold update_prices_with_retry. autorewrite with run_m.
  unfold Feed.sleeps_of.
  cbn [result final events next_call tell fst snd app flat_map].
  rewrite P.
  destruct (Z.le_gt_cases 0 (retry_attempts cfg)) as [L | L].
  - apply (retry_loop_sleeps tokens (Z.to_nat (retry_attempts cfg)) 0
             (mkProc (adaptive p) (S (n_calls p)) (n_attempts p))); [lia | exact H].
  - replace (Z.to_nat (retry_attempts cfg)) with 0%nat by lia. reflexivity.
Qed.

(** With the reads failing, an invocation only logs itself. *)
Lemma blocked_call (tokens : list Address) (prices : list Z) (p : Proc) :
  preflight chain (n_calls p) = false ->
  update_prices_with_retry chain cfg tokens prices p
  = (false, mkProc (adaptive p) (S (n_calls p)) (n_attempts p), [EvCall tokens prices]).
Proof.
  intro H. unfold update_prices_with_retry, bind, next_call, tell.
  rewrite H. reflexivity.
Qed.

Lemma individual_updates_blocked (batch : list (Address * Z)) :
  forall p : Proc,
    (forall n, (n_calls p <= n)%nat -> preflight chain n = false) ->
    individual_updates chain cfg batch p
    = (tt, mkProc (adaptive p) (n_calls p + List.length batch) (n_attempts p),
       map (fun item => EvCall [fst item] [snd item]) batch).
Proof.
  induction batch as [| [token_addr price] rest IH]; intros p H.
  { cbn. rewrite Nat.add_0_r. destruct p; reflexivity. }
  cbn [individual_updates]. unfold bind.
  rewrite (blocked_call _ _ _ (H _ (Nat.le_refl _))).
  rewrite IH by (intros n L; apply H; cbn [n_calls] in L; lia).
  cbn [adaptive n_calls n_attempts List.length map fst snd app].
  do 2 f_equal. f_equal. lia.
Qed.

Lemma log_of_calls (batch : list (Address * Z)) :
  calls_of (map (fun item => EvCall [fst item] [snd item]) batch) = singletons batch /\
  attempts_of (map (fun item => EvCall [fst item] [snd item]) batch) = [] /\
  count_on_failure (map (fun item => EvCall [fst item] [snd item]) batch) = 0%nat /\
  count_on_success (map (fun item => EvCall [fst item] [snd item]) batch) = 0%nat.
Proof.
  induction batch as [| item rest (I1 & I2 & I3 & I4)]; [repeat split |].
  cbn [map]. repeat split.
  - cbn [calls_of flat_map app singletons map]. f_equal. exact I1.
  - exact I2.
  - exact I3.
  - exact I4.
Qed.

(** X5.  While the pre-flight reads fail, a batch is never attempted on
    the chain, neither as a whole nor member by member, and yet it
    counts as a failure: the failure transition is applied once, and
    the retry function is entered once for the batch and, for a batch
    of more than one, once more per member. *)
Theorem failed_reads_count_as_failure (batch : list (Address * Z)) (p : Proc) :
  (forall n, (n_calls p <= n)%nat -> preflight chain n = false) ->
  result (process_batch chain cfg batch) p = false /\
  attempts_of (events (process_batch chain cfg batch) p) = [] /\
  count_on_failure (events (process_batch chain cfg batch) p) = 1%nat /\
  count_on_success (events (process_batch chain cfg batch) p) = 0%nat /\
  adaptive (final (process_batch chain cfg batch) p)
  = adjust_batch_size_on_failure (adaptive p) /\
  calls_of (events (process_batch chain cfg batch) p)
  = Feed.as_call batch :: (if (1 <? List.length batch)%nat then singletons batch else []).
Proof.
  intro H.
  destruct (log_of_calls batch) as (L1 & L2 & L3 & L4).
  unfold result, final, events, process_batch, bind.
  rewrite (blocked_call _ _ _ (H _ (Nat.le_refl _))).
  unfold on_failure, bind, modify_adaptive, tell, ret.
  cbn [adaptive n_calls n_attempts].
  destruct (1 <? List.length batch)%nat.
  - rewrite individual_updates_blocked by (intros n L; apply H; cbn [n_calls] in L; lia).
    cbn [fst snd adaptive app].
    rewrite !app_nil_r.
    cbn [attempts_of calls_of flat_map app]. fold (calls_of (map (fun item => EvCall [fst item] [snd item]) batch)) (attempts_of (map (fun item => EvCall [fst item] [snd item]) batch)).
    unfold count_on_failure, count_on_success. cbn [filter List.length].
    fold (count_on_failure (map (fun item => EvCall [fst item] [snd item]) batch))
         (count_on_success (map (fun item => EvCall [fst item] [snd item]) batch)).
    rewrite L1, L2, L3, L4. repeat split.
  - cbn. repeat split.
Qed.

(** An invocation whose first attempt gets a receipt with status 1. *)
Lemma successful_call (tokens : list Address) (prices : list Z) (p : Proc) :
  preflight chain (n_calls p) = true ->
  attempt_result chain (n_attempts p) = Receipt 1 ->
  (1 <= retry_attempts cfg)%Z ->
  update_prices_with_retry chain cfg tokens prices p
  = (true,
     mkProc (reset_adaptive_params_on_success cfg (adaptive p)) (S (n_calls p))
       (S (n_attempts p)),
     [EvCall tokens prices;
      EvAttempt tokens 0
        (get_smart_gas_limit (adaptive p) (Z.of_nat (List.length tokens)) 0)
        (get_dynamic_gas_price cfg (adaptive p) (gas_price_read chain (n_attempts p)));
      EvOnSuccess]).
Proof.
  intros P T R. unfold update_prices_with_retry, bind, next_call, tell. rewrite P.
  destruct (Z.to_nat (retry_attempts cfg)) as [| r] eqn:E; [lia |].
  cbn [retry_loop]. unfold bind, get, next_attempt, tell.
  cbn [adaptive n_calls n_attempts]. rewrite T. cbn [Z.eqb Pos.eqb].
  unfold on_success, bind, modify_adaptive, tell, ret. reflexivity.
Qed.

Lemma process_batches_succeed (batches : list (list (Address * Z))) :
  (forall n, preflight chain n = true) ->
  (forall n, attempt_result chain n = Receipt 1) ->
  (1 <= retry_attempts cfg)%Z ->
  forall (all_success : bool) (p : Proc),
    result (process_batches chain cfg batches all_success) p = all_success /\
    calls_of (events (process_batches chain cfg batches all_success) p)
    = map Feed.as_call batches /\
    attempts_of (events (process_batches chain cfg batches all_success) p)
    = map (fun batch => (map fst batch, 0%Z)) batches /\
    count_on_failure (events (process_batches chain cfg batches all_success) p) = 0%nat /\
    count_on_success (events (process_batches chain cfg batches all_success) p)
    = List.length batches /\
    adaptive (final (process_batches chain cfg batches all_success) p)
    = run cfg (adaptive p) (repeat OnSuccess (List.length batches)).
Proof.
  intros P T R. induction batches as [| batch rest IH]; intros all_success p.
  { cbn. repeat split. }
  assert (B : process_batch chain cfg batch p
              = (true,
                 mkProc (reset_adaptive_params_on_success cfg (adaptive p)) (S (n_calls p))
                   (S (n_attempts p)),
                 [EvCall (map fst batch) (map snd batch);
                  EvAttempt (map fst batch) 0
                    (get_smart_gas_limit (adaptive p)
                       (Z.of_nat (List.length (map fst batch))) 0)
                    (get_dynamic_gas_price cfg (adaptive p)
                       (gas_price_read chain (n_attempts p)));
                  EvOnSuccess])).
  { unfold process_batch, bind.
    rewrite (successful_call _ _ _ (P _) (T _) R). reflexivity. }
  set (q := mkProc (reset_adaptive_params_on_success cfg (adaptive p)) (S (n_calls p))
              (S (n_attempts p))) in B.
  assert (RB : result (process_batch chain cfg batch) p = true)
    by (unfold result; rewrite B; reflexivity).
  assert (FB : final (process_batch chain cfg batch) p = q)
    by (unfold final; rewrite B; reflexivity).
  assert (EB : events (process_batch chain cfg batch) p
               = [EvCall (map fst batch) (map snd batch);
                  EvAttempt (map fst batch) 0
                    (get_smart_gas_limit (adaptive p)
                       (Z.of_nat (List.length (map fst batch))) 0)
                    (get_dynamic_gas_price cfg (adaptive p)
                       (gas_price_read chain (n_attempts p)));
                  EvOnSuccess])
    by (unfold events; rewrite B; reflexivity).
  cbn [process_batches]. autorewrite with run_m. rewrite RB, FB, EB.
  destruct (IH all_success q) as (I1 & I2 & I3 & I4 & I5 & I6).
  rewrite I1, I2, I3, I4, I5, I6.
  cbn [q adaptive map List.length repeat Feed.as_call]. repeat split.
Qed.

(** X9.  On a chain where every read succeeds and every first attempt
    gets a receipt with status 1, a cycle submits each planned batch
    exactly once, on attempt 0, never applies the failure transition,
    and applies the success transition once per batch and once more for
    the cycle. *)
Theorem successful_cycle (items : list (Address * Z))
    (batches : list (list (Address * Z))) (p : Proc) :
  (forall n, preflight chain n = true) ->
  (forall n, attempt_result chain n = Receipt 1) ->
  (1 <= retry_attempts cfg)%Z ->
  plan_batches (current_batch_size (adaptive p)) items = Some batches ->
  result (update_prices chain cfg items) p = Some tt /\
  calls_of (events (update_prices chain cfg items) p) = map Feed.as_call batches /\
  attempts_of (events (update_prices chain cfg items) p)
  = map (fun batch => (map fst batch, 0%Z)) batches /\
  count_on_failure (events (update_prices chain cfg items) p) = 0%nat /\
  count_on_success (events (update_prices chain cfg items) p) = S (List.length batches) /\
  adaptive (final (update_prices chain cfg items) p)
  = run cfg (adaptive p) (repeat OnSuccess (S (List.length batches))).
Proof.
  intros P T R E.
  destruct (process_batches_succeed batches P T R true p) as (I1 & I2 & I3 & I4 & I5 & I6).
  unfold update_prices. autorewrite with run_m.
  cbn [result final events get fst snd app]. rewrite E.
  autorewrite with run_m. rewrite I1, I2, I3, I4, I5.
  unfold on_success. autorewrite with run_m.
  cbn [result final events modify_adaptive tell ret fst snd app adaptive
       calls_of attempts_of count_on_failure count_on_success flat_map filter List.length].
  rewrite I6, !app_nil_r.
  repeat split; try lia.
  cbn [repeat]. rewrite repeat_cons. unfold run. rewrite fold_left_app. reflexivity.
Qed.

End RetryMore.

(** ** Planning the batches *)

Section Batches.

Import Generator.

Context {A : Type}.

Lemma range_step_past (fuel start stop step : nat) :
  (stop <= start)%nat -> range_step fuel start stop step = [].
Proof.
  intro L. destruct fuel as [| f]; [reflexivity |].
  cbn [range_step]. destruct (Nat.ltb_spec start stop); [lia | reflexivity].
Qed.

Lemma range_step_in (step : nat) (stop : nat) (fuel : nat) :
  forall start i, In i (range_step fuel start stop step) -> (start <= i < stop)%nat.
Proof.
  induction fuel as [| f IH]; intros start i H; [destruct H |].
  cbn [range_step] in H. destruct (Nat.ltb_spec start stop) as [L | L]; [| destruct H].
  destruct H as [<- | H]; [lia |]. apply IH in H. lia.
Qed.

Lemma slices_concat (items : list A) (bs : nat) (fuel : nat) :
  (1 <= bs)%nat ->
  forall start,
    (start <= List.length items)%nat ->
    (List.length items - start <= fuel)%nat ->
    List.concat (map (fun i => slice i (Nat.min (i + bs) (List.length items)) items)
              (range_step fuel start (List.length items) bs))
    = skipn start items.
Proof.
  intro B. induction fuel as [| f IH]; intros start L F.
  { cbn. rewrite skipn_all2 by lia. reflexivity. }
  cbn [range_step]. destruct (Nat.ltb_spec start (List.length items)) as [Lt | Ge].
  - cbn [map List.concat]. unfold slice at 1.
    destruct (Nat.le_gt_cases (start + bs) (List.length items)) as [In | Out].
    + rewrite IH by lia.
      replace (Nat.min (start + bs) (List.length items) - start)%nat with bs by lia.
      rewrite <- (firstn_skipn bs (skipn start items)) at 2.
      rewrite skipn_skipn. f_equal. f_equal. lia.
    + rewrite range_step_past by lia. cbn [map List.concat]. rewrite app_nil_r.
      apply firstn_all2. rewrite length_skipn. lia.
  - cbn. rewrite skipn_all2 by lia. reflexivity.
Qed.

(** X10.  With a batch size of at least 1 the planned batches are the
    items cut into consecutive pieces: joined in order they give the
    items back, none is empty and none is longer than the batch size.
    A batch size of 0 makes the planning raise, and a negative one
    plans nothing. *)
Theorem planned_batches_cover (batch_size : Z) (items : list A) :
  ((1 <= batch_size)%Z ->
   exists batches,
     plan_batches batch_size items = Some batches /\
     List.concat batches = items /\
     Forall (fun batch => (1 <= Z.of_nat (List.length batch) <= batch_size)%Z) batches) /\
  (batch_size = 0%Z -> plan_batches batch_size items = None) /\
  ((batch_size < 0)%Z -> plan_batches batch_size items = Some []).
Proof.
  split; [| split].
  - intro B. unfold plan_batches.
    destruct (Z.eqb_spec batch_size 0); [lia |].
    destruct (Z.ltb_spec batch_size 0); [lia |].
    eexists. split; [reflexivity |]. split.
    + rewrite slices_concat by lia. reflexivity.
    + apply Forall_forall. intros batch Hin. apply in_map_iff in Hin.
      destruct Hin as [i [<- I]]. apply range_step_in in I.
      unfold slice. rewrite length_firstn, length_skipn. lia.
  - intros ->. reflexivity.
  - intro N. unfold plan_batches.
    destruct (Z.eqb_spec batch_size 0); [lia |].
    destruct (Z.ltb_spec batch_size 0); [reflexivity | lia].
Qed.

End Batches.

(** ** Prices and their history *)

Section FeedFacts.

Import Generator.
Local Open Scope Q_scope.

Lemma volatility_range (base_price : Q) :
  1 # 1000 <= Feed._calculate_volatility base_price <= 5 # 100.
Proof.
  unfold Feed._calculate_volatility.
  destruct (Qle_bool 10000 base_price); [lra |].
  destruct (Qle_bool 10 base_price); [lra |].
  destruct (Qle_bool base_price 2); lra.
Qed.

(** X11.  For a token whose volatility comes from
    [_calculate_volatility], with a non-negative volatility multiplier
    [m] and price-change cap, draws of the random generator within
    their ranges and a positive current price, one generated price is
    at least [current * (1 - m / 4)] and at most the larger of
    [min_price] and [current * (1 + m / 4)]; with volatile events
    switched off the same holds with [m / 20]. *)
Theorem price_step_is_bounded (cfg : PriceConfig)
    (base_price current r_event u r_change : Q) :
  0 < current ->
  0 <= volatility_multiplier cfg ->
  0 <= max_price_change cfg ->
  0 <= r_change <= 1 ->
  2 <= u <= 5 ->
  let price :=
    generate_price cfg (Feed._calculate_volatility base_price) current r_event u r_change in
  (current * (1 - volatility_multiplier cfg * (1 # 4)) <= price
   /\ price <= Qmax (min_price cfg) (current * (1 + volatility_multiplier cfg * (1 # 4))))
  /\ (enable_volatile_events cfg = false ->
      current * (1 - volatility_multiplier cfg * (1 # 20)) <= price
      /\ price <= Qmax (min_price cfg) (current * (1 + volatility_multiplier cfg * (1 # 20)))).
Proof.
  intros C M P R U price.
  destruct (volatility_range base_price) as [V1 V2].
  set (v := Feed._calculate_volatility base_price) in *.
  set (m := volatility_multiplier cfg) in *.
  assert (G : forall vol bound : Q,
    0 <= vol -> vol <= bound ->
    let change := Py.max (- max_price_change cfg)
                    (Py.min (max_price_change cfg) ((r_change - (1 # 2)) * 2 * vol)) in
    current * (1 - bound) <= Py.max (current * (1 + change)) (min_price cfg)
    /\ Py.max (current * (1 + change)) (min_price cfg)
       <= Qmax (min_price cfg) (current * (1 + bound))).
  { intros vol bound V0 VB change.
    assert (R1 : - vol <= (r_change - (1 # 2)) * 2 * vol) by nra.
    assert (R2 : (r_change - (1 # 2)) * 2 * vol <= vol) by nra.
    assert (B : - bound <= change /\ change <= bound).
    { unfold change.
      destruct (py_min_spec (max_price_change cfg) ((r_change - (1 # 2)) * 2 * vol))
        as [[H ->] | [H ->]];
      match goal with |- context [Py.max ?a ?b] =>
        destruct (py_max_spec a b) as [[K ->] | [K ->]] end; lra. }
    destruct B as [B1 B2].
    assert (L : current * (1 - bound) <= current * (1 + change)) by nra.
    assert (H : current * (1 + change) <= current * (1 + bound)) by nra.
    destruct (py_max_spec (current * (1 + change)) (min_price cfg)) as [[K ->] | [K ->]].
    - split; [exact L | apply Q.max_le_iff; right; exact H].
    - split; [lra | apply Q.le_max_l]. }
  assert (V0 : 0 <= v * m) by nra.
  assert (VM : v * m <= m * (1 # 20)) by nra.
  split.
  - unfold price, generate_price, clamped_change. fold v m.
    destruct (enable_volatile_events cfg
              && negb (Qle_bool (volatile_event_probability cfg) r_event)).
    + apply G; nra.
    + apply G; nra.
  - intro E. unfold price, generate_price, clamped_change. fold v m. rewrite E.
    cbn [andb]. apply G; nra.
Qed.

Lemma fold_min_le (rest : list Q) :
  forall first x, In x (first :: rest) -> Feed.min_of first rest <= x.
Proof.
  unfold Feed.min_of. induction rest as [| y rest IH]; intros first x H.
  - destruct H as [<- | []]. apply Qle_refl.
  - cbn [fold_left].
    destruct (py_min_spec first y) as [[L E] | [L E]]; rewrite E.
    + destruct H as [<- | [<- | H]].
      * apply IH. now left.
      * apply Qle_trans with first; [apply IH; now left | exact L].
      * apply IH. now right.
    + destruct H as [<- | [<- | H]].
      * apply Qle_trans with y; [apply IH; now left | lra].
      * apply IH. now left.
      * apply IH. now right.
Qed.

Lemma fold_max_ge (rest : list Q) :
  forall first x, In x (first :: rest) -> x <= Feed.max_of first rest.
Proof.
  unfold Feed.max_of. induction rest as [| y rest IH]; intros first x H.
  - destruct H as [<- | []]. apply Qle_refl.
  - cbn [fold_left].
    destruct (py_max_spec first y) as [[L E] | [L E]]; rewrite E.
    + destruct H as [<- | [<- | H]].
      * apply IH. now left.
      * apply Qle_trans with first; [exact L | apply IH; now left].
      * apply IH. now right.
    + destruct H as [<- | [<- | H]].
      * apply Qle_trans with y; [lra | apply IH; now left].
      * apply IH. now left.
      * apply IH. now right.
Qed.

(** X12.  Adding to a history that holds at most [max_size] entries
    leaves it holding at most [max_size]: below capacity the entry is
    appended, at capacity the oldest entry is dropped to make room;
    either way the new entry is the latest one, and stored prices stay
    positive if they were and the new one is. *)
Theorem history_add_keeps_bound (h : Feed.PriceHistory) (price timestamp : Q) :
  (1 <= Feed.max_size h)%Z ->
  (Z.of_nat (List.length (Feed.prices h)) <= Feed.max_size h)%Z ->
  (Z.of_nat (List.length (Feed.prices (Feed.add h price timestamp))) <= Feed.max_size h)%Z /\
  Feed.max_size (Feed.add h price timestamp) = Feed.max_size h /\
  Feed.prices (Feed.add h price timestamp)
  = (if (Z.of_nat (List.length (Feed.prices h)) <? Feed.max_size h)%Z
     then Feed.prices h else tl (Feed.prices h)) ++ [(price, timestamp)] /\
  (Forall (fun e => 0 < fst e) (Feed.prices h) -> 0 < price ->
   Forall (fun e => 0 < fst e) (Feed.prices (Feed.add h price timestamp))).
Proof.
  intros M L. unfold Feed.add. rewrite length_app. cbn [List.length].
  destruct (Z.ltb_spec (Feed.max_size h) (Z.of_nat (List.length (Feed.prices h) + 1)))
    as [Full | Room];
    destruct (Z.ltb_spec (Z.of_nat (List.length (Feed.prices h))) (Feed.max_size h));
    try lia; cbn [Feed.prices Feed.max_size].
  - destruct (Feed.prices h) as [| e rest] eqn:E; [cbn in *; lia |].
    cbn [app tl List.length] in *.
    split; [rewrite length_app; cbn [List.length]; lia |].
    split; [reflexivity |]. split; [reflexivity |].
    intros F P. apply Forall_app. split; [now inversion F | now constructor].
  - split; [rewrite length_app; cbn [List.length]; lia |].
    split; [reflexivity |]. split; [reflexivity |].
    intros F P. apply Forall_app. split; [exact F | now constructor].
Qed.

Lemma last_n_keeps_last {A : Type} (n : nat) (l : list A) (x : A) :
  (1 <= n)%nat -> In x (Feed.last_n n (l ++ [x])).
Proof.
  intro N. unfold Feed.last_n. rewrite length_app. cbn [List.length].
  rewrite skipn_app.
  replace (List.length l + 1 - n - List.length l)%nat with 0%nat by lia.
  apply in_or_app. right. now left.
Qed.

(** X13.  [get_stats] gives nothing exactly when the history holds
    fewer than two entries.  With two or more, all of positive price,
    it gives statistics (no division by zero) whose current price is
    that of the latest entry and lies between the reported low and
    high, and whose count is the number of entries. *)
Theorem stats_of_positive_history (h : Feed.PriceHistory) :
  (Feed.get_stats h = Feed.NoStats <-> (List.length (Feed.prices h) < 2)%nat) /\
  ((2 <= List.length (Feed.prices h))%nat ->
   Forall (fun e => 0 < fst e) (Feed.prices h) ->
   exists stats,
     Feed.get_stats h = Feed.SomeStats stats /\
     Feed.current stats = fst (last (Feed.prices h) (0, 0)) /\
     Feed.min_24h stats <= Feed.current stats <= Feed.max_24h stats /\
     Feed.count stats = List.length (Feed.prices h)).
Proof.
  destruct h as [ps ms]. unfold Feed.get_stats. cbn [Feed.prices].
  rewrite <- map_rev.
  assert (E : ps = rev (rev ps)) by (symmetry; apply rev_involutive).
  destruct (rev ps) as [| x [| y r]].
  - rewrite E. cbn. split; [split; [lia | reflexivity] | lia].
  - rewrite E. cbn. split; [split; [lia | reflexivity] | lia].
  - cbn [map].
    assert (L : (2 <= List.length ps)%nat).
    { rewrite E. cbn [rev]. rewrite !length_app. cbn [List.length]. lia. }
    assert (I : In (fst x) (map fst (Feed.last_n 24 ps))).
    { apply in_map. rewrite E. cbn [rev]. apply last_n_keeps_last. lia. }
    assert (X : fst x = fst (last ps (0, 0))).
    { rewrite E. cbn [rev]. rewrite last_last. reflexivity. }
    split.
    + split; [| lia]. intro N. exfalso.
      destruct (Qeq_bool (fst y) 0); [discriminate |].
      destruct (map fst (Feed.last_n 24 ps)); [destruct I | discriminate].
    + intros _ F.
      assert (Py : 0 < fst y).
      { rewrite E in F. cbn [rev] in F. apply Forall_app in F. destruct F as [F _].
        apply Forall_app in F. destruct F as [_ F]. now inversion F. }
      destruct (Qeq_bool (fst y) 0) eqn:Z.
      { apply Qeq_bool_iff in Z. lra. }
      destruct (map fst (Feed.last_n 24 ps)) as [| first rest]; [destruct I |].
      eexists. split; [reflexivity |]. cbn [Feed.current Feed.min_24h Feed.max_24h Feed.count].
      split; [exact X |]. split; [| reflexivity].
      split; [now apply fold_min_le | now apply fold_max_ge].
Qed.

(** X14.  The mode given on the command line has no effect on the
    configuration: every field a mode sets is set again from the
    arguments, so the configuration after set-up is the one the
    arguments alone give, whatever the mode and whatever it was
    before. *)
Theorem mode_is_overridden (c : Feed.Settings) (update_interval : Z) (volatility : Q)
    (no_events : bool) (event_probability max_change : Q) (history_size : Z)
    (mode : option Feed.Mode) :
  Feed.main_configure c
    (Feed.mkArgs update_interval volatility no_events event_probability max_change
       history_size mode)
  = Feed.mkSettings update_interval volatility (negb no_events) event_probability
      max_change history_size.
Proof.
  destruct mode as [[| |] |]; reflexivity.
Qed.

End FeedFacts.

(** * Further properties of the keeper *)

Section KeeperFacts.

Import Keeper.
Local Open Scope Q_scope.

(** X15.  [validate_config] reports no error exactly when the private
    key is set, a Router address is found under [Router] or, failing
    that, under [RouterProxy], the order check interval is at least 1
    and the liquidation threshold is negative; and it never reports
    more than four. *)
Theorem validation_passes_iff (cfg : KeeperConfig) :
  (validate_config cfg = []
   <-> truthy (private_key cfg) = true /\
       (truthy (dict_get (contracts cfg) "Router" "") = true \/
        truthy (dict_get (contracts cfg) "RouterProxy" "") = true) /\
       (1 <= order_check_interval cfg)%Z /\
       (liquidation_threshold cfg < 0)%Z) /\
  (List.length (validate_config cfg) <= 4)%nat.
Proof.
  unfold validate_config, get_contract_address. cbn [String.eqb Ascii.eqb Bool.eqb andb].
  rewrite andb_true_r.
  destruct (truthy (private_key cfg));
    destruct (truthy (dict_get (contracts cfg) "Router" "")) eqn:A;
    destruct (truthy (dict_get (contracts cfg) "RouterProxy" "")) eqn:B;
    destruct (Z.ltb_spec (order_check_interval cfg) 1) as [I | I];
    destruct (Z.leb_spec 0 (liquidation_threshold cfg)) as [T | T];
    cbn; rewrite ?A, ?B; cbn;
    (split;
     [split;
      [first [intro V; discriminate V | intros _; repeat split; auto]
      | intros (V1 & [V2 | V2] & V3 & V4);
        first [discriminate V1 | discriminate V2 | lia | reflexivity]]
     | lia]).
Qed.

(** A quotient of two [int]s, the divisor positive, against an [int]:
    no division is needed. *)
Lemma quotient_le_iff (a e t : Z) :
  (0 < e)%Z -> inject_Z a / inject_Z e <= inject_Z t <-> (a <= t * e)%Z.
Proof.
  intro E.
  assert (Pos : 0 < inject_Z e).
  { change 0 with (inject_Z 0). rewrite <- Zlt_Qlt. exact E. }
  rewrite Zle_Qle, inject_Z_mult. split; intro H.
  - apply (Qmult_le_r _ _ (/ inject_Z e)); [now apply Qinv_lt_0_compat |].
    rewrite <- Qmult_assoc, Qmult_inv_r, Qmult_1_r by lra. exact H.
  - apply (Qmult_le_r _ _ (/ inject_Z e)) in H; [| now apply Qinv_lt_0_compat].
    rewrite <- Qmult_assoc, Qmult_inv_r, Qmult_1_r in H by lra. exact H.
Qed.

(** When the rounded quotient is at most [t], the exact one is above
    [t] by no more than [2^-53] of its own size. *)
Lemma rounded_quotient_le (a e t : Z) :
  (0 < e)%Z ->
  Double.int_div a e <= inject_Z t ->
  (2 ^ 53 * a - Z.abs a <= 2 ^ 53 * (t * e))%Z.
Proof.
  intros E H. unfold Double.int_div in H.
  assert (Pos : 0 < inject_Z e).
  { change 0 with (inject_Z 0). rewrite <- Zlt_Qlt. exact E. }
  pose proof (round_error (inject_Z a / inject_Z e)) as R.
  apply Qabs_Qle_condition in R. destruct R as [R _].
  assert (X : inject_Z a / inject_Z e * inject_Z e == inject_Z a) by (field; lra).
  set (r := inject_Z a / inject_Z e) in *.
  unfold Double.eps in R. change (1 # 2 ^ 53) with (1 # 9007199254740992) in R.
  destruct (Z.le_gt_cases 0 a) as [N | N].
  - assert (Pa : 0 <= inject_Z a).
    { change 0 with (inject_Z 0). rewrite <- Zle_Qle. exact N. }
    assert (Pr : 0 <= r).
    { unfold r. apply Qle_shift_div_l; [exact Pos | lra]. }
    rewrite (Qabs_pos r Pr) in R.
    assert (K : inject_Z (9007199254740991 * a) <= inject_Z (9007199254740992 * (t * e))).
    { rewrite !inject_Z_mult.
      change (inject_Z 9007199254740991) with 9007199254740991.
      change (inject_Z 9007199254740992) with 9007199254740992.
      assert (r * (1 - (1 # 9007199254740992)) * inject_Z e <= inject_Z t * inject_Z e)
        by (apply Qmult_le_compat_r; lra).
      nra. }
    rewrite <- Zle_Qle in K. change (2 ^ 53)%Z with 9007199254740992%Z. lia.
  - assert (Pa : inject_Z a < 0).
    { change 0 with (inject_Z 0). rewrite <- Zlt_Qlt. exact N. }
    assert (Pr : r <= 0).
    { unfold r. apply Qle_shift_div_r; [exact Pos | lra]. }
    rewrite (Qabs_neg r Pr) in R.
    assert (K : inject_Z (9007199254740993 * a) <= inject_Z (9007199254740992 * (t * e))).
    { rewrite !inject_Z_mult.
      change (inject_Z 9007199254740993) with 9007199254740993.
      change (inject_Z 9007199254740992) with 9007199254740992.
      assert (r * (1 + (1 # 9007199254740992)) * inject_Z e <= inject_Z t * inject_Z e)
        by (apply Qmult_le_compat_r; lra).
      nra. }
    rewrite <- Zle_Qle in K. change (2 ^ 53)%Z with 9007199254740992%Z. lia.
Qed.

(** X16.  For a position with a positive entry price whose current
    price can be read, and a threshold that a double holds, the test of
    the scan is bracketed by two tests on integers.  With [n] the
    numerator of the ratio, [(current - entry) * 100] for a long
    position and [(entry - current) * 100] for a short one: when
    [n <= threshold * entry] the position is a candidate; and when it
    is a candidate, [2^53 * n - |n| <= 2^53 * threshold * entry]. *)
Theorem candidate_without_division (cfg : KeeperConfig) (cm : ContractManager)
    (position : PositionInfo) (current_price : Z) :
  (0 < entry_price position)%Z ->
  get_price cm (token position) = PriceValue current_price ->
  Double.of_int (liquidation_threshold cfg) == inject_Z (liquidation_threshold cfg) ->
  let numerator :=
    if (position_type position =? 0)%Z
    then ((current_price - entry_price position) * 100)%Z
    else ((entry_price position - current_price) * 100)%Z in
  ((numerator <= liquidation_threshold cfg * entry_price position)%Z ->
   liquidation_candidate cfg cm position = true) /\
  (liquidation_candidate cfg cm position = true ->
   (2 ^ 53 * numerator - Z.abs numerator
    <= 2 ^ 53 * (liquidation_threshold cfg * entry_price position))%Z).
Proof.
  intros E P D numerator.
  assert (C : calculate_pnl_ratio cm position
              = Double.int_div numerator (entry_price position)).
  { unfold calculate_pnl_ratio, numerator. rewrite P.
    destruct (Z.eqb_spec (entry_price position) 0) as [Z0 | _]; [lia |].
    destruct (position_type position =? 0)%Z; reflexivity. }
  unfold liquidation_candidate. rewrite C, Qle_bool_iff. split; intro H.
  - unfold Double.int_div. apply round_le_double; [exact D |].
    now apply quotient_le_iff.
  - now apply rounded_quotient_le.
Qed.

Lemma range_NoDup (start stop : Z) : NoDup (range start stop).
Proof.
  unfold range. generalize 0%nat as k.
  induction (Z.to_nat (stop - start)) as [| n IH]; intro k; [constructor |].
  cbn [seq map]. constructor; [| apply IH].
  intro H. apply in_map_iff in H. destruct H as [i [E I]]. apply in_seq in I. lia.
Qed.

(** X17.  The position scan acts on an id exactly when the id is below
    the next position id, the position can be fetched, is open and
    passes the threshold test; it acts on no id twice. *)
Theorem position_scan_selects (cfg : KeeperConfig) (cm : ContractManager) :
  (forall position_id,
     In position_id (_check_positions cfg cm)
     <-> (1 <= position_id < get_next_position_id cm)%Z /\
         exists position,
           get_position cm position_id = Some position /\
           is_open position = true /\
           liquidation_candidate cfg cm position = true) /\
  NoDup (_check_positions cfg cm).
Proof.
  split.
  - intro position_id. rewrite check_positions_spec. unfold check_position.
    split.
    + intros [R H]. split; [exact R |].
      destruct (get_position cm position_id) as [position |]; [| discriminate].
      exists position. destruct (is_open position); [auto | discriminate].
    + intros [R (position & G & O & C)]. split; [exact R |].
      rewrite G, O. exact C.
  - unfold _check_positions.
    destruct (get_next_position_id cm - 1 <=? 0)%Z; [constructor |].
    apply NoDup_filter, range_NoDup.
Qed.

End KeeperFacts.

Section ExecFacts.

Import Keeper Exec.

(** X18.  A positive threshold given on the command line is put in
    force although validation would reject it: the configuration after
    the overrides has that threshold and does not pass
    [validate_config], and under it every open position whose price
    cannot be read is acted on by the scan. *)
Theorem positive_threshold_bypasses_validation (cfg : KeeperConfig) (args : KeeperArgs)
    (threshold : Z) :
  arg_liquidation_threshold args = Some threshold ->
  (0 < threshold)%Z ->
  liquidation_threshold (configuration_in_force cfg args) = threshold /\
  validate_config (configuration_in_force cfg args) <> [] /\
  forall (cm : ContractManager) (position_id : Z) (position : PositionInfo),
    (1 <= position_id < get_next_position_id cm)%Z ->
    get_position cm position_id = Some position ->
    is_open position = true ->
    get_price cm (token position) = PriceNone \/ get_price cm (token position) = PriceRaises ->
    In position_id (_check_positions (configuration_in_force cfg args) cm).
Proof.
  intros A P.
  assert (T : liquidation_threshold (configuration_in_force cfg args) = threshold).
  { unfold configuration_in_force, config_overrides, update_config. rewrite A.
    assert (G : given (Some threshold) = true).
    { unfold given. destruct (Z.eqb_spec threshold 0); [lia | reflexivity]. }
    rewrite G, !fold_left_app. reflexivity. }
  split; [exact T |]. split.
  - intro V. apply validated_threshold_negative in V. lia.
  - intros cm position_id position R G O U.
    apply check_positions_spec. split; [exact R |].
    unfold check_position, liquidation_candidate, calculate_pnl_ratio.
    rewrite G, O, T. cbn [negb].
    apply Qle_bool_iff.
    destruct U as [-> | ->]; change 0%Q with (inject_Z 0); rewrite <- Zle_Qle; lia.
Qed.

(** X19.  An override is applied only when its argument is given and
    is not zero (or, for the key, not empty): after the overrides each
    of the three fields holds the argument in that case and its former
    value otherwise, and the contract addresses are untouched. *)
Theorem overrides_apply_when_given (cfg : KeeperConfig) (args : KeeperArgs) :
  private_key (configuration_in_force cfg args)
  = match arg_private_key args with
    | Some k => if truthy k then k else private_key cfg
    | None => private_key cfg
    end /\
  order_check_interval (configuration_in_force cfg args)
  = match arg_order_interval args with
    | Some v => if (v =? 0)%Z then order_check_interval cfg else v
    | None => order_check_interval cfg
    end /\
  liquidation_threshold (configuration_in_force cfg args)
  = match arg_liquidation_threshold args with
    | Some v => if (v =? 0)%Z then liquidation_threshold cfg else v
    | None => liquidation_threshold cfg
    end /\
  contracts (configuration_in_force cfg args) = contracts cfg.
Proof.
  unfold configuration_in_force, config_overrides, update_config, given.
  destruct (arg_private_key args) as [k |]; [destruct (truthy k) |];
    (destruct (arg_order_interval args) as [v |]; [destruct (v =? 0)%Z |]);
    (destruct (arg_liquidation_threshold args) as [t |]; [destruct (t =? 0)%Z |]);
    repeat split.
Qed.

(** X20.  The order scan acts on an id exactly when the id is below the
    next order id and at most [max_orders_per_batch], the order can be
    fetched, is not yet executed and the contract says it should
    execute; so an order with an id above the cap is never executed by
    the scan, however long it stays eligible. *)
Theorem order_scan_is_capped (max_orders_per_batch : Z) (book : OrderBook) :
  (forall id,
     In id (_check_orders max_orders_per_batch book)
     <-> (1 <= id < get_next_order_id book)%Z /\
         (id <= max_orders_per_batch)%Z /\
         exists order,
           get_order book id = Some order /\
           executed order = false /\
           should_execute_order book id = true) /\
  (forall id, (max_orders_per_batch < id)%Z -> ~ In id (_check_orders max_orders_per_batch book)).
Proof.
  assert (S : forall id,
     In id (_check_orders max_orders_per_batch book)
     <-> (1 <= id < get_next_order_id book)%Z /\
         (id <= max_orders_per_batch)%Z /\
         exists order,
           get_order book id = Some order /\
           executed order = false /\
           should_execute_order book id = true).
  { intro id. unfold _check_orders.
    destruct (Z.leb_spec (get_next_order_id book - 1) 0) as [L | L].
    - split; [intros [] | intros [H _]; lia].
    - rewrite filter_In, in_range. unfold check_order. split.
      + intros [R H]. split; [lia |]. split; [lia |].
        destruct (get_order book id) as [order |]; [| discriminate].
        exists order. destruct (executed order); [discriminate | auto].
      + intros (R & C & order & G & E & X). split; [lia |].
        rewrite G, E. exact X. }
  split; [exact S |].
  intros id H I. apply S in I. lia.
Qed.

Lemma with_retry_result (outcome : nat -> TxOutcome) (retry_attempts retry_delay : Z)
    (remaining : nat) :
  forall attempt,
    fst (with_retry outcome retry_attempts retry_delay remaining attempt) = true
    <-> exists i, (attempt <= i < attempt + remaining)%nat /\ outcome i = TxReceipt 1.
Proof.
  induction remaining as [| r IH]; intro attempt.
  { cbn. split; [discriminate | intros [i [H _]]; lia]. }
  cbn [with_retry].
  assert (Rest : fst (with_retry outcome retry_attempts retry_delay r (S attempt)) = true
                 <-> exists i, (S attempt <= i < attempt + S r)%nat /\ outcome i = TxReceipt 1).
  { rewrite IH. split; intros [i [H E]]; exists i; (split; [lia | exact E]). }
  assert (Step : forall b : bool,
    outcome attempt <> TxReceipt 1 ->
    (b = true <-> exists i, (S attempt <= i < attempt + S r)%nat /\ outcome i = TxReceipt 1) ->
    (b = true <-> exists i, (attempt <= i < attempt + S r)%nat /\ outcome i = TxReceipt 1)).
  { intros b N [H1 H2]. split.
    - intro B. destruct (H1 B) as [i [H E]]. exists i. split; [lia | exact E].
    - intros [i [H E]]. apply H2. exists i. split; [| exact E].
      destruct (Nat.eq_dec i attempt) as [-> | D]; [contradiction | lia]. }
  destruct (outcome attempt) as [| status |] eqn:O.
  - cbn [fst]. apply Step; [discriminate | exact Rest].
  - destruct (Z.eqb_spec status 1) as [-> | D].
    + cbn [fst]. split; [| reflexivity]. intros _. exists attempt. split; [lia | exact O].
    + cbn [fst]. apply Step; [congruence | exact Rest].
  - destruct (Z.of_nat attempt <? retry_attempts - 1)%Z; cbn [fst];
      (apply Step; [discriminate | exact Rest]).
Qed.

Lemma with_retry_effort (outcome : nat -> TxOutcome) (retry_attempts retry_delay : Z)
    (remaining : nat) :
  (0 <= retry_delay)%Z ->
  forall attempt,
    (attempts_made (snd (with_retry outcome retry_attempts retry_delay remaining attempt))
     <= remaining)%nat /\
    (fst (with_retry outcome retry_attempts retry_delay remaining attempt) = false ->
     attempts_made (snd (with_retry outcome retry_attempts retry_delay remaining attempt))
     = remaining) /\
    (0 <= time_slept (snd (with_retry outcome retry_attempts retry_delay remaining attempt))
     <= retry_delay * Z.max 0 (retry_attempts - 1 - Z.of_nat attempt))%Z.
Proof.
  intro D. induction remaining as [| r IH]; intro attempt.
  { cbn. repeat split; nia. }
  destruct (IH (S attempt)) as (I1 & I2 & I3).
  cbn [with_retry].
  set (rest := with_retry outcome retry_attempts retry_delay r (S attempt)) in *.
  assert (A1 : forall a l, attempts_made (KAttempt a :: l) = S (attempts_made l))
    by reflexivity.
  assert (A2 : forall a d l, attempts_made (KAttempt a :: KSleep d :: l) = S (attempts_made l))
    by reflexivity.
  assert (T1 : forall a l, time_slept (KAttempt a :: l) = time_slept l) by reflexivity.
  assert (T2 : forall a d l,
            time_slept (KAttempt a :: KSleep d :: l) = (d + time_slept l)%Z) by reflexivity.
  destruct (outcome attempt) as [| status |].
  - cbn [fst snd]. rewrite A1, T1.
    split; [lia |]. split; [intro F; rewrite (I2 F); reflexivity | nia].
  - destruct (status =? 1)%Z; cbn [fst snd].
    + rewrite A1, T1. split; [cbn; lia |]. split; [discriminate | cbn; nia].
    + rewrite A1, T1.
      split; [lia |]. split; [intro F; rewrite (I2 F); reflexivity | nia].
  - destruct (Z.ltb_spec (Z.of_nat attempt) (retry_attempts - 1)); cbn [fst snd].
    + rewrite A2, T2.
      split; [lia |]. split; [intro F; rewrite (I2 F); reflexivity | nia].
    + rewrite A1, T1.
      split; [lia |]. split; [intro F; rewrite (I2 F); reflexivity | nia].
Qed.

(** X21.  Executing an order with retries succeeds exactly when one of
    the first [retry_attempts] attempts gets a receipt with status 1.
    It never makes more than [retry_attempts] attempts, makes all of
    them when it fails, and with a non-negative delay sleeps at most
    [retry_delay * (retry_attempts - 1)] in all: the delay is constant,
    not growing.  Liquidating a position with retries runs the same
    loop. *)
Theorem order_retry_budget (outcome : nat -> TxOutcome) (retry_attempts retry_delay : Z) :
  (0 <= retry_delay)%Z ->
  _liquidate_position_with_retry outcome retry_attempts retry_delay
  = _execute_order_with_retry outcome retry_attempts retry_delay /\
  (fst (_execute_order_with_retry outcome retry_attempts retry_delay) = true
   <-> exists i, (Z.of_nat i < retry_attempts)%Z /\ outcome i = TxReceipt 1) /\
  (Z.of_nat (attempts_made (snd (_execute_order_with_retry outcome retry_attempts retry_delay)))
   <= Z.max 0 retry_attempts)%Z /\
  (fst (_execute_order_with_retry outcome retry_attempts retry_delay) = false ->
   Z.of_nat (attempts_made (snd (_execute_order_with_retry outcome retry_attempts retry_delay)))
   = Z.max 0 retry_attempts) /\
  (0 <= time_slept (snd (_execute_order_with_retry outcome retry_attempts retry_delay))
   <= retry_delay * Z.max 0 (retry_attempts - 1))%Z.
Proof.
  intro D. unfold _execute_order_with_retry.
  destruct (with_retry_effort outcome retry_attempts retry_delay (Z.to_nat retry_attempts) D 0)
    as (E1 & E2 & E3).
  split; [reflexivity |].
  split; [| split; [lia | split; [intro F; rewrite (E2 F); lia |]]].
  - rewrite with_retry_result. split; intros [i [H E]]; exists i; (split; [lia | exact E]).
  - replace (retry_attempts - 1 - Z.of_nat 0)%Z with (retry_attempts - 1)%Z in E3 by lia.
    exact E3.
Qed.

End ExecFacts.

(** * Instances of the further properties *)

Lemma four_failures_reachable :
  Generator.reachable Generator.default_config Scenario.four_failures.
Proof.
  unfold Scenario.four_failures, Generator.run. simpl fold_left.
  repeat apply (Generator.reach_step _ _ Generator.OnFailure). apply Generator.reach_init.
Defined.

Lemma one_failure_reachable :
  Generator.reachable Generator.default_config Scenario.one_failure.
Proof. apply (Generator.reach_step _ _ Generator.OnFailure), Generator.reach_init. Defined.

(** X1, at the state after four failures. *)
Lemma adaptive_state_range_witness :
  Generator.reachable Generator.default_config Scenario.four_failures /\
  (1 <= Generator.current_batch_size Scenario.four_failures <= 6)%Z.
Proof.
  split; [exact four_failures_reachable |].
  exact (proj1 (proj2 (adaptive_state_range Generator.default_config Scenario.four_failures
                         four_failures_reachable))).
Defined.

(** X2, at the state after one failure. *)
Lemma multiplier_moves_one_way_witness :
  Generator.reachable Generator.default_config Scenario.one_failure /\
  (Generator.adaptive_gas_multiplier Scenario.one_failure
   <= Generator.adaptive_gas_multiplier
        (Generator.adjust_batch_size_on_failure Scenario.one_failure))%Q.
Proof.
  split; [exact one_failure_reachable |].
  exact (proj1 (multiplier_moves_one_way Generator.default_config Scenario.one_failure
                  one_failure_reachable)).
Defined.

(** X3, from the state after four failures, with 18 successes. *)
Lemma sustained_success_recovers_witness :
  Generator.reachable Generator.default_config Scenario.four_failures /\
  (6 <= Generator.max_batch_size Generator.default_config)%Z /\
  (Generator.failed_attempts Scenario.four_failures + 14 <= Z.of_nat 18)%Z /\
  (Generator.failed_attempts Scenario.four_failures
   + Generator.max_batch_size Generator.default_config - 1 <= Z.of_nat 18)%Z /\
  Generator.current_batch_size
    (Generator.run Generator.default_config Scenario.four_failures
       (repeat Generator.OnSuccess 18)) = 6%Z.
Proof.
  assert (M : (6 <= Generator.max_batch_size Generator.default_config)%Z)
    by (vm_compute; discriminate).
  assert (N : (Generator.failed_attempts Scenario.four_failures + 14 <= Z.of_nat 18)%Z)
    by (vm_compute; discriminate).
  assert (B : (Generator.failed_attempts Scenario.four_failures
               + Generator.max_batch_size Generator.default_config - 1 <= Z.of_nat 18)%Z)
    by (vm_compute; discriminate).
  split; [exact four_failures_reachable |]. split; [exact M |].
  split; [exact N |]. split; [exact B |].
  exact (proj2 (proj2 (sustained_success_recovers Generator.default_config
                         Scenario.four_failures 18 four_failures_reachable M N B))).
Defined.

(** X4, for one token on a first attempt after one failure. *)
Lemma smart_gas_limit_range_witness :
  Generator.reachable Generator.default_config Scenario.one_failure /\
  (1 <= 1)%Z /\ (0 <= 0)%Z /\
  (800000 <= Generator.get_smart_gas_limit Scenario.one_failure 1 0 <= 8000000)%Z.
Proof.
  split; [exact one_failure_reachable |]. split; [lia |]. split; [lia |].
  exact (proj1 (smart_gas_limit_range Generator.default_config Scenario.one_failure 1 0
                  one_failure_reachable ltac:(lia) ltac:(lia))).
Defined.

(** X5, on a batch of three with the reads failing. *)
Lemma failed_reads_count_as_failure_witness :
  (forall n, (Generator.n_calls Scenario.start <= n)%nat ->
             Generator.preflight Cases.blocked_chain n = false) /\
  Generator.count_on_failure
    (Generator.events
       (Generator.process_batch Cases.blocked_chain Scenario.config_10_100
          Scenario.three_updates) Scenario.start) = 1%nat.
Proof.
  assert (H : forall n, (Generator.n_calls Scenario.start <= n)%nat ->
                        Generator.preflight Cases.blocked_chain n = false)
    by (intros n _; reflexivity).
  split; [exact H |].
  exact (proj1 (proj2 (proj2 (failed_reads_count_as_failure Cases.blocked_chain
                                Scenario.config_10_100 Scenario.three_updates
                                Scenario.start H)))).
Defined.

(** X6, on a chain that trips the circuit breaker on the second
    attempt. *)
Lemma terminal_error_ends_invocation_witness :
  Generator.preflight Cases.tripping_chain (Generator.n_calls Scenario.start) = true /\
  (Z.of_nat 1 < Generator.retry_attempts Scenario.config_10_100)%Z /\
  Feed.terminal
    (Generator.attempt_result Cases.tripping_chain
       (Generator.n_attempts Scenario.start + 1)) = true /\
  Generator.result
    (Generator.update_prices_with_retry Cases.tripping_chain Scenario.config_10_100
       [fst Scenario.eth_update] [snd Scenario.eth_update]) Scenario.start = false.
Proof.
  assert (K : (Z.of_nat 1 < Generator.retry_attempts Scenario.config_10_100)%Z)
    by (vm_compute; reflexivity).
  assert (H : forall i, (i < 1)%nat ->
    Generator.retried
      (Generator.attempt_result Cases.tripping_chain (Generator.n_attempts Scenario.start + i))
    = true).
  { intros i L. assert (E : i = 0%nat) by lia. rewrite E. reflexivity. }
  split; [reflexivity |]. split; [exact K |]. split; [reflexivity |].
  exact (proj1 (terminal_error_ends_invocation Cases.tripping_chain Scenario.config_10_100
                  [fst Scenario.eth_update] [snd Scenario.eth_update] 1 Scenario.start
                  eq_refl K H eq_refl)).
Defined.

(** X7, on a chain that accepts the second attempt. *)
Lemma success_ends_invocation_witness :
  Generator.preflight Cases.recovering_chain (Generator.n_calls Cases.degraded) = true /\
  (Z.of_nat 1 < Generator.retry_attempts Scenario.config_10_100)%Z /\
  (0 < Generator.failed_attempts (Generator.adaptive Cases.degraded))%Z /\
  Generator.attempt_result Cases.recovering_chain (Generator.n_attempts Cases.degraded + 1)
  = Generator.Receipt 1 /\
  Generator.result
    (Generator.update_prices_with_retry Cases.recovering_chain Scenario.config_10_100
       [fst Scenario.eth_update] [snd Scenario.eth_update]) Cases.degraded = true.
Proof.
  assert (K : (Z.of_nat 1 < Generator.retry_attempts Scenario.config_10_100)%Z)
    by (vm_compute; reflexivity).
  assert (F : (0 < Generator.failed_attempts (Generator.adaptive Cases.degraded))%Z)
    by (vm_compute; reflexivity).
  assert (H : forall i, (i < 1)%nat ->
    Generator.retried
      (Generator.attempt_result Cases.recovering_chain
         (Generator.n_attempts Cases.degraded + i)) = true).
  { intros i L. assert (E : i = 0%nat) by lia. rewrite E. reflexivity. }
  split; [reflexivity |]. split; [exact K |]. split; [exact F |]. split; [reflexivity |].
  exact (proj1 (success_ends_invocation Cases.recovering_chain Scenario.config_10_100
                  [fst Scenario.eth_update] [snd Scenario.eth_update] 1 Cases.degraded
                  eq_refl K F H eq_refl)).
Defined.

(** X8, with three attempts that all time out: sleeps of 1 and 2. *)
Lemma backoff_doubles_witness :
  Generator.preflight Scenario.failing_chain (Generator.n_calls Scenario.start) = true /\
  (forall n, (Generator.n_attempts Scenario.start <= n)%nat ->
     Feed.raised_and_retried (Generator.attempt_result Scenario.failing_chain n) = true) /\
  Feed.sleeps_of
    (Generator.events
       (Generator.update_prices_with_retry Scenario.failing_chain Scenario.config_10_100
          [fst Scenario.eth_update] [snd Scenario.eth_update]) Scenario.start)
  = [(1 * inject_Z (2 ^ 0))%Q; (1 * inject_Z (2 ^ 1))%Q].
Proof.
  assert (H : forall n, (Generator.n_attempts Scenario.start <= n)%nat ->
     Feed.raised_and_retried (Generator.attempt_result Scenario.failing_chain n) = true)
    by (intros n _; reflexivity).
  split; [reflexivity |]. split; [exact H |].
  exact (backoff_doubles Scenario.failing_chain Scenario.config_10_100
           [fst Scenario.eth_update] [snd Scenario.eth_update] Scenario.start eq_refl H).
Defined.

(** X9, on three updates that fit one batch. *)
Lemma successful_cycle_witness :
  (forall n, Generator.preflight Cases.smooth_chain n = true) /\
  (forall n, Generator.attempt_result Cases.smooth_chain n = Generator.Receipt 1) /\
  (1 <= Generator.retry_attempts Scenario.config_10_100)%Z /\
  Generator.plan_batches
    (Generator.current_batch_size (Generator.adaptive Scenario.start)) Scenario.three_updates
  = Some [Scenario.three_updates] /\
  Generator.count_on_success
    (Generator.events
       (Generator.update_prices Cases.smooth_chain Scenario.config_10_100
          Scenario.three_updates) Scenario.start) = 2%nat.
Proof.
  assert (P : forall n, Generator.preflight Cases.smooth_chain n = true)
    by (intro n; reflexivity).
  assert (T : forall n, Generator.attempt_result Cases.smooth_chain n = Generator.Receipt 1)
    by (intro n; reflexivity).
  assert (R : (1 <= Generator.retry_attempts Scenario.config_10_100)%Z)
    by (vm_compute; discriminate).
  split; [exact P |]. split; [exact T |]. split; [exact R |]. split; [reflexivity |].
  exact (proj1 (proj2 (proj2 (proj2 (proj2
           (successful_cycle Cases.smooth_chain Scenario.config_10_100 Scenario.three_updates
              [Scenario.three_updates] Scenario.start P T R eq_refl)))))).
Defined.

(** X10, cutting three updates into batches of at most two. *)
Lemma planned_batches_cover_witness :
  (1 <= 2)%Z /\
  exists batches,
    Generator.plan_batches 2 Scenario.three_updates = Some batches /\
    List.concat batches = Scenario.three_updates /\
    Forall (fun batch => (1 <= Z.of_nat (List.length batch) <= 2)%Z) batches.
Proof.
  split; [lia |].
  exact (proj1 (planned_batches_cover 2 Scenario.three_updates) ltac:(lia)).
Defined.

(** X11, for a token priced at 2500 under the default configuration. *)
Lemma price_step_is_bounded_witness :
  (0 < 2500)%Q /\
  (0 <= Generator.volatility_multiplier Generator.default_config)%Q /\
  (0 <= Generator.max_price_change Generator.default_config)%Q /\
  (0 <= 1 <= 1)%Q /\ (2 <= 3 <= 5)%Q /\
  (2500 * (1 - Generator.volatility_multiplier Generator.default_config * (1 # 4))
   <= Generator.generate_price Generator.default_config (Feed._calculate_volatility 2500)
        2500 (1 # 2) 3 1)%Q.
Proof.
  assert (C : (0 < 2500)%Q) by reflexivity.
  assert (M : (0 <= Generator.volatility_multiplier Generator.default_config)%Q)
    by (vm_compute; discriminate).
  assert (P : (0 <= Generator.max_price_change Generator.default_config)%Q)
    by (vm_compute; discriminate).
  assert (R : (0 <= 1 <= 1)%Q) by (split; vm_compute; discriminate).
  assert (U : (2 <= 3 <= 5)%Q) by (split; vm_compute; discriminate).
  split; [exact C |]. split; [exact M |]. split; [exact P |]. split; [exact R |].
  split; [exact U |].
  exact (proj1 (proj1 (price_step_is_bounded Generator.default_config 2500 2500 (1 # 2) 3 1
                         C M P R U))).
Defined.

(** X12, adding to a full history of capacity two. *)
Lemma history_add_keeps_bound_witness :
  (1 <= Feed.max_size Cases.full_history)%Z /\
  (Z.of_nat (List.length (Feed.prices Cases.full_history))
   <= Feed.max_size Cases.full_history)%Z /\
  (Z.of_nat (List.length (Feed.prices (Feed.add Cases.full_history 102 3)))
   <= Feed.max_size Cases.full_history)%Z.
Proof.
  assert (M : (1 <= Feed.max_size Cases.full_history)%Z) by (vm_compute; discriminate).
  assert (L : (Z.of_nat (List.length (Feed.prices Cases.full_history))
               <= Feed.max_size Cases.full_history)%Z) by (vm_compute; discriminate).
  split; [exact M |]. split; [exact L |].
  exact (proj1 (history_add_keeps_bound Cases.full_history 102 3 M L)).
Defined.

(** X13, on a history of two positive prices. *)
Lemma stats_of_positive_history_witness :
  (2 <= List.length (Feed.prices Cases.full_history))%nat /\
  Forall (fun e => (0 < fst e)%Q) (Feed.prices Cases.full_history) /\
  exists stats,
    Feed.get_stats Cases.full_history = Feed.SomeStats stats /\
    Feed.current stats = fst (last (Feed.prices Cases.full_history) (0%Q, 0%Q)) /\
    (Feed.min_24h stats <= Feed.current stats <= Feed.max_24h stats)%Q /\
    Feed.count stats = List.length (Feed.prices Cases.full_history).
Proof.
  assert (L : (2 <= List.length (Feed.prices Cases.full_history))%nat) by (cbn; lia).
  assert (F : Forall (fun e => (0 < fst e)%Q) (Feed.prices Cases.full_history))
    by (repeat constructor).
  split; [exact L |]. split; [exact F |].
  exact (proj2 (stats_of_positive_history Cases.full_history) L F).
Defined.

(** X16, on the long position at the threshold. *)
Lemma candidate_without_division_witness :
  (0 < Keeper.entry_price Scenario.long_position)%Z /\
  Keeper.get_price Scenario.at_threshold (Keeper.token Scenario.long_position)
  = Keeper.PriceValue 200 /\
  (Double.of_int (Keeper.liquidation_threshold Scenario.keeper_config)
   == inject_Z (Keeper.liquidation_threshold Scenario.keeper_config))%Q /\
  Keeper.liquidation_candidate Scenario.keeper_config Scenario.at_threshold
    Scenario.long_position = true.
Proof.
  assert (E : (0 < Keeper.entry_price Scenario.long_position)%Z) by (vm_compute; reflexivity).
  assert (D : (Double.of_int (Keeper.liquidation_threshold Scenario.keeper_config)
               == inject_Z (Keeper.liquidation_threshold Scenario.keeper_config))%Q)
    by reflexivity.
  split; [exact E |]. split; [reflexivity |]. split; [exact D |].
  apply (proj1 (candidate_without_division Scenario.keeper_config Scenario.at_threshold
                  Scenario.long_position 200 E eq_refl D)).
  vm_compute. discriminate.
Defined.

(** X18, for a keeper started with a threshold of 10. *)
Lemma positive_threshold_bypasses_validation_witness :
  Exec.arg_liquidation_threshold Cases.rash_args = Some 10%Z /\
  (0 < 10)%Z /\
  Keeper.liquidation_threshold
    (Exec.configuration_in_force Scenario.keeper_config Cases.rash_args) = 10%Z.
Proof.
  split; [reflexivity |]. split; [lia |].
  exact (proj1 (positive_threshold_bypasses_validation Scenario.keeper_config Cases.rash_args
                  10 eq_refl ltac:(lia))).
Defined.

(** X21, for a transaction mined on the second of three tries. *)
Lemma order_retry_budget_witness :
  (0 <= 2)%Z /\
  fst (Exec._execute_order_with_retry Cases.second_try 3 2) = true.
Proof.
  split; [lia |].
  apply (proj1 (proj2 (order_retry_budget Cases.second_try 3 2 ltac:(lia)))).
  exists 1%nat. split; [lia | reflexivity].
Defined.
